(** * Script optimisation driver of Zeek: [src/script_opt/ScriptOpt.cc]

    A shallow embedding of [optimize_func], [analyze_func] and
    [analyze_scripts], and the properties of the "when" analysis, of the
    configuration, of the mode dispatch and of the per-function reduction
    that the specification states about them. *)

From Stdlib Require Import ZArith Lia Ascii String.
From stdpp Require Import base option list gmap sets strings.

Local Open Scope string_scope.
Local Open Scope nat_scope.
Local Open Scope list_scope.

(** ** Function identities and profiles

    [when_funcs], [when_funcs_to_do], [new_to_do] and [func_profs] are keyed
    by [const ScriptFunc*]: a function is identified by the address of its
    [ScriptFunc] object. *)

Definition FuncId := nat.

(** [ProfileFunc] is declared in [ProfileFunc.h]; the driver reads four of
    its accessors. *)
Record ProfileFunc := {
  ScriptCalls : gset FuncId;   (* ScriptCalls(): script functions called *)
  WhenCalls : gset FuncId;     (* WhenCalls(): those called in a "when" *)
  NumWhenStmts : nat;
  NumLambdas : nat
}.

(** ** The "when" analysis ([analyze_scripts], lines 160 to 224) *)

(** How the loop over [when_funcs_to_do] ends: with the final set, by
    dereferencing the null pointer that [func_profs[wf]] yields for a
    function that was never registered, or (in the model only) by exhausting
    the bound on the number of passes. *)
Inductive outcome :=
| Done (when_funcs : gset FuncId)
| NullProfile
| OutOfFuel.

Module Taint.

(** The pair [(f.Func(), f.Profile())] of a record of [funcs], after the
    profiling loop of lines 162 to 168. *)
Definition profiled := (FuncId * ProfileFunc)%type.

(** Lines 160 to 168: [func_profs[f.Func()] = f.Profile()], in registration
    order; a later record of the same function overwrites an earlier one. *)
Definition func_profs (funcs : list profiled) : gmap FuncId ProfileFunc :=
  fold_left (λ m f, <[f.1 := f.2]> m) funcs ∅.

Section loops.
(** The order in which a range-for visits a [std::unordered_set]: each
    element once, in an order the program does not control. *)
Variable order : gset FuncId → list FuncId.

(** Lines 185 and 186. *)
Definition insert_all (calls to_do : gset FuncId) : gset FuncId :=
  fold_left (λ td bf, {[bf]} ∪ td) (order calls) to_do.

(** Lines 179 to 198, one record. *)
Definition seed_step (st : gset FuncId * gset FuncId) (f : profiled)
    : gset FuncId * gset FuncId :=
  let '(when_funcs, when_funcs_to_do) := st in
  if bool_decide (0 < size (WhenCalls f.2)) then
    ({[f.1]} ∪ when_funcs, insert_all (WhenCalls f.2) when_funcs_to_do)
  else st.

Definition seed (funcs : list profiled) : gset FuncId * gset FuncId :=
  fold_left seed_step funcs (∅, ∅).

(** Lines 211 to 219: the calls of one function. *)
Definition scan_calls (when_funcs new_to_do : gset FuncId)
    (calls : list FuncId) : gset FuncId :=
  fold_left
    (λ ntd wff, if bool_decide (wff ∈ when_funcs) then ntd else {[wff]} ∪ ntd)
    calls new_to_do.

(** Lines 209 to 219: one element [wf] of [when_funcs_to_do]. *)
Definition process (fp : gmap FuncId ProfileFunc)
    (st : option (gset FuncId * gset FuncId)) (wf : FuncId)
    : option (gset FuncId * gset FuncId) :=
  match st with
  | None => None
  | Some (when_funcs, new_to_do) =>
      let when_funcs := {[wf]} ∪ when_funcs in
      match fp !! wf with
      | None => None
      | Some pf =>
          Some (when_funcs,
                scan_calls when_funcs new_to_do (order (ScriptCalls pf)))
      end
  end.

(** Lines 207 to 220: one pass over [when_funcs_to_do], with [new_to_do]
    empty at its start. *)
Definition pass (fp : gmap FuncId ProfileFunc)
    (when_funcs when_funcs_to_do : gset FuncId)
    : option (gset FuncId * gset FuncId) :=
  fold_left (process fp) (order when_funcs_to_do) (Some (when_funcs, ∅)).

(** Lines 205 to 224. *)
Fixpoint when_loop (fuel : nat) (fp : gmap FuncId ProfileFunc)
    (when_funcs when_funcs_to_do : gset FuncId) : outcome :=
  if bool_decide (0 < size when_funcs_to_do) then
    match fuel with
    | 0 => OutOfFuel
    | S fuel =>
        match pass fp when_funcs when_funcs_to_do with
        | None => NullProfile
        | Some (when_funcs, new_to_do) => when_loop fuel fp when_funcs new_to_do
        end
    end
  else Done when_funcs.

(** A number of passes that always suffices. *)
Definition enough_fuel (fp : gmap FuncId ProfileFunc) : nat :=
  2 * size (dom fp) + 2.

(** Lines 160 to 224 on the profiled records. *)
Definition compute_when_funcs (funcs : list profiled) : outcome :=
  let fp := func_profs funcs in
  let '(when_funcs, when_funcs_to_do) := seed funcs in
  when_loop (enough_fuel fp) fp when_funcs when_funcs_to_do.
End loops.

(** *** What the analysis is compared with *)

(** The iteration order visits each element of the set once. *)
Definition valid_order (order : gset FuncId → list FuncId) : Prop :=
  ∀ s, order s ≡ₚ elements s.

(** A record of [f] has a non-empty [WhenCalls()]. *)
Definition is_root (funcs : list profiled) (f : FuncId) : Prop :=
  ∃ pf, (f, pf) ∈ funcs ∧ WhenCalls pf ≠ ∅.

(** [g] is in the [WhenCalls()] of some record. *)
Definition is_when_callee (funcs : list profiled) (g : FuncId) : Prop :=
  ∃ f pf, (f, pf) ∈ funcs ∧ g ∈ WhenCalls pf.

(** [g] is in [func_profs[f]->ScriptCalls()]. *)
Definition calls (fp : gmap FuncId ProfileFunc) (f g : FuncId) : Prop :=
  ∃ pf, fp !! f = Some pf ∧ g ∈ ScriptCalls pf.

(** Reachable from a function in [seeds] along script calls. *)
Inductive reaches (fp : gmap FuncId ProfileFunc) (seeds : FuncId → Prop)
    : FuncId → Prop :=
| reaches_seed f : seeds f → reaches fp seeds f
| reaches_call f g : reaches fp seeds f → calls fp f g → reaches fp seeds g.

(** The functions the loop takes from its work list: those of the initial
    work list [seeds], and the script callees of a function taken that are
    not in the initial [when_funcs]. *)
Inductive visited (fp : gmap FuncId ProfileFunc) (initial seeds : FuncId → Prop)
    : FuncId → Prop :=
| visited_seed f : seeds f → visited fp initial seeds f
| visited_call f g :
    visited fp initial seeds f → calls fp f g → ¬ initial g →
    visited fp initial seeds g.

(** What the analysis closes its result under. *)
Definition when_closed (funcs : list profiled) (X : gset FuncId) : Prop :=
  (∀ f, is_root funcs f → f ∈ X)
  ∧ (∀ g, is_when_callee funcs g → g ∈ X)
  ∧ (∀ f g, f ∈ X → is_when_callee funcs f ∨ ¬ is_root funcs f →
       calls (func_profs funcs) f g → g ∈ X).

(** Every function named in a record's call sets has a record. *)
Definition callees_registered (funcs : list profiled) : Prop :=
  Forall (λ p, WhenCalls p.2 ∪ ScriptCalls p.2 ⊆ dom (func_profs funcs)) funcs.

(** The records of one function list the same script calls. *)
Definition same_script_calls (funcs : list profiled) : Prop :=
  Forall (λ p, Forall (λ q, p.1 = q.1 → ScriptCalls p.2 = ScriptCalls q.2) funcs)
    funcs.

(** A function that the loop takes from its work list has no record: the
    loop then dereferences the null pointer that [func_profs[wf]] yields. *)
Definition takes_without_record (funcs : list profiled) : Prop :=
  ∃ f, visited (func_profs funcs) (is_root funcs) (is_when_callee funcs) f
       ∧ func_profs funcs !! f = None.

(** Bounds the passes left from a state of the loop. *)
Definition passes_left (fp : gmap FuncId ProfileFunc)
    (when_funcs to_do : gset FuncId) : nat :=
  if decide (to_do = ∅) then 0
  else 1 + 2 * size (dom fp ∖ when_funcs)
       + (if decide (to_do ⊆ when_funcs) then 1 else 0).

End Taint.

(** ** Syntax trees and the other collaborators

    Statement trees, scopes, the reducer, the table of compiled functions:
    the driver holds and passes them on, and looks inside none of them. *)

Class AST := {
  Stmt : Type;        (* StmtPtr: a statement tree *)
  Scope : Type;       (* ScopePtr *)
  Obj : Type;         (* what non_reduced_perp points to *)
  Bodies : Type;      (* the bodies a ScriptFunc holds *)
  Reducer : Type;     (* the state of a Reducer *)
  NativeFunc : Type   (* a value of compiled_funcs *)
}.

(** ** C [int] arithmetic and [atoi] *)

Definition int_min : Z := - 2 ^ 31.
Definition int_max : Z := 2 ^ 31 - 1.
Definition in_int (z : Z) : Prop := (int_min ≤ z ≤ int_max)%Z.

(** Two's-complement [int]: the value of a sum once it is stored. *)
Definition wrap_int (z : Z) : Z := ((z + 2 ^ 31) mod 2 ^ 32 - 2 ^ 31)%Z.
Definition int_add (a b : Z) : Z := wrap_int (a + b).

Definition is_space (c : ascii) : bool :=
  let n := nat_of_ascii c in
  bool_decide (n = 32 ∨ 9 ≤ n ≤ 13)%nat.

Definition digit_value (c : ascii) : option Z :=
  let n := nat_of_ascii c in
  if bool_decide (48 ≤ n ≤ 57)%nat then Some (Z.of_nat (n - 48)) else None.

Fixpoint atoi_digits (acc : Z) (s : string) : Z :=
  match s with
  | String c rest =>
      match digit_value c with
      | Some d => atoi_digits (10 * acc + d) rest
      | None => acc
      end
  | EmptyString => acc
  end.

Fixpoint skip_spaces (s : string) : string :=
  match s with
  | String c rest => if is_space c then skip_spaces rest else s
  | EmptyString => s
  end.

(** The integer that a text denotes for [atoi]: white space, an optional
    sign, then decimal digits up to the first other character. *)
Definition decimal_value (s : string) : Z :=
  match skip_spaces s with
  | String c rest =>
      if bool_decide (nat_of_ascii c = 45) then (- atoi_digits 0 rest)%Z
      else if bool_decide (nat_of_ascii c = 43) then atoi_digits 0 rest
      else atoi_digits 0 (String c rest)
  | EmptyString => 0%Z
  end.

(** What the GNU C library returns for a text whose integer does not fit:
    [strtol] stops at the bounds of [long], and [atoi] converts to [int]. *)
Definition long_min : Z := - 2 ^ 63.
Definition long_max : Z := 2 ^ 63 - 1.
Definition clamp_long (z : Z) : Z := Z.max long_min (Z.min long_max z).

Definition nl : string := String (ascii_of_nat 10) EmptyString.
Definition dquote : string := String (ascii_of_nat 34) EmptyString.

(** ** Options ([AnalyOpt], declared in [ScriptOpt.h]) *)

Record AnalyOpt := {
  only_func : option string;   (* std::optional<std::string> *)
  activate : bool;
  dump_xform : bool;
  inliner : bool;
  report_recursive : bool;
  usage_issues : Z             (* int *)
}.

Definition set_only_func (v : option string) (o : AnalyOpt) : AnalyOpt :=
  {| only_func := v; activate := activate o; dump_xform := dump_xform o;
     inliner := inliner o; report_recursive := report_recursive o;
     usage_issues := usage_issues o |}.
Definition set_activate (v : bool) (o : AnalyOpt) : AnalyOpt :=
  {| only_func := only_func o; activate := v; dump_xform := dump_xform o;
     inliner := inliner o; report_recursive := report_recursive o;
     usage_issues := usage_issues o |}.
Definition set_dump_xform (v : bool) (o : AnalyOpt) : AnalyOpt :=
  {| only_func := only_func o; activate := activate o; dump_xform := v;
     inliner := inliner o; report_recursive := report_recursive o;
     usage_issues := usage_issues o |}.
Definition set_inliner (v : bool) (o : AnalyOpt) : AnalyOpt :=
  {| only_func := only_func o; activate := activate o; dump_xform := dump_xform o;
     inliner := v; report_recursive := report_recursive o;
     usage_issues := usage_issues o |}.
Definition set_usage_issues (v : Z) (o : AnalyOpt) : AnalyOpt :=
  {| only_func := only_func o; activate := activate o; dump_xform := dump_xform o;
     inliner := inliner o; report_recursive := report_recursive o;
     usage_issues := v |}.

(** ** Statements with [return]

    A statement either falls through to the next one with a value, returns
    from the enclosing function, or faults. *)
Inductive ctl (A : Type) :=
| Normal (a : A)
| Returned
| Crashed      (* a null pointer dereferenced *)
| Stuck.       (* the model's bound on loop passes exhausted *)
Arguments Normal {A} a.
Arguments Returned {A}.
Arguments Crashed {A}.
Arguments Stuck {A}.

Section model.
Context `{AST}.

(** ** Functions and the registry *)

(** The state of a [ScriptFunc] object. [sf_id] stands for its address. *)
Record ScriptFunc := {
  sf_id : FuncId;
  Name : string;
  FrameSize : Z;        (* int *)
  GetScope : Scope;
  sf_bodies : Bodies
}.

Definition SetFrameSize (f : ScriptFunc) (new_size : Z) : ScriptFunc :=
  {| sf_id := sf_id f; Name := Name f; FrameSize := new_size;
     GetScope := GetScope f; sf_bodies := sf_bodies f |}.

Definition with_bodies (f : ScriptFunc) (b : Bodies) : ScriptFunc :=
  {| sf_id := sf_id f; Name := Name f; FrameSize := FrameSize f;
     GetScope := GetScope f; sf_bodies := b |}.

(** [FuncInfo]: a record of [funcs]. It carries the state of the function
    object its [func] pointer leads to. *)
Record FuncInfo := {
  Func : ScriptFunc;
  fi_scope : Scope;
  Body : Stmt;
  Profile : option ProfileFunc   (* std::unique_ptr<ProfileFunc> pf *)
}.

Definition SetProfile (f : FuncInfo) (pf : ProfileFunc) : FuncInfo :=
  {| Func := Func f; fi_scope := fi_scope f; Body := Body f; Profile := Some pf |}.
Definition SetBody (f : FuncInfo) (new_body : Stmt) : FuncInfo :=
  {| Func := Func f; fi_scope := fi_scope f; Body := new_body; Profile := Profile f |}.
Definition SetFunc (f : FuncInfo) (sf : ScriptFunc) : FuncInfo :=
  {| Func := sf; fi_scope := fi_scope f; Body := Body f; Profile := Profile f |}.

(** What a global identifier is bound to. *)
Inductive IDVal :=
| InterpretedVal (f : FuncId)     (* the FuncVal of a script function *)
| NativeVal (cf : NativeFunc).    (* make_intrusive<FuncVal>(cf->second) *)

(** What [Reducer::Reduce] leaves behind: the new body, the reducer and the
    scope as they are afterwards, and how many errors it reported. *)
Record Reduced := {
  red_body : Stmt;
  red_rc : Reducer;
  red_scope : Scope;
  red_errors : nat
}.

(** Calls to the collaborators and lines printed, in the order made. *)
Inductive Event :=
| EvPrintf (line : string)
| EvHook
| EvReduce (f : FuncId) (body : Stmt)
| EvIsReduced (f : FuncId) (new_body : Stmt)
| EvReplaceBody (f : FuncId) (old_body new_body : Stmt)
| EvTraverse (f : FuncId) (body : Stmt)
| EvDecorate (f : FuncId) (body : Stmt)
| EvInliner
| EvCompileTo (fs : list FuncId)
| EvSetVal (name : string) (cf : NativeFunc).

Definition is_reduction_event (e : Event) : bool :=
  match e with
  | EvReduce _ _ | EvIsReduced _ _ | EvReplaceBody _ _ _ | EvDecorate _ _ => true
  | _ => false
  end.

(** [CPP_init_hook], a pointer to a function of generated code that takes
    and returns nothing: it may set options and fill [compiled_funcs]. *)
Definition Hook : Type :=
  AnalyOpt → gmap string NativeFunc → AnalyOpt * gmap string NativeFunc.

Class Collaborators := {
  stmt_desc : Stmt → string;                  (* obj_desc(body.get()) *)
  obj_desc : Obj → string;                    (* obj_desc(non_reduced_perp) *)
  scope_Length : Scope → Z;                   (* scope->Length() *)
  new_Reducer : Scope → Reducer;
  Reduce : Reducer → Scope → Stmt → Reduced;  (* rc->Reduce(body) *)
  NumTemps : Reducer → Z;
  NumNewLocals : Reducer → Z;
  (* new_body->IsReduced(rc): the verdict and what it leaves in
     non_reduced_perp *)
  IsReduced : Stmt → Reducer → bool * option Obj;
  ReplaceBody : Bodies → Stmt → Stmt → Bodies;
  CurrentBody : Bodies → Stmt;
  (* f->Traverse(&pf); body->Traverse(&pf) into a ProfileFunc built with the
     two flags given *)
  Traverse : bool → bool → ScriptFunc → Stmt → ProfileFunc;
  (* Inliner(funcs, report_recursive): the records as it leaves them and the
     functions for which WasInlined holds *)
  run_Inliner : list FuncInfo → bool → list FuncInfo * gset FuncId;
  (* atoi(s) for a text whose integer does not fit an int: C leaves the
     result undefined, and the library in use returns this, as an int *)
  atoi_overflow : string → Z
}.
Context `{Collaborators}.

(** [atoi] of the C library, which returns an [int]: the integer that the
    text denotes when it fits, and what the library makes of it otherwise. *)
Definition atoi (s : string) : Z :=
  if bool_decide (int_min ≤ decimal_value s ≤ int_max)%Z
  then decimal_value s
  else wrap_int (atoi_overflow s).

(** ** The process state *)

Record World := {
  analysis_options : AnalyOpt;
  CPP_init_hook : option Hook;
  funcs : list FuncInfo;
  did_init : bool;                              (* static in analyze_scripts *)
  environ : gmap string string;                 (* getenv *)
  reporter_errors : nat;                        (* reporter->Errors() *)
  compiled_funcs : gmap string NativeFunc;
  global_ids : gmap string IDVal;               (* lookup_ID, global module *)
  scope_stack : list Scope;                     (* push/pop_scope *)
  non_reduced_perp : option Obj;
  checking_reduction : bool;
  trace : list Event
}.

Definition with_options (v : AnalyOpt) (w : World) : World :=
  {| analysis_options := v; CPP_init_hook := CPP_init_hook w; funcs := funcs w;
     did_init := did_init w; environ := environ w;
     reporter_errors := reporter_errors w; compiled_funcs := compiled_funcs w;
     global_ids := global_ids w; scope_stack := scope_stack w;
     non_reduced_perp := non_reduced_perp w;
     checking_reduction := checking_reduction w; trace := trace w |}.
Definition with_funcs (v : list FuncInfo) (w : World) : World :=
  {| analysis_options := analysis_options w; CPP_init_hook := CPP_init_hook w;
     funcs := v; did_init := did_init w; environ := environ w;
     reporter_errors := reporter_errors w; compiled_funcs := compiled_funcs w;
     global_ids := global_ids w; scope_stack := scope_stack w;
     non_reduced_perp := non_reduced_perp w;
     checking_reduction := checking_reduction w; trace := trace w |}.
Definition with_did_init (v : bool) (w : World) : World :=
  {| analysis_options := analysis_options w; CPP_init_hook := CPP_init_hook w;
     funcs := funcs w; did_init := v; environ := environ w;
     reporter_errors := reporter_errors w; compiled_funcs := compiled_funcs w;
     global_ids := global_ids w; scope_stack := scope_stack w;
     non_reduced_perp := non_reduced_perp w;
     checking_reduction := checking_reduction w; trace := trace w |}.
Definition with_errors (v : nat) (w : World) : World :=
  {| analysis_options := analysis_options w; CPP_init_hook := CPP_init_hook w;
     funcs := funcs w; did_init := did_init w; environ := environ w;
     reporter_errors := v; compiled_funcs := compiled_funcs w;
     global_ids := global_ids w; scope_stack := scope_stack w;
     non_reduced_perp := non_reduced_perp w;
     checking_reduction := checking_reduction w; trace := trace w |}.
Definition with_compiled_funcs (v : gmap string NativeFunc) (w : World) : World :=
  {| analysis_options := analysis_options w; CPP_init_hook := CPP_init_hook w;
     funcs := funcs w; did_init := did_init w; environ := environ w;
     reporter_errors := reporter_errors w; compiled_funcs := v;
     global_ids := global_ids w; scope_stack := scope_stack w;
     non_reduced_perp := non_reduced_perp w;
     checking_reduction := checking_reduction w; trace := trace w |}.
Definition with_global_ids (v : gmap string IDVal) (w : World) : World :=
  {| analysis_options := analysis_options w; CPP_init_hook := CPP_init_hook w;
     funcs := funcs w; did_init := did_init w; environ := environ w;
     reporter_errors := reporter_errors w; compiled_funcs := compiled_funcs w;
     global_ids := v; scope_stack := scope_stack w;
     non_reduced_perp := non_reduced_perp w;
     checking_reduction := checking_reduction w; trace := trace w |}.
Definition with_scope_stack (v : list Scope) (w : World) : World :=
  {| analysis_options := analysis_options w; CPP_init_hook := CPP_init_hook w;
     funcs := funcs w; did_init := did_init w; environ := environ w;
     reporter_errors := reporter_errors w; compiled_funcs := compiled_funcs w;
     global_ids := global_ids w; scope_stack := v;
     non_reduced_perp := non_reduced_perp w;
     checking_reduction := checking_reduction w; trace := trace w |}.
Definition with_perp (v : option Obj) (w : World) : World :=
  {| analysis_options := analysis_options w; CPP_init_hook := CPP_init_hook w;
     funcs := funcs w; did_init := did_init w; environ := environ w;
     reporter_errors := reporter_errors w; compiled_funcs := compiled_funcs w;
     global_ids := global_ids w; scope_stack := scope_stack w;
     non_reduced_perp := v;
     checking_reduction := checking_reduction w; trace := trace w |}.
Definition with_checking (v : bool) (w : World) : World :=
  {| analysis_options := analysis_options w; CPP_init_hook := CPP_init_hook w;
     funcs := funcs w; did_init := did_init w; environ := environ w;
     reporter_errors := reporter_errors w; compiled_funcs := compiled_funcs w;
     global_ids := global_ids w; scope_stack := scope_stack w;
     non_reduced_perp := non_reduced_perp w;
     checking_reduction := v; trace := trace w |}.
Definition with_trace (v : list Event) (w : World) : World :=
  {| analysis_options := analysis_options w; CPP_init_hook := CPP_init_hook w;
     funcs := funcs w; did_init := did_init w; environ := environ w;
     reporter_errors := reporter_errors w; compiled_funcs := compiled_funcs w;
     global_ids := global_ids w; scope_stack := scope_stack w;
     non_reduced_perp := non_reduced_perp w;
     checking_reduction := checking_reduction w; trace := v |}.

(** ** The statement monad *)

Definition M (A : Type) : Type := World → ctl A * World.

#[export] Instance M_ret : MRet M := λ A a w, (Normal a, w).
#[export] Instance M_bind : MBind M := λ A B k m w,
  match m w with
  | (Normal a, w') => k a w'
  | (Returned, w') => (Returned, w')
  | (Crashed, w') => (Crashed, w')
  | (Stuck, w') => (Stuck, w')
  end.

Definition return_ {A} : M A := λ w, (Returned, w).
Definition crash {A} : M A := λ w, (Crashed, w).
Definition stuck {A} : M A := λ w, (Stuck, w).
Definition get {A} (proj : World → A) : M A := λ w, (Normal (proj w), w).
Definition modify (upd : World → World) : M unit := λ w, (Normal tt, upd w).
Definition skip : M unit := mret tt.
Definition if_ (c : bool) (body : M unit) : M unit := if c then body else skip.

(** The boundary of a called function: its [return] ends the call, with
    [dflt] standing for the by-reference arguments as they then are. *)
Definition call {A} (dflt : A) (m : M A) : M A := λ w,
  match m w with
  | (Returned, w') => (Normal dflt, w')
  | r => r
  end.

Definition emit (e : Event) : M unit :=
  modify (λ w, with_trace (trace w ++ [e]) w).
Definition printf (line : string) : M unit := emit (EvPrintf line).
Definition Errors : M nat := get reporter_errors.
Definition push_existing_scope (scope : Scope) : M unit :=
  modify (λ w, with_scope_stack (scope :: scope_stack w) w).
Definition pop_scope : M unit :=
  modify (λ w, with_scope_stack (tail (scope_stack w)) w).

(** [for ( auto& f : funcs )]: the records in order, each written back. *)
Fixpoint for_funcs_from (i n : nat) (body : FuncInfo → M FuncInfo) : M unit :=
  match n with
  | 0 => skip
  | S n =>
      fs ← get funcs;
      match fs !! i with
      | None => skip
      | Some f =>
          f' ← body f;
          modify (λ w, with_funcs (<[i := f']> (funcs w)) w);;
          for_funcs_from (S i) n body
      end
  end.

Definition for_funcs (body : FuncInfo → M FuncInfo) : M unit :=
  fs ← get funcs;
  for_funcs_from 0 (length fs) body.

(** ** [optimize_func] (lines 29 to 98) *)

Definition only_func_differs (ao : AnalyOpt) (f : ScriptFunc) : bool :=
  match only_func ao with
  | Some name => bool_decide (name ≠ Name f)
  | None => false
  end.

Definition optimize_func_body (f : ScriptFunc) (pf : ProfileFunc)
    (scope_ptr : Scope) (body : Stmt) (ao : AnalyOpt) : M (ScriptFunc * Stmt) :=
  errs ← Errors;
  if_ (bool_decide (0 < errs)) return_;;
  if_ (negb (activate ao)) return_;;
  if_ (only_func_differs ao f) return_;;
  if_ (bool_decide (is_Some (only_func ao)))
    (printf ("Original: " +:+ stmt_desc body +:+ nl));;
  if_ (bool_decide (0 < NumWhenStmts pf) || bool_decide (0 < NumLambdas pf))
    (if_ (bool_decide (is_Some (only_func ao)))
       (printf ("Skipping analysis due to " +:+ dquote +:+ "when" +:+ dquote
                +:+ " statement or use of lambdas" +:+ nl));;
     return_);;
  let scope := scope_ptr in
  push_existing_scope scope;;
  let rc := new_Reducer scope in
  emit (EvReduce (sf_id f) body);;
  let r := Reduce rc scope body in
  modify (λ w, with_errors (reporter_errors w + red_errors r) w);;
  let rc := red_rc r in
  let scope := red_scope r in
  let new_body := red_body r in
  errs ← Errors;
  if_ (bool_decide (0 < errs)) (pop_scope;; return_);;
  modify (with_perp None);;
  modify (with_checking true);;
  emit (EvIsReduced (sf_id f) new_body);;
  modify (with_perp (IsReduced new_body rc).2);;
  if_ (negb (IsReduced new_body rc).1)
    (perp ← get non_reduced_perp;
     match perp with
     | Some p =>
         printf ("Reduction inconsistency for " +:+ Name f +:+ ": "
                 +:+ obj_desc p +:+ nl)
     | None => printf ("Reduction inconsistency for " +:+ Name f +:+ nl)
     end);;
  modify (with_checking false);;
  if_ (bool_decide (is_Some (only_func ao)) || dump_xform ao)
    (printf ("Transformed: " +:+ stmt_desc new_body +:+ nl));;
  emit (EvReplaceBody (sf_id f) body new_body);;
  let f := with_bodies f (ReplaceBody (sf_bodies f) body new_body) in
  let body := new_body in
  emit (EvTraverse (sf_id f) body);;
  let new_pf := Traverse false false f body in
  emit (EvDecorate (sf_id f) body);;
  let new_frame_size :=
    int_add (int_add (scope_Length scope) (NumTemps rc)) (NumNewLocals rc) in
  let f :=
    if bool_decide (FrameSize f < new_frame_size)%Z
    then SetFrameSize f new_frame_size else f in
  pop_scope;;
  mret (f, body).

(** The call [optimize_func(f, pf, scope_ptr, body, analysis_options)]: what
    it leaves in [*f] and in [body]. *)
Definition optimize_func (f : ScriptFunc) (pf : ProfileFunc)
    (scope_ptr : Scope) (body : Stmt) (ao : AnalyOpt) : M (ScriptFunc * Stmt) :=
  call (f, body) (optimize_func_body f pf scope_ptr body ao).

(** ** [analyze_func] (lines 108 to 115) *)

Definition analyze_func_body (f : ScriptFunc) : M unit :=
  ao ← get analysis_options;
  if_ (only_func_differs ao f) return_;;
  modify (λ w, with_funcs
    (funcs w ++ [{| Func := f; fi_scope := GetScope f;
                    Body := CurrentBody (sf_bodies f); Profile := None |}]) w).

Definition analyze_func (f : ScriptFunc) : M unit :=
  call tt (analyze_func_body f).

(** ** [analyze_scripts] (lines 123 to 271) *)

(** Lines 117 to 121. *)
Definition check_env_opt (opt : string) (set_flag : bool → AnalyOpt → AnalyOpt)
    (w : World) : World :=
  if bool_decide (is_Some (environ w !! opt))
  then with_options (set_flag true (analysis_options w)) w
  else w.

(** Lines 129 and 130. *)
Definition run_init_hook (w : World) : World :=
  match CPP_init_hook w with
  | Some h =>
      let r := h (analysis_options w) (compiled_funcs w) in
      with_compiled_funcs r.2
        (with_options r.1 (with_trace (trace w ++ [EvHook]) w))
  | None => w
  end.

(** Lines 136 to 139. *)
Definition read_usage_issues (w : World) : World :=
  match environ w !! "ZEEK_USAGE_ISSUES" with
  | Some usage =>
      with_options
        (set_usage_issues (if bool_decide (1 < atoi usage)%Z then 2 else 1)%Z
           (analysis_options w)) w
  | None => w
  end.

(** Lines 141 to 146. *)
Definition read_only_func (w : World) : World :=
  if bool_decide (is_Some (only_func (analysis_options w))) then w
  else
    match environ w !! "ZEEK_ONLY" with
    | Some zo => with_options (set_only_func (Some zo) (analysis_options w)) w
    | None => w
    end.

(** Lines 148 to 150. *)
Definition imply_activate (w : World) : World :=
  if bool_decide (is_Some (only_func (analysis_options w)))
     || bool_decide (0 < usage_issues (analysis_options w))%Z
  then with_options (set_activate true (analysis_options w)) w
  else w.

(** Lines 127 to 153. *)
Definition init_config : M unit :=
  did ← get did_init;
  if_ (negb did)
    (modify run_init_hook;;
     modify (check_env_opt "ZEEK_DUMP_XFORM" set_dump_xform);;
     modify (check_env_opt "ZEEK_INLINE" set_inliner);;
     modify (check_env_opt "ZEEK_XFORM" set_activate);;
     modify read_usage_issues;;
     modify read_only_func;;
     modify imply_activate;;
     modify (with_did_init true)).

(** Lines 162 to 168, one record. *)
Definition profile_one (f : FuncInfo) : M FuncInfo :=
  emit (EvTraverse (sf_id (Func f)) (Body f));;
  mret (SetProfile f (Traverse true true (Func f) (Body f))).

(** [(f.Func(), f.Profile())] for each record; [f.Profile()] is
    dereferenced. *)
Definition profiles_of (fs : list FuncInfo) : option (list Taint.profiled) :=
  mapM (λ f, pf ← Profile f; Some (sf_id (Func f), pf)) fs.

(** Lines 160 to 224. *)
Definition when_analysis (order : gset FuncId → list FuncId)
    : M (gset FuncId) :=
  for_funcs profile_one;;
  fs ← get funcs;
  match profiles_of fs with
  | None => crash
  | Some ps =>
      match Taint.compute_when_funcs order ps with
      | Done when_funcs => mret when_funcs
      | NullProfile => crash
      | OutOfFuel => stuck
      end
  end.

(** Lines 235 to 246, one record. *)
Definition substitute_one (f : FuncInfo) : M FuncInfo :=
  let name := Name (Func f) in
  cfs ← get compiled_funcs;
  match cfs !! name with
  | None => mret f                                    (* continue *)
  | Some cf =>
      ids ← get global_ids;
      if_ (bool_decide (is_Some (ids !! name)))
        (emit (EvSetVal name cf);;
         modify (λ w, with_global_ids (<[name := NativeVal cf]> (global_ids w)) w));;
      mret f
  end.

(** Lines 255 to 270, one record. *)
Definition reduce_one (inl : option (gset FuncId)) (when_funcs : gset FuncId)
    (f : FuncInfo) : M FuncInfo :=
  if match inl with
     | Some inlined => bool_decide (sf_id (Func f) ∈ inlined)
     | None => false
     end
  then mret f
  else if bool_decide (sf_id (Func f) ∈ when_funcs)
  then mret f
  else
    let new_body := Body f in
    match Profile f with
    | None => crash
    | Some pf =>
        ao ← get analysis_options;
        r ← optimize_func (Func f) pf (fi_scope f) new_body ao;
        mret (SetBody (SetFunc f r.1) r.2)
    end.

Definition analyze_scripts_body (order : gset FuncId → list FuncId) : M unit :=
  init_config;;
  ao ← get analysis_options;
  if_ (negb (activate ao) && negb (inliner ao)) return_;;
  when_funcs ← when_analysis order;
  ao ← get analysis_options;
  inl ← (if inliner ao then
           emit EvInliner;;
           fs ← get funcs;
           let r := run_Inliner fs (report_recursive ao) in
           modify (with_funcs r.1);;
           mret (Some r.2)
         else mret None);
  ao ← get analysis_options;
  if_ (negb (activate ao)) return_;;
  hook ← get CPP_init_hook;
  if_ (bool_decide (is_Some hook))
    (for_funcs substitute_one;;
     return_);;
  fs ← get funcs;
  emit (EvCompileTo (map (λ f, sf_id (Func f)) fs));;
  (return_ : M unit);;
  for_funcs (reduce_one inl when_funcs).

Definition analyze_scripts (order : gset FuncId → list FuncId) : M unit :=
  call tt (analyze_scripts_body order).

(** ** What the driver is compared with *)

(** The guards of lines 32 to 50 let the call through. *)
Definition guards_pass (f : ScriptFunc) (pf : ProfileFunc) (ao : AnalyOpt)
    (w : World) : Prop :=
  reporter_errors w = 0 ∧ activate ao = true ∧ only_func_differs ao f = false
  ∧ NumWhenStmts pf = 0 ∧ NumLambdas pf = 0.

(** What [rc->Reduce(body)] yields in [optimize_func]. *)
Definition reduction (scope_ptr : Scope) (body : Stmt) : Reduced :=
  Reduce (new_Reducer scope_ptr) scope_ptr body.

(** The line printed for a body that is not in normal form. *)
Definition inconsistency_line (f : ScriptFunc) (perp : option Obj) : string :=
  match perp with
  | Some p =>
      "Reduction inconsistency for " +:+ Name f +:+ ": " +:+ obj_desc p +:+ nl
  | None => "Reduction inconsistency for " +:+ Name f +:+ nl
  end.

Definition original_lines (ao : AnalyOpt) (body : Stmt) : list Event :=
  if bool_decide (is_Some (only_func ao))
  then [EvPrintf ("Original: " +:+ stmt_desc body +:+ nl)] else [].

Definition transformed_lines (ao : AnalyOpt) (new_body : Stmt) : list Event :=
  if bool_decide (is_Some (only_func ao)) || dump_xform ao
  then [EvPrintf ("Transformed: " +:+ stmt_desc new_body +:+ nl)] else [].

Definition check_lines (f : ScriptFunc) (r : Reduced) : list Event :=
  EvIsReduced (sf_id f) (red_body r)
  :: (if (IsReduced (red_body r) (red_rc r)).1 then []
      else [EvPrintf (inconsistency_line f (IsReduced (red_body r) (red_rc r)).2)]).

(** The frame size the reduced body asks for, as a number. *)
Definition wanted_frame_size (r : Reduced) : Z :=
  (scope_Length (red_scope r) + NumTemps (red_rc r) + NumNewLocals (red_rc r))%Z.

(** Neither sum of line 92 leaves the range of [int]. *)
Definition frame_sum_fits (r : Reduced) : Prop :=
  in_int (scope_Length (red_scope r) + NumTemps (red_rc r))
  ∧ in_int (wanted_frame_size r).

(** The world once lines 127 to 153 have run. *)
Definition config_resolved (w : World) : World := (init_config w).2.

(** The options as the hook, if any, leaves them. *)
Definition options_after_hook (w : World) : AnalyOpt :=
  match CPP_init_hook w with
  | Some h => (h (analysis_options w) (compiled_funcs w)).1
  | None => analysis_options w
  end.

(** The records as the profiling loop leaves them, and their
    [(Func(), Profile())] pairs. *)
Definition profile_all (fs : list FuncInfo) : list FuncInfo :=
  map (λ f, SetProfile f (Traverse true true (Func f) (Body f))) fs.

Definition profiled_funcs (fs : list FuncInfo) : list Taint.profiled :=
  map (λ f, (sf_id (Func f), Traverse true true (Func f) (Body f))) fs.

(** The records as the inliner, if enabled, leaves them. *)
Definition after_inliner (ao : AnalyOpt) (fs : list FuncInfo) : list FuncInfo :=
  if inliner ao then (run_Inliner fs (report_recursive ao)).1 else fs.

(** The events of reduction a trace holds. *)
Definition reduction_events (t : list Event) : list Event :=
  filter (λ e, is_reduction_event e = true) t.

(** Some record of [fs] is of a function called [name]. *)
Definition registered_name (fs : list FuncInfo) (name : string) : Prop :=
  Exists (λ f, Name (Func f) = name) fs.

(** The world as the profiling loop leaves it. *)
Definition profiled_world (w : World) : World :=
  with_funcs (profile_all (funcs w))
    (with_trace
       (trace w ++ map (λ f, EvTraverse (sf_id (Func f)) (Body f)) (funcs w)) w).

(** The world as the inliner, if enabled, leaves it. *)
Definition inlined_world (w : World) : World :=
  if inliner (analysis_options w)
  then with_funcs (after_inliner (analysis_options w) (funcs w))
         (with_trace (trace w ++ [EvInliner]) w)
  else w.

(** Lines 237 to 245 on the state, for one record. *)
Definition rebind (w : World) (f : FuncInfo) : World :=
  let name := Name (Func f) in
  match compiled_funcs w !! name with
  | Some cf =>
      if bool_decide (is_Some (global_ids w !! name))
      then with_global_ids (<[name := NativeVal cf]> (global_ids w))
             (with_trace (trace w ++ [EvSetVal name cf]) w)
      else w
  | None => w
  end.

(** The world when the mode is chosen (line 230). *)
Definition analysed_world (w : World) : World :=
  inlined_world (profiled_world (config_resolved w)).

(** What lines 127 to 153 and the analyses leave alone. *)
Definition untouched (w w' : World) : Prop :=
  CPP_init_hook w' = CPP_init_hook w
  ∧ global_ids w' = global_ids w
  ∧ environ w' = environ w
  ∧ reporter_errors w' = reporter_errors w
  ∧ reduction_events (trace w') = reduction_events (trace w).

(** A step that leaves the registry and all of the above alone. *)
Definition quiet (g : World → World) : Prop :=
  ∀ w, untouched w (g w) ∧ funcs (g w) = funcs w.

End model.

(** * Concrete registries

    Small inputs on which the definitions above are run. *)

Module Examples.
Import Taint.

Definition prof (script_calls when_calls : list FuncId) : ProfileFunc :=
  {| ScriptCalls := list_to_set script_calls;
     WhenCalls := list_to_set when_calls;
     NumWhenStmts := length when_calls; NumLambdas := 0 |}.

Definition A : FuncId := 1.
Definition B : FuncId := 2.
Definition C : FuncId := 3.
Definition D : FuncId := 4.

(** [A] calls [B]; [B] calls [C] inside a "when" and nowhere else; the
    call in the "when" is not counted among [B]'s script calls. *)
Definition abc : list profiled :=
  [(A, prof [B] []); (B, prof [] [C]); (C, prof [] [])].

(** The same, the call in the "when" counted among [B]'s script calls. *)
Definition abc_nested : list profiled :=
  [(A, prof [B] []); (B, prof [C] [C]); (C, prof [] [])].

(** [A] waits on [B], and [B], [C] and [D] call each other in a cycle. *)
Definition cyclic : list profiled :=
  [(A, prof [B] [B]); (B, prof [C] []); (C, prof [D; C] []);
   (D, prof [B] [])].

(** [B] registered twice, as a function with two bodies is: both records
    list the same script calls, and only one has a call in a "when". *)
Definition two_bodies : list profiled :=
  [(A, prof [B] []); (B, prof [C] []); (B, prof [C] [C]);
   (C, prof [D; C] []); (D, prof [B] [])].

(** [A] waits on [B], and the two records of [B], one for each body, list
    different script calls: [C] in the first, [D] in the second. *)
Definition two_callees : list profiled :=
  [(A, prof [] [B]); (B, prof [C] []); (B, prof [D] []); (C, prof [] []);
   (D, prof [] [])].

(** The reverse of [elements]: another iteration order. *)
Definition backwards (s : gset FuncId) : list FuncId := reverse (elements s).
End Examples.

(** A small instance of the collaborators: statement trees are numbers,
    the reducer adds one to a tree and asks for two temporaries and one new
    local, reporting an error on tree 99, and a tree is in normal form when
    its number is even. The tree 10 calls function 5, the tree 20 calls
    function 9 in a "when", and the tree 30 calls functions 1 and 4 in a
    "when"; the other trees call nothing. *)
Module Toy.
#[export] Instance toy_ast : AST :=
  {| Stmt := nat; Scope := Z; Obj := nat; Bodies := list nat;
     Reducer := Z * Z; NativeFunc := nat |}.

#[export] Instance toy : Collaborators :=
  {| stmt_desc := λ _, "stmt";
     obj_desc := λ _, "expr";
     scope_Length := λ scope, scope;
     new_Reducer := λ _, (0, 0)%Z;
     Reduce := λ _ scope body,
       {| red_body := S body; red_rc := (2, 1)%Z; red_scope := scope;
          red_errors := if decide (body = 99) then 1 else 0 |};
     NumTemps := fst;
     NumNewLocals := snd;
     IsReduced := λ b _, if Nat.even b then (true, None) else (false, Some b);
     ReplaceBody := λ bs old new,
       map (λ b, if decide (b = old) then new else b) bs;
     CurrentBody := λ bs, default 0 (last bs);
     Traverse := λ _ _ _ body,
       if decide (body = 10) then Examples.prof [5] []
       else if decide (body = 20) then Examples.prof [] [9]
       else if decide (body = 30) then Examples.prof [] [1; 4]
       else Examples.prof [] [];
     run_Inliner := λ fs _, (fs, ∅);
     atoi_overflow := λ s, clamp_long (decimal_value s) |}.

Definition script_func (id : FuncId) (name : string) (body : nat) : ScriptFunc :=
  {| sf_id := id; Name := name; FrameSize := 1; GetScope := 2%Z;
     sf_bodies := [body] |}.

Definition foo : ScriptFunc := script_func 1 "foo" 0.
Definition bar : ScriptFunc := script_func 2 "bar" 10.

Definition info (f : ScriptFunc) : FuncInfo :=
  {| Func := f; fi_scope := GetScope f; Body := CurrentBody (sf_bodies f);
     Profile := None |}.

Definition no_options : AnalyOpt :=
  {| only_func := None; activate := false; dump_xform := false;
     inliner := false; report_recursive := false; usage_issues := 0 |}.

Definition xform : AnalyOpt := set_activate true no_options.

(** [foo] and [bar] registered and bound, no option set, with the
    environment and the hook given. *)
Definition world (env : gmap string string) (hook : option Hook) : World :=
  {| analysis_options := no_options; CPP_init_hook := hook;
     funcs := [info foo; info bar]; did_init := false; environ := env;
     reporter_errors := 0; compiled_funcs := ∅;
     global_ids := {[ "foo" := InterpretedVal 1; "bar" := InterpretedVal 2 ]};
     scope_stack := []; non_reduced_perp := None;
     checking_reduction := false; trace := [] |}.

(** The hook of a program that was compiled with a native [foo]. *)
Definition foo_hook : Hook := λ ao cfs, (ao, <["foo" := 7]> cfs).

(** [baz] waits on function 9, which has no record. *)
Definition baz : ScriptFunc := script_func 3 "baz" 20.

(** The same world with [foo] and [baz] registered. *)
Definition waiting_world (env : gmap string string) (hook : option Hook)
    : World :=
  with_funcs [info foo; info baz] (world env hook).

(** [qux] waits on [foo] and on itself; the same world with [foo] and [qux]
    registered. *)
Definition qux : ScriptFunc := script_func 4 "qux" 30.
Definition busy_world (env : gmap string string) (hook : option Hook)
    : World :=
  with_funcs [info foo; info qux] (world env hook).
End Toy.

(** * Sequences of calls, and what they are compared with *)

Section calls.
Context `{Collaborators}.

(** The record that line 114 appends for [f]. *)
Definition new_record (f : ScriptFunc) : FuncInfo :=
  {| Func := f; fi_scope := GetScope f; Body := CurrentBody (sf_bodies f);
     Profile := None |}.

(** [analyze_func(f1); ...; analyze_func(fn)]. *)
Fixpoint analyze_each (fs : list ScriptFunc) : M unit :=
  match fs with
  | [] => skip
  | f :: fs => analyze_func f;; analyze_each fs
  end.

(** The line of lines 47 and 48, printed under an only-function filter. *)
Definition skipping_lines (ao : AnalyOpt) : list Event :=
  if bool_decide (is_Some (only_func ao))
  then [EvPrintf ("Skipping analysis due to " +:+ dquote +:+ "when" +:+ dquote
                  +:+ " statement or use of lambdas" +:+ nl)]
  else [].

(** [setenv] and an assignment to [CPP_init_hook] made between two calls. *)
Definition with_environ (v : gmap string string) (w : World) : World :=
  {| analysis_options := analysis_options w; CPP_init_hook := CPP_init_hook w;
     funcs := funcs w; did_init := did_init w; environ := v;
     reporter_errors := reporter_errors w; compiled_funcs := compiled_funcs w;
     global_ids := global_ids w; scope_stack := scope_stack w;
     non_reduced_perp := non_reduced_perp w;
     checking_reduction := checking_reduction w; trace := trace w |}.
Definition with_hook (v : option Hook) (w : World) : World :=
  {| analysis_options := analysis_options w; CPP_init_hook := v;
     funcs := funcs w; did_init := did_init w; environ := environ w;
     reporter_errors := reporter_errors w; compiled_funcs := compiled_funcs w;
     global_ids := global_ids w; scope_stack := scope_stack w;
     non_reduced_perp := non_reduced_perp w;
     checking_reduction := checking_reduction w; trace := trace w |}.

(** How many times a trace shows the hook called. *)
Definition is_hook_event (e : Event) : bool :=
  match e with
  | EvHook => true
  | _ => false
  end.
Definition hook_runs (t : list Event) : nat :=
  length (filter (λ e, is_hook_event e = true) t).

(** The globals [optimize_func] has no business with, and the scope
    stack. *)
Definition same_process_state (w w' : World) : Prop :=
  analysis_options w' = analysis_options w
  ∧ CPP_init_hook w' = CPP_init_hook w
  ∧ did_init w' = did_init w
  ∧ environ w' = environ w
  ∧ compiled_funcs w' = compiled_funcs w
  ∧ global_ids w' = global_ids w
  ∧ scope_stack w' = scope_stack w.

(** What the configuration and the hook's table are after a step. *)
Definition same_config (w w' : World) : Prop :=
  analysis_options w' = analysis_options w
  ∧ did_init w' = did_init w
  ∧ compiled_funcs w' = compiled_funcs w
  ∧ hook_runs (trace w') = hook_runs (trace w).

(** A function the loop of lines 205 to 224 takes from its work list. *)
Definition taken_from_work_list (fs : list FuncInfo) (f : FuncId) : Prop :=
  Taint.visited (Taint.func_profs (profiled_funcs fs))
    (Taint.is_root (profiled_funcs fs))
    (Taint.is_when_callee (profiled_funcs fs)) f.

(** One of them has no record. *)
Definition takes_unregistered (fs : list FuncInfo) : Prop :=
  ∃ f, taken_from_work_list fs f
       ∧ Taint.func_profs (profiled_funcs fs) !! f = None.

(** The analyses of lines 160 to 228 are asked for. *)
Definition analyses_on (ao : AnalyOpt) : bool := activate ao || inliner ao.
End calls.

(** Runs the statements of [optimize_func] on a state. *)
Ltac run_optimize_func :=
  unfold optimize_func, call, optimize_func_body;
  unfold mbind, M_bind, Errors, get; simpl.

(** A profile with other script calls, and a registry in which the records
    of [f] have the script calls that [calls] gives them. *)
Definition with_script_calls (calls : gset FuncId) (pf : ProfileFunc)
    : ProfileFunc :=
  {| ScriptCalls := calls; WhenCalls := WhenCalls pf;
     NumWhenStmts := NumWhenStmts pf; NumLambdas := NumLambdas pf |}.

Definition with_calls_of (f : FuncId) (calls : ProfileFunc → gset FuncId)
    (funcs : list Taint.profiled) : list Taint.profiled :=
  map (λ p, if decide (p.1 = f)
            then (p.1, with_script_calls (calls p.2) p.2) else p) funcs.

Module Registries.
Import Taint Examples.

(** [A] waits on [B], which was never registered. *)
Definition dangling : list profiled := [(A, prof [] [B])].

(** [A] has a "when" of its own and is reached only along a script call:
    [C] is called in [D]'s "when", [C] calls [A], and [A] calls [B]. *)
Definition pruned : list profiled :=
  [(A, prof [B] [D]); (B, prof [] []); (C, prof [A] []); (D, prof [] [C])].

(** No "when" anywhere, and a callee that has no record. *)
Definition plain : list profiled := [(A, prof [B; D] []); (B, prof [A] [])].
End Registries.

Module ToyCalls.
Import Toy.

(** The options with [activate] set and an only-function filter on [foo]. *)
Definition only_foo : AnalyOpt := set_only_func (Some "foo") xform.

(** The profile of a function with one "when" statement. *)
Definition waits : ProfileFunc := Examples.prof [] [Examples.B].

(** The world of [Toy.world], the caller having set the options [ao]. *)
Definition world_with (ao : AnalyOpt) (env : gmap string string)
    (hook : option Hook) : World :=
  with_options ao (world env hook).
End ToyCalls.

(** * Properties of the "when" analysis *)

Section taint_sets.
Import Taint.

Lemma insert_all_list (l : list FuncId) (td : gset FuncId) :
  fold_left (λ td bf, {[bf]} ∪ td) l td = list_to_set l ∪ td.
Proof.
  revert td. induction l as [|x l IH]; intros td; simpl.
  - set_solver.
  - rewrite IH. set_solver.
Qed.

Lemma scan_calls_spec (W N : gset FuncId) (l : list FuncId) :
  scan_calls W N l = N ∪ (list_to_set l ∖ W).
Proof.
  unfold scan_calls. revert N. induction l as [|x l IH]; intros N; simpl.
  - set_solver.
  - rewrite IH. case_bool_decide; set_solver.
Qed.

Lemma to_do_nonempty (T : gset FuncId) :
  bool_decide (0 < size T) = true ↔ T ≠ ∅.
Proof.
  rewrite bool_decide_eq_true. split.
  - intros Hs ->. rewrite size_empty in Hs. lia.
  - intros HT. destruct (decide (size T = 0)) as [Hz|]; [|lia].
    by apply size_empty_inv, leibniz_equiv in Hz.
Qed.

Lemma passes_left_bound fp (W T : gset FuncId) :
  passes_left fp W T ≤ enough_fuel fp.
Proof.
  unfold passes_left, enough_fuel. destruct (decide (T = ∅)); [lia|].
  assert (size (dom fp ∖ W) ≤ size (dom fp)).
  { apply subseteq_size. set_solver. }
  destruct (decide (T ⊆ W)); lia.
Qed.

End taint_sets.

Section taint_facts.
Import Taint.
Variable order : gset FuncId → list FuncId.
Hypothesis order_ok : valid_order order.

Lemma elem_of_order (s : gset FuncId) x : x ∈ order s ↔ x ∈ s.
Proof. by rewrite (order_ok s), elem_of_elements. Qed.

Lemma insert_all_spec (calls td : gset FuncId) :
  insert_all order calls td = calls ∪ td.
Proof.
  unfold insert_all. rewrite insert_all_list.
  apply set_eq. intros x. rewrite !elem_of_union, elem_of_list_to_set.
  by rewrite elem_of_order.
Qed.

(** One element of the work list, as sets. *)
Lemma process_Some fp (W N : gset FuncId) wf pf :
  fp !! wf = Some pf →
  process order fp (Some (W, N)) wf
  = Some ({[wf]} ∪ W, N ∪ (ScriptCalls pf ∖ ({[wf]} ∪ W))).
Proof.
  intros Hpf. unfold process. rewrite Hpf, scan_calls_spec.
  do 2 f_equal. apply set_eq. intros x.
  rewrite !elem_of_union, !elem_of_difference, elem_of_list_to_set.
  by rewrite elem_of_order.
Qed.

Lemma process_None fp (W N : gset FuncId) wf :
  fp !! wf = None → process order fp (Some (W, N)) wf = None.
Proof. intros Hpf. unfold process. by rewrite Hpf. Qed.

Lemma fold_process_None fp (l : list FuncId) :
  fold_left (process order fp) l None = None.
Proof. induction l; simpl; auto. Qed.

(** One pass over a list of work, from any state. *)
Lemma fold_process_spec fp (l : list FuncId) (W N : gset FuncId) :
  match fold_left (process order fp) l (Some (W, N)) with
  | Some (W', N') =>
      W' = list_to_set l ∪ W
      ∧ (∀ f, f ∈ l → is_Some (fp !! f))
      ∧ N ⊆ N'
      ∧ (∀ g, g ∈ N' → g ∈ N ∨ ((g ∉ W) ∧ (∃ f, f ∈ l ∧ calls fp f g)))
      ∧ (∀ f g, f ∈ l → calls fp f g → g ∉ W' → g ∈ N')
  | None => ∃ f, f ∈ l ∧ fp !! f = None
  end.
Proof.
  revert W N. induction l as [|a l IH]; intros W N.
  - simpl. split_and!; [set_solver | | set_solver | auto | ].
    + intros f Hf. by apply elem_of_nil in Hf.
    + intros f g Hf. by apply elem_of_nil in Hf.
  - cbn [fold_left]. destruct (fp !! a) as [pf|] eqn:Hpf.
    + rewrite (process_Some _ _ _ _ _ Hpf).
      specialize (IH ({[a]} ∪ W) (N ∪ (ScriptCalls pf ∖ ({[a]} ∪ W)))).
      destruct (fold_left _ l _) as [[W' N']|].
      * destruct IH as (HW & Hreg & Hsub & Hup & Hlow).
        split_and!.
        -- rewrite HW. set_solver.
        -- intros f [->|Hf]%elem_of_cons; [by rewrite Hpf | auto].
        -- set_solver.
        -- intros g Hg. destruct (Hup g Hg) as [HgN|[HgW (f & Hf & Hc)]].
           ++ apply elem_of_union in HgN as [HgN|HgN]; [by left|right].
              apply elem_of_difference in HgN as [Hg1 Hg2].
              split; [set_solver|]. exists a. split; [left|].
              by exists pf.
           ++ right. split; [set_solver|]. exists f. split; [by right|done].
        -- intros f g [->|Hf]%elem_of_cons Hc HgW'; [|by eapply Hlow].
           destruct Hc as (pf' & Hpf' & Hg). rewrite Hpf in Hpf'.
           injection Hpf' as <-. apply Hsub. rewrite HW in HgW'. set_solver.
      * destruct IH as (f & Hf & Hnone). exists f. split; [by right|done].
    + rewrite (process_None _ _ _ _ Hpf), fold_process_None.
      exists a. split; [left|done].
Qed.

Lemma pass_spec fp (W T : gset FuncId) :
  match pass order fp W T with
  | Some (W', N') =>
      W' = T ∪ W
      ∧ T ⊆ dom fp
      ∧ (∀ g, g ∈ N' → (g ∉ W) ∧ (∃ f, f ∈ T ∧ calls fp f g))
      ∧ (∀ f g, f ∈ T → calls fp f g → g ∉ W' → g ∈ N')
  | None => ∃ f, f ∈ T ∧ fp !! f = None
  end.
Proof.
  unfold pass. pose proof (fold_process_spec fp (order T) W ∅) as Hspec.
  destruct (fold_left _ _ _) as [[W' N']|].
  - destruct Hspec as (HW & Hreg & _ & Hup & Hlow). split_and!.
    + rewrite HW. apply set_eq. intros x.
      rewrite !elem_of_union, elem_of_list_to_set. by rewrite elem_of_order.
    + intros f Hf. apply elem_of_dom, Hreg. by apply elem_of_order.
    + intros g Hg. destruct (Hup g Hg) as [?|[? (f & Hf & Hc)]]; [set_solver|].
      split; [done|]. exists f. split; [by apply elem_of_order|done].
    + intros f g Hf. apply Hlow. by apply elem_of_order.
  - destruct Hspec as (f & Hf & Hnone). exists f.
    split; [by apply elem_of_order|done].
Qed.

(** Each pass that does not fault leaves fewer passes to make. *)
Lemma pass_decreases fp (W T W' T' : gset FuncId) :
  T ≠ ∅ → pass order fp W T = Some (W', T') →
  passes_left fp W' T' < passes_left fp W T.
Proof.
  intros HT Hpass. pose proof (pass_spec fp W T) as Hspec.
  rewrite Hpass in Hspec. destruct Hspec as (HW & Hdom & Hup & _).
  unfold passes_left. rewrite (decide_False _ _ HT).
  destruct (decide (T ⊆ W)) as [Hsub|Hsub].
  - assert (W' = W) as -> by set_solver.
    destruct (decide (T' = ∅)); [lia|].
    rewrite decide_False; [lia|]. intros Hsub'.
    assert (T' = ∅); [|done]. apply set_eq. intros g. split; [|set_solver].
    intros Hg. destruct (Hup g Hg) as [HgW _]. set_solver.
  - assert (∃ x, x ∈ T ∧ x ∉ W) as (x & HxT & HxW).
    { destruct (set_choose_or_empty (T ∖ W)) as [[x Hx]|Hemp].
      - exists x. set_solver.
      - exfalso. apply Hsub. set_solver. }
    assert (size (dom fp ∖ W') < size (dom fp ∖ W)).
    { apply subset_size. split; [set_solver|]. intros Hc.
      specialize (Hc x). set_solver. }
    destruct (decide (T' = ∅)); [lia|]. destruct (decide (T' ⊆ W')); lia.
Qed.

Lemma when_loop_terminates fuel fp (W T : gset FuncId) :
  passes_left fp W T ≤ fuel → when_loop order fuel fp W T ≠ OutOfFuel.
Proof.
  revert W T. induction fuel as [|fuel IH]; intros W T Hfuel.
  - simpl. case_bool_decide as HT; [|done].
    assert (T ≠ ∅) as HT' by (apply to_do_nonempty; by apply bool_decide_eq_true).
    unfold passes_left in Hfuel. rewrite (decide_False _ _ HT') in Hfuel. lia.
  - simpl. case_bool_decide as HT; [|done].
    assert (T ≠ ∅) as HT' by (apply to_do_nonempty; by apply bool_decide_eq_true).
    destruct (pass order fp W T) as [[W' T']|] eqn:Hpass; [|done].
    apply IH. pose proof (pass_decreases _ _ _ _ _ HT' Hpass). lia.
Qed.

(** More fuel than needed changes nothing. *)
Lemma when_loop_more_fuel fuel fuel' fp (W T : gset FuncId) :
  when_loop order fuel fp W T ≠ OutOfFuel → fuel ≤ fuel' →
  when_loop order fuel' fp W T = when_loop order fuel fp W T.
Proof.
  revert fuel' W T. induction fuel as [|fuel IH]; intros fuel' W T Hne Hle.
  - simpl in *. destruct fuel'; simpl; case_bool_decide; done.
  - destruct fuel' as [|fuel']; [lia|]. simpl in *.
    case_bool_decide; [|done].
    destruct (pass order fp W T) as [[W' T']|]; [|done].
    apply IH; [done|lia].
Qed.

(** The loop from [(W0, T0)]: what it has taken from the work list so far
    is [Q]. *)
Lemma when_loop_inv fp (W0 T0 : gset FuncId) fuel :
  ∀ W T Q : gset FuncId,
  W = W0 ∪ Q →
  T0 ⊆ Q ∪ T →
  (∀ f g, f ∈ Q → calls fp f g → g ∉ W0 → g ∈ Q ∪ T) →
  (∀ f, f ∈ Q ∪ T → visited fp (.∈ W0) (.∈ T0) f) →
  Q ⊆ dom fp →
  match when_loop order fuel fp W T with
  | Done X =>
      (∀ f, f ∈ X ↔ f ∈ W0 ∨ visited fp (.∈ W0) (.∈ T0) f)
      ∧ (∀ f, visited fp (.∈ W0) (.∈ T0) f → f ∈ dom fp)
  | NullProfile => ∃ f, visited fp (.∈ W0) (.∈ T0) f ∧ fp !! f = None
  | OutOfFuel => True
  end.
Proof.
  assert (Hdone : ∀ W Q : gset FuncId,
    W = W0 ∪ Q → T0 ⊆ Q ∪ ∅ →
    (∀ f g, f ∈ Q → calls fp f g → g ∉ W0 → g ∈ Q ∪ ∅) →
    (∀ f, f ∈ Q ∪ ∅ → visited fp (.∈ W0) (.∈ T0) f) →
    Q ⊆ dom fp →
    (∀ f, f ∈ W ↔ f ∈ W0 ∨ visited fp (.∈ W0) (.∈ T0) f)
    ∧ (∀ f, visited fp (.∈ W0) (.∈ T0) f → f ∈ dom fp)).
  { intros W Q -> Hseed Hclosed Hvis Hdom.
    assert (HQ : ∀ f, visited fp (.∈ W0) (.∈ T0) f → f ∈ Q).
    { induction 1 as [f Hf|f g _ IHf Hc Hg]; [set_solver|].
      specialize (Hclosed f g IHf Hc Hg). set_solver. }
    split.
    - intros f. rewrite elem_of_union. split.
      + intros [?|HfQ]; [by left|right]. apply Hvis. set_solver.
      + intros [?|Hv]; [by left|right; auto].
    - intros f Hv. apply Hdom, HQ, Hv. }
  induction fuel as [|fuel IH]; intros W T Q HW Hseed Hclosed Hvis Hdom.
  - simpl. case_bool_decide as HT; [done|].
    assert (T = ∅) as ->.
    { destruct (decide (T = ∅)) as [|Hne]; [done|].
      apply to_do_nonempty, bool_decide_eq_true in Hne. done. }
    by apply (Hdone W Q).
  - simpl. case_bool_decide as HT.
    + pose proof (pass_spec fp W T) as Hpass.
      destruct (pass order fp W T) as [[W' T']|].
      * destruct Hpass as (HW' & HTdom & Hup & Hlow).
        apply (IH W' T' (Q ∪ T)).
        -- rewrite HW', HW. set_solver.
        -- set_solver.
        -- intros f g Hf Hc Hg. destruct (decide (g ∈ W')) as [HgW'|HgW'].
           ++ rewrite HW', HW in HgW'. set_solver.
           ++ apply elem_of_union in Hf as [Hf|Hf].
              ** specialize (Hclosed f g Hf Hc Hg). set_solver.
              ** specialize (Hlow f g Hf Hc HgW'). set_solver.
        -- intros g [Hg|Hg]%elem_of_union; [by apply Hvis|].
           destruct (Hup g Hg) as (HgW & f & Hf & Hc).
           apply visited_call with f; [apply Hvis; set_solver|done|].
           rewrite HW in HgW. set_solver.
        -- set_solver.
      * destruct Hpass as (f & Hf & Hnone). exists f. split; [|done].
        apply Hvis. set_solver.
    + assert (T = ∅) as ->.
      { destruct (decide (T = ∅)) as [|Hne]; [done|].
        apply to_do_nonempty, bool_decide_eq_true in Hne. done. }
      by apply (Hdone W Q).
Qed.

(** The loop of lines 205 to 224 from [(W0, T0)], with the fuel that
    [compute_when_funcs] gives it. *)
Lemma when_loop_result fp (W0 T0 : gset FuncId) :
  (∃ X, when_loop order (enough_fuel fp) fp W0 T0 = Done X
     ∧ (∀ f, f ∈ X ↔ f ∈ W0 ∨ visited fp (.∈ W0) (.∈ T0) f)
     ∧ (∀ f, visited fp (.∈ W0) (.∈ T0) f → f ∈ dom fp))
  ∨ (when_loop order (enough_fuel fp) fp W0 T0 = NullProfile
     ∧ ∃ f, visited fp (.∈ W0) (.∈ T0) f ∧ fp !! f = None).
Proof.
  pose proof (when_loop_inv fp W0 T0 (enough_fuel fp) W0 T0 ∅) as Hinv.
  pose proof (when_loop_terminates (enough_fuel fp) fp W0 T0
                (passes_left_bound fp W0 T0)) as Hterm.
  destruct (when_loop order (enough_fuel fp) fp W0 T0) as [X| |].
  - left. exists X. split; [done|]. apply Hinv; [set_solver..| |set_solver].
    intros f Hf. apply visited_seed. set_solver.
  - right. split; [done|]. apply Hinv; [set_solver..| |set_solver].
    intros f Hf. apply visited_seed. set_solver.
  - done.
Qed.

Lemma seed_snoc (l : list profiled) x :
  seed order (l ++ [x]) = seed_step order (seed order l) x.
Proof. unfold seed. by rewrite fold_left_app. Qed.

Lemma when_calls_nonempty pf :
  bool_decide (0 < size (WhenCalls pf)) = true ↔ WhenCalls pf ≠ ∅.
Proof. apply to_do_nonempty. Qed.

(** Lines 179 to 198 as sets. *)
Lemma seed_spec (funcs : list profiled) f :
  (f ∈ (seed order funcs).1 ↔ is_root funcs f)
  ∧ (f ∈ (seed order funcs).2 ↔ is_when_callee funcs f).
Proof.
  induction funcs as [|[g pf] l IH] using rev_ind.
  - simpl. split; (split; [set_solver|]).
    + intros (pf & Hin & _). by apply elem_of_nil in Hin.
    + intros (g & pf & Hin & _). by apply elem_of_nil in Hin.
  - rewrite seed_snoc. destruct IH as [IH1 IH2].
    destruct (seed order l) as [W T]. unfold seed_step. simpl in *.
    destruct (bool_decide (0 < size (WhenCalls pf))) eqn:Hpf.
    + apply when_calls_nonempty in Hpf. simpl. rewrite insert_all_spec.
      split.
      * rewrite elem_of_union, elem_of_singleton, IH1. unfold is_root.
        setoid_rewrite elem_of_app. setoid_rewrite list_elem_of_singleton.
        split.
        -- intros [->|(pf' & ? & ?)]; [exists pf|exists pf']; auto.
        -- intros (pf' & [?|[= -> ->]] & ?); [right; exists pf'|left]; auto.
      * rewrite elem_of_union, IH2. unfold is_when_callee.
        setoid_rewrite elem_of_app. setoid_rewrite list_elem_of_singleton.
        split.
        -- intros [?|(g' & pf' & ? & ?)]; [exists g, pf|exists g', pf']; auto.
        -- intros (g' & pf' & [?|[= -> ->]] & ?); [right; exists g', pf'|left]; auto.
    + apply not_true_iff_false in Hpf. rewrite when_calls_nonempty in Hpf.
      assert (WhenCalls pf = ∅) as Hemp.
      { destruct (decide (WhenCalls pf = ∅)); [done|by destruct Hpf]. }
      simpl. split.
      * rewrite IH1. unfold is_root.
        setoid_rewrite elem_of_app. setoid_rewrite list_elem_of_singleton.
        split.
        -- intros (pf' & ? & ?); exists pf'; auto.
        -- intros (pf' & [?|[= -> ->]] & ?); [exists pf'; auto|done].
      * rewrite IH2. unfold is_when_callee.
        setoid_rewrite elem_of_app. setoid_rewrite list_elem_of_singleton.
        split.
        -- intros (g' & pf' & ? & ?); exists g', pf'; auto.
        -- intros (g' & pf' & [?|[= -> ->]] & Hin); [exists g', pf'; auto|].
           rewrite Hemp in Hin. set_solver.
Qed.
End taint_facts.

Section func_profs_facts.
Import Taint.

Lemma func_profs_snoc (l : list profiled) x :
  func_profs (l ++ [x]) = <[x.1 := x.2]> (func_profs l).
Proof. unfold func_profs. by rewrite fold_left_app. Qed.

Lemma func_profs_lookup (funcs : list profiled) f pf :
  func_profs funcs !! f = Some pf → (f, pf) ∈ funcs.
Proof.
  induction funcs as [|[g pg] l IH] using rev_ind; [done|].
  rewrite func_profs_snoc, elem_of_app, list_elem_of_singleton. simpl.
  destruct (decide (g = f)) as [->|Hne].
  - rewrite lookup_insert_eq. intros [= ->]. by right.
  - rewrite lookup_insert_ne by done. auto.
Qed.

Lemma func_profs_dom (funcs : list profiled) f :
  f ∈ dom (func_profs funcs) ↔ ∃ pf, (f, pf) ∈ funcs.
Proof.
  induction funcs as [|[g pg] l IH] using rev_ind.
  - unfold func_profs. simpl. rewrite dom_empty_L. split; [set_solver|].
    intros (pf & Hin). by apply elem_of_nil in Hin.
  - rewrite func_profs_snoc, dom_insert_L, elem_of_union, elem_of_singleton, IH.
    simpl. setoid_rewrite elem_of_app. setoid_rewrite list_elem_of_singleton.
    split.
    + intros [->|(pf & ?)]; [exists pg|exists pf]; auto.
    + intros (pf & [?|[= -> ->]]); [right; exists pf|left]; auto.
Qed.

Lemma same_script_calls_spec (funcs : list profiled) :
  same_script_calls funcs ↔
  ∀ f pf pf', (f, pf) ∈ funcs → (f, pf') ∈ funcs →
    ScriptCalls pf = ScriptCalls pf'.
Proof.
  unfold same_script_calls. rewrite Forall_forall.
  setoid_rewrite Forall_forall. split.
  - intros Hone f pf pf' Hin Hin'. by apply (Hone (f, pf) Hin (f, pf') Hin').
  - intros Hone [f pf] Hin [g pf'] Hin'. simpl. intros <-. by apply (Hone f).
Qed.

Lemma callees_registered_spec (funcs : list profiled) :
  callees_registered funcs ↔
  ∀ f pf g, (f, pf) ∈ funcs → g ∈ WhenCalls pf ∪ ScriptCalls pf →
    g ∈ dom (func_profs funcs).
Proof.
  unfold callees_registered. rewrite Forall_forall. split.
  - intros Hreg f pf g Hin Hg. by apply (Hreg (f, pf) Hin).
  - intros Hreg [f pf] Hin g Hg. by apply (Hreg f pf).
Qed.

End func_profs_facts.

Section when_funcs_facts.
Import Taint.

Lemma visited_ext fp fp' (I I' S S' : FuncId → Prop) f :
  (∀ f g, calls fp f g → calls fp' f g) →
  (∀ g, I g ↔ I' g) → (∀ g, S g ↔ S' g) →
  visited fp I S f → visited fp' I' S' f.
Proof.
  intros Hcalls HI HS. induction 1 as [f Hf|f g _ IHf Hc Hg].
  - apply visited_seed. by apply HS.
  - apply visited_call with f; [done|by apply Hcalls|]. by rewrite <-HI.
Qed.

Lemma visited_reaches fp (I S : FuncId → Prop) f :
  visited fp I S f → reaches fp S f.
Proof.
  induction 1 as [f Hf|f g _ IHf Hc _].
  - by apply reaches_seed.
  - by apply reaches_call with f.
Qed.

Lemma visited_inv fp (I S : FuncId → Prop) f :
  visited fp I S f → S f ∨ ¬ I f.
Proof. destruct 1; auto. Qed.

(** Lines 160 to 224 in terms of the records. *)
Lemma compute_when_funcs_result order (funcs : list profiled) :
  valid_order order →
  let fp := func_profs funcs in
  let vis := visited fp (is_root funcs) (is_when_callee funcs) in
  (∃ X, compute_when_funcs order funcs = Done X
     ∧ (∀ f, f ∈ X ↔ is_root funcs f ∨ vis f)
     ∧ (∀ f, vis f → f ∈ dom fp))
  ∨ (compute_when_funcs order funcs = NullProfile
     ∧ ∃ f, vis f ∧ fp !! f = None).
Proof.
  intros Hord fp vis. unfold compute_when_funcs. fold fp.
  pose proof (seed_spec order Hord funcs) as Hseed.
  destruct (seed order funcs) as [W0 T0]. simpl in Hseed.
  assert (Hto : ∀ f, visited fp (.∈ W0) (.∈ T0) f → vis f).
  { intros f. apply visited_ext; [done|intros g; apply Hseed..]. }
  assert (Hfrom : ∀ f, vis f → visited fp (.∈ W0) (.∈ T0) f).
  { intros f. apply visited_ext; [done|intros g; symmetry; apply Hseed..]. }
  destruct (when_loop_result order Hord fp W0 T0)
    as [(X & HX & Hchar & Hdom)|(Hnull & f & Hf & Hnone)].
  - left. exists X. split; [done|]. split.
    + intros f. rewrite Hchar, (proj1 (Hseed f)). split.
      * intros [?|?]; auto.
      * intros [?|?]; auto.
    + intros f Hf. by apply Hdom, Hfrom.
  - right. split; [done|]. exists f. split; [by apply Hto|done].
Qed.

Lemma root_dec order (funcs : list profiled) f :
  valid_order order → is_root funcs f ∨ ¬ is_root funcs f.
Proof.
  intros Hord. destruct (seed_spec order Hord funcs f) as [Hroot _].
  destruct (decide (f ∈ (seed order funcs).1)) as [Hin|Hout].
  - left. by apply Hroot.
  - right. by rewrite <-Hroot.
Qed.

(** The result is closed, and is the least closed set. *)
Lemma when_closed_least order (funcs : list profiled) X :
  valid_order order →
  (∀ f, f ∈ X ↔ is_root funcs f
     ∨ visited (func_profs funcs) (is_root funcs) (is_when_callee funcs) f) →
  when_closed funcs X ∧ ∀ Y, when_closed funcs Y → X ⊆ Y.
Proof.
  intros Hord Hchar. split.
  - split_and!.
    + intros f Hf. apply Hchar. by left.
    + intros g Hg. apply Hchar. right. by apply visited_seed.
    + intros f g Hf Hcond Hc. apply Hchar.
      destruct (root_dec order funcs g Hord) as [Hg|Hg]; [by left|right].
      apply visited_call with f; [|done..].
      apply Hchar in Hf as [Hf|Hf]; [|done].
      destruct Hcond as [Hcallee|Hnot]; [by apply visited_seed|done].
  - intros Y (Hroots & Hcallees & Hclosed) f [Hf|Hf]%Hchar; [by apply Hroots|].
    induction Hf as [f Hf|f g Hv IHf Hc Hg]; [by apply Hcallees|].
    apply (Hclosed f g IHf); [|done].
    destruct (visited_inv _ _ _ _ Hv); auto.
Qed.

Lemma callees_registered_visited (funcs : list profiled) f :
  callees_registered funcs →
  visited (func_profs funcs) (is_root funcs) (is_when_callee funcs) f →
  f ∈ dom (func_profs funcs).
Proof.
  intros Hreg'. pose proof (proj1 (callees_registered_spec funcs) Hreg') as Hreg.
  induction 1 as [g (f & pf & Hin & Hg)|f g _ _ (pf & Hpf & Hg) _].
  - apply (Hreg f pf g Hin). set_solver.
  - apply func_profs_lookup in Hpf. apply (Hreg f pf g Hpf). set_solver.
Qed.

Lemma compute_when_funcs_registered order (funcs : list profiled) :
  valid_order order → callees_registered funcs →
  ∃ X, compute_when_funcs order funcs = Done X.
Proof.
  intros Hord Hreg.
  destruct (compute_when_funcs_result order funcs Hord)
    as [(X & HX & _)|(_ & f & Hf & Hnone)]; [by exists X|].
  apply callees_registered_visited in Hf; [|done].
  apply elem_of_dom in Hf as [pf Hpf]. congruence.
Qed.

Lemma callees_registered_no_fault (funcs : list profiled) :
  callees_registered funcs → ¬ takes_without_record funcs.
Proof.
  intros Hreg (f & Hf & Hnone).
  apply callees_registered_visited in Hf; [|done].
  apply elem_of_dom in Hf as [pf Hpf]. congruence.
Qed.

Lemma no_when_no_fault (funcs : list profiled) :
  Forall (λ p, WhenCalls p.2 = ∅) funcs → ¬ takes_without_record funcs.
Proof.
  intros Hall (f & Hf & _). apply visited_reaches in Hf.
  induction Hf as [g (h & pf & Hin & Hg)|]; [|done].
  rewrite Forall_forall in Hall. specialize (Hall _ Hin). cbn in Hall.
  rewrite Hall in Hg. set_solver.
Qed.

(** How the analysis ends: with a set, unless it takes from the work list
    a function without a record. *)
Lemma compute_when_funcs_fault order (funcs : list profiled) :
  valid_order order →
  (compute_when_funcs order funcs = NullProfile ↔ takes_without_record funcs)
  ∧ (¬ takes_without_record funcs →
       ∃ X, compute_when_funcs order funcs = Done X).
Proof.
  intros Hord. unfold takes_without_record.
  destruct (compute_when_funcs_result order funcs Hord)
    as [(X & HX & Hchar & Hdom)|(Hnull & f & Hf & Hnone)].
  - split; [|by exists X]. split; [congruence|]. intros (f & Hf & Hnone).
    apply Hdom, elem_of_dom in Hf as [pf Hpf]. congruence.
  - split; [|intros Hno; destruct Hno; by exists f].
    split; [|done]. intros _. by exists f.
Qed.

(** The analysis does not depend on the registration order of records
    that agree on each function's profile. *)
Lemma is_root_perm (funcs1 funcs2 : list profiled) f :
  funcs1 ≡ₚ funcs2 → is_root funcs1 f ↔ is_root funcs2 f.
Proof. intros Hperm. unfold is_root. by setoid_rewrite Hperm. Qed.

Lemma is_when_callee_perm (funcs1 funcs2 : list profiled) g :
  funcs1 ≡ₚ funcs2 → is_when_callee funcs1 g ↔ is_when_callee funcs2 g.
Proof. intros Hperm. unfold is_when_callee. by setoid_rewrite Hperm. Qed.

Lemma same_script_calls_perm (funcs1 funcs2 : list profiled) :
  funcs1 ≡ₚ funcs2 → same_script_calls funcs1 → same_script_calls funcs2.
Proof.
  intros Hperm Hsame. apply same_script_calls_spec. intros f pf pf'.
  rewrite <-!Hperm. by apply same_script_calls_spec.
Qed.

Lemma func_profs_perm (funcs1 funcs2 : list profiled) :
  funcs1 ≡ₚ funcs2 → same_script_calls funcs1 →
  (∀ f g, calls (func_profs funcs1) f g → calls (func_profs funcs2) f g)
  ∧ (∀ f, f ∈ dom (func_profs funcs1) → f ∈ dom (func_profs funcs2)).
Proof.
  intros Hperm Hsame.
  pose proof (proj1 (same_script_calls_spec funcs1) Hsame) as Hcalls.
  assert (Hdom : ∀ f, f ∈ dom (func_profs funcs1) → f ∈ dom (func_profs funcs2)).
  { intros f [pf Hin]%func_profs_dom. apply func_profs_dom. exists pf.
    by rewrite <-Hperm. }
  split; [|done]. intros f g (pf & Hpf & Hg).
  assert (f ∈ dom (func_profs funcs2)) as [pf' Hpf']%elem_of_dom.
  { apply Hdom, elem_of_dom. by eexists. }
  exists pf'. split; [done|].
  apply func_profs_lookup in Hpf, Hpf'. rewrite <-Hperm in Hpf'.
  by rewrite <-(Hcalls f pf pf' Hpf Hpf').
Qed.
End when_funcs_facts.

(** * The claims about the "when" analysis *)

Section when_claims.
Import Taint.

(** C1, as amended. When every function named in a call set is registered,
    the analysis ends with a set that holds every function with a
    non-empty [WhenCalls()] and every function called in a "when"; that
    holds the script callees of each member that is called in a "when" or
    has no "when" calls of its own; and each member of which either has a
    non-empty [WhenCalls()] or is reached along script calls from a
    function called in a "when". A function that merely calls a member is
    not a member for that. *)
Theorem when_funcs_closure order (funcs : list profiled) :
  valid_order order → callees_registered funcs →
  ∃ X, compute_when_funcs order funcs = Done X
    ∧ (∀ f, is_root funcs f → f ∈ X)
    ∧ (∀ g, is_when_callee funcs g → g ∈ X)
    ∧ (∀ f g, f ∈ X → is_when_callee funcs f ∨ ¬ is_root funcs f →
         calls (func_profs funcs) f g → g ∈ X)
    ∧ (∀ f, f ∈ X →
         is_root funcs f
         ∨ reaches (func_profs funcs) (is_when_callee funcs) f).
Proof.
  intros Hord Hreg.
  destruct (compute_when_funcs_result order funcs Hord)
    as [(X & HX & Hchar & _)|(_ & f & Hf & Hnone)].
  - exists X. split; [done|].
    destruct (when_closed_least order funcs X Hord Hchar)
      as [(Hroots & Hcallees & Hclosed) _].
    split_and!; [done..|].
    intros f [Hf|Hf]%Hchar; [by left|right]. by eapply visited_reaches.
  - apply callees_registered_visited in Hf; [|done].
    apply elem_of_dom in Hf as [pf Hpf]. congruence.
Qed.

(** C8. Whatever the call graph, cycles included, and from any state, the
    loop over [when_funcs_to_do] ends within [enough_fuel] passes, and more
    passes allowed change nothing; it ends with a set when every function
    named in a call set is registered. A pass only adds to [when_funcs],
    puts into the new work list no function that was in [when_funcs] at its
    start, and leaves fewer passes to make. *)
Theorem when_loop_ends order fp (W T : gset FuncId) fuel :
  valid_order order → enough_fuel fp ≤ fuel →
  when_loop order fuel fp W T ≠ OutOfFuel
  ∧ when_loop order fuel fp W T = when_loop order (enough_fuel fp) fp W T
  ∧ (∀ funcs, compute_when_funcs order funcs ≠ OutOfFuel)
  ∧ (∀ funcs, callees_registered funcs →
       ∃ X, compute_when_funcs order funcs = Done X)
  ∧ (∀ W' T', T ≠ ∅ → pass order fp W T = Some (W', T') →
       W ⊆ W' ∧ (∀ g, g ∈ T' → g ∉ W)
       ∧ passes_left fp W' T' < passes_left fp W T).
Proof.
  intros Hord Hfuel.
  assert (Hterm : ∀ fp' (W0 T0 : gset FuncId),
    when_loop order (enough_fuel fp') fp' W0 T0 ≠ OutOfFuel).
  { intros fp' W0 T0. apply when_loop_terminates; [done|].
    apply passes_left_bound. }
  split_and!.
  - apply when_loop_terminates; [done|].
    pose proof (passes_left_bound fp W T). lia.
  - by apply when_loop_more_fuel.
  - intros funcs. unfold compute_when_funcs.
    destruct (seed order funcs) as [W0 T0]. apply Hterm.
  - intros funcs Hreg. by apply compute_when_funcs_registered.
  - intros W' T' HT Hpass. pose proof (pass_spec order Hord fp W T) as Hspec.
    rewrite Hpass in Hspec. destruct Hspec as (HW & _ & Hup & _).
    split_and!.
    + set_solver.
    + intros g Hg. by destruct (Hup g Hg).
    + by apply (pass_decreases order Hord).
Qed.

(** C9, as amended. Two runs of the analysis on the same records give the
    same outcome under any two iteration orders of the sets. The outcome is
    never the exhaustion of the bound on passes: the analysis faults exactly
    when it takes from its work list a function without a record, and
    otherwise both runs end with one and the same set, which is the least
    set closed under the rule the loop applies. The registration order has
    no effect either when the records of one function list the same script
    calls, as they do when each function has one record; [func_profs] keeps
    the last record of a function, so without that the order matters. *)
Theorem when_funcs_deterministic order1 order2 (funcs1 funcs2 : list profiled) :
  valid_order order1 → valid_order order2 →
  compute_when_funcs order1 funcs1 = compute_when_funcs order2 funcs1
  ∧ compute_when_funcs order1 funcs1 ≠ OutOfFuel
  ∧ (compute_when_funcs order1 funcs1 = NullProfile ↔
       takes_without_record funcs1)
  ∧ (¬ takes_without_record funcs1 →
       ∃ X, compute_when_funcs order1 funcs1 = Done X
         ∧ compute_when_funcs order2 funcs1 = Done X
         ∧ when_closed funcs1 X ∧ ∀ Y, when_closed funcs1 Y → X ⊆ Y)
  ∧ (funcs1 ≡ₚ funcs2 → same_script_calls funcs1 →
       compute_when_funcs order1 funcs1 = compute_when_funcs order2 funcs2
       ∧ (takes_without_record funcs1 ↔ takes_without_record funcs2))
  ∧ (∀ X, compute_when_funcs order1 funcs1 = Done X →
       when_closed funcs1 X ∧ ∀ Y, when_closed funcs1 Y → X ⊆ Y).
Proof.
  intros Hord1 Hord2.
  assert (Hperm_eq : ∀ funcs2', funcs1 ≡ₚ funcs2' → same_script_calls funcs1 →
    compute_when_funcs order1 funcs1 = compute_when_funcs order2 funcs2').
  { intros funcs2' Hperm Hsame.
    destruct (func_profs_perm funcs1 funcs2' Hperm Hsame) as [Hcalls12 Hdom12].
    destruct (func_profs_perm funcs2' funcs1 (symmetry Hperm)
                (same_script_calls_perm _ _ Hperm Hsame)) as [Hcalls21 Hdom21].
    assert (Hvis : ∀ f,
      visited (func_profs funcs1) (is_root funcs1) (is_when_callee funcs1) f ↔
      visited (func_profs funcs2') (is_root funcs2') (is_when_callee funcs2') f).
    { intros f. split; apply visited_ext; try done; intros g;
        (by apply is_root_perm) || (by apply is_when_callee_perm). }
    destruct (compute_when_funcs_result order1 funcs1 Hord1)
      as [(X1 & -> & Hchar1 & Hdom1)|(-> & f1 & Hf1 & Hnone1)];
    destruct (compute_when_funcs_result order2 funcs2' Hord2)
      as [(X2 & -> & Hchar2 & Hdom2)|(-> & f2 & Hf2 & Hnone2)].
    + f_equal. apply set_eq. intros f.
      by rewrite Hchar1, Hchar2, Hvis, (is_root_perm funcs1 funcs2' f Hperm).
    + apply Hvis, Hdom1, Hdom12, elem_of_dom in Hf2 as [pf Hpf]. congruence.
    + apply Hvis, Hdom2, Hdom21, elem_of_dom in Hf1 as [pf Hpf]. congruence.
    + done. }
  assert (Hsame_list :
    compute_when_funcs order1 funcs1 = compute_when_funcs order2 funcs1).
  { destruct (compute_when_funcs_result order1 funcs1 Hord1)
      as [(X1 & -> & Hchar1 & Hdom1)|(-> & f1 & Hf1 & Hnone1)];
    destruct (compute_when_funcs_result order2 funcs1 Hord2)
      as [(X2 & -> & Hchar2 & Hdom2)|(-> & f2 & Hf2 & Hnone2)].
    + f_equal. apply set_eq. intros f. by rewrite Hchar1, Hchar2.
    + apply Hdom1, elem_of_dom in Hf2 as [pf Hpf]. congruence.
    + apply Hdom2, elem_of_dom in Hf1 as [pf Hpf]. congruence.
    + done. }
  assert (Hleast : ∀ X, compute_when_funcs order1 funcs1 = Done X →
    when_closed funcs1 X ∧ ∀ Y, when_closed funcs1 Y → X ⊆ Y).
  { intros X HX.
    destruct (compute_when_funcs_result order1 funcs1 Hord1)
      as [(X1 & HX1 & Hchar1 & _)|(Hnull & _)]; [|congruence].
    rewrite HX in HX1. injection HX1 as <-.
    by apply (when_closed_least order1). }
  destruct (compute_when_funcs_fault order1 funcs1 Hord1) as [Hfault Hdone].
  split_and!.
  - exact Hsame_list.
  - destruct (compute_when_funcs_result order1 funcs1 Hord1)
      as [(X & -> & _)|(-> & _)]; done.
  - exact Hfault.
  - intros Hno. destruct (Hdone Hno) as [X HX]. exists X.
    split_and!; [done|by rewrite <-Hsame_list|apply (Hleast X HX)..].
  - intros Hperm Hsame. split; [by apply Hperm_eq|].
    rewrite <-Hfault, (Hperm_eq funcs2 Hperm Hsame).
    apply (compute_when_funcs_fault order2 funcs2 Hord2).
  - exact Hleast.
Qed.

Lemma valid_elements : valid_order elements.
Proof. intros s. reflexivity. Qed.

Lemma valid_backwards : valid_order Examples.backwards.
Proof. intros s. apply reverse_Permutation. Qed.

(** C1 (witness): the registry [abc]. *)
Lemma when_funcs_closure_abc :
  ∃ X, compute_when_funcs elements Examples.abc = Done X
    ∧ (∀ f, is_root Examples.abc f → f ∈ X)
    ∧ (∀ g, is_when_callee Examples.abc g → g ∈ X)
    ∧ (∀ f g, f ∈ X →
         is_when_callee Examples.abc f ∨ ¬ is_root Examples.abc f →
         calls (func_profs Examples.abc) f g → g ∈ X)
    ∧ (∀ f, f ∈ X →
         is_root Examples.abc f
         ∨ reaches (func_profs Examples.abc) (is_when_callee Examples.abc) f).
Proof.
  apply (when_funcs_closure elements Examples.abc).
  - exact valid_elements.
  - unfold callees_registered. apply (bool_decide_unpack _).
    vm_compute. exact I.
Defined.

(** C1 (counterexample). In [abc], [B] calls [C] in a "when" and [C] makes
    no call at all: the analysis puts [C] in the set, although [C] has no
    "when" calls and is not reached from [B], the only function that has,
    along script calls. The set is [{B, C}] also when the call in the
    "when" is counted among [B]'s script calls. *)
Lemma when_callee_is_tainted :
  compute_when_funcs elements Examples.abc = Done {[Examples.B; Examples.C]}
  ∧ compute_when_funcs elements Examples.abc_nested
    = Done {[Examples.B; Examples.C]}
  ∧ ¬ is_root Examples.abc Examples.C
  ∧ ¬ reaches (func_profs Examples.abc) (is_root Examples.abc) Examples.C
  ∧ ¬ (∀ f, f ∈ ({[Examples.B; Examples.C]} : gset FuncId) ↔
         reaches (func_profs Examples.abc) (is_root Examples.abc) f).
Proof.
  assert (Hroot : ∀ f, is_root Examples.abc f → f = Examples.B).
  { intros f (pf & Hin & Hne). unfold Examples.abc in Hin.
    repeat (apply elem_of_cons in Hin as [[= -> ->]|Hin]);
      [by destruct Hne|done|by destruct Hne|by apply elem_of_nil in Hin]. }
  assert (Hreach : ∀ f,
    reaches (func_profs Examples.abc) (is_root Examples.abc) f →
    f = Examples.B).
  { induction 1 as [f Hf|f g _ -> (pf & Hpf & Hg)]; [by apply Hroot|].
    assert (func_profs Examples.abc !! Examples.B
            = Some (Examples.prof [] [Examples.C])) as Hb by reflexivity.
    rewrite Hb in Hpf. injection Hpf as <-. simpl in Hg. set_solver. }
  split_and!.
  - vm_compute. reflexivity.
  - vm_compute. reflexivity.
  - intros HC%Hroot. discriminate.
  - intros HC%Hreach. discriminate.
  - intros Hall. assert (Examples.C = Examples.B); [|discriminate].
    apply Hreach, Hall. set_solver.
Qed.

(** C8 (witness): the cyclic registry, from the state the seeding loop
    leaves. *)
Lemma when_loop_ends_cyclic :
  let fp := func_profs Examples.cyclic in
  let W : gset FuncId := {[Examples.A]} in
  let T : gset FuncId := {[Examples.B]} in
  when_loop elements 10 fp W T ≠ OutOfFuel
  ∧ when_loop elements 10 fp W T = when_loop elements (enough_fuel fp) fp W T
  ∧ (∀ funcs, compute_when_funcs elements funcs ≠ OutOfFuel)
  ∧ (∀ funcs, callees_registered funcs →
       ∃ X, compute_when_funcs elements funcs = Done X)
  ∧ (∀ W' T', T ≠ ∅ → pass elements fp W T = Some (W', T') →
       W ⊆ W' ∧ (∀ g, g ∈ T' → g ∉ W)
       ∧ passes_left fp W' T' < passes_left fp W T).
Proof.
  intros fp W T. apply (when_loop_ends elements fp W T 10).
  - exact valid_elements.
  - vm_compute. lia.
Defined.

(** C9 (witness): a registry with a cycle and a function registered twice,
    in two registration orders, under two iteration orders; every callee
    has a record, so all runs end with the same set. *)
Lemma when_funcs_deterministic_two_bodies :
  ∃ X, compute_when_funcs elements Examples.two_bodies = Done X
    ∧ compute_when_funcs Examples.backwards Examples.two_bodies = Done X
    ∧ compute_when_funcs Examples.backwards (reverse Examples.two_bodies)
      = Done X
    ∧ when_closed Examples.two_bodies X
    ∧ ∀ Y, when_closed Examples.two_bodies Y → X ⊆ Y.
Proof.
  destruct (when_funcs_deterministic elements Examples.backwards
              Examples.two_bodies (reverse Examples.two_bodies)
              valid_elements valid_backwards)
    as (_ & _ & _ & Hdone & Hperm & _).
  destruct Hdone as (X & HX1 & HX2 & Hclosed & Hleast).
  { apply callees_registered_no_fault. unfold callees_registered.
    apply (bool_decide_unpack _). vm_compute. exact I. }
  exists X. split_and!; [done|done| |done|done].
  rewrite <-HX1. symmetry. apply Hperm.
  - symmetry. apply reverse_Permutation.
  - unfold same_script_calls. apply (bool_decide_unpack _).
    vm_compute. exact I.
Defined.

(** C9 (counterexample). In [two_callees] every callee has a record, and
    the two records of [B] list different script calls. Registered in one
    order the set is [{A, B, D}], in the reverse order it is [{A, B, C}]:
    the last record of [B] decides. *)
Lemma registration_order_matters :
  compute_when_funcs elements Examples.two_callees
  = Done {[Examples.A; Examples.B; Examples.D]}
  ∧ compute_when_funcs elements (reverse Examples.two_callees)
    = Done {[Examples.A; Examples.B; Examples.C]}
  ∧ Examples.two_callees ≡ₚ reverse Examples.two_callees
  ∧ callees_registered Examples.two_callees
  ∧ ¬ same_script_calls Examples.two_callees
  ∧ compute_when_funcs elements Examples.two_callees
    ≠ compute_when_funcs elements (reverse Examples.two_callees).
Proof.
  assert (H1 : compute_when_funcs elements Examples.two_callees
               = Done {[Examples.A; Examples.B; Examples.D]}).
  { vm_compute. reflexivity. }
  assert (H2 : compute_when_funcs elements (reverse Examples.two_callees)
               = Done {[Examples.A; Examples.B; Examples.C]}).
  { vm_compute. reflexivity. }
  split_and!.
  - exact H1.
  - exact H2.
  - symmetry. apply reverse_Permutation.
  - unfold callees_registered. apply (bool_decide_unpack _).
    vm_compute. exact I.
  - intros Hsame'.
    pose proof (proj1 (same_script_calls_spec _) Hsame') as Hsame.
    specialize (Hsame Examples.B (Examples.prof [Examples.C] [])
                  (Examples.prof [Examples.D] [])).
    assert (Examples.C ∈ ScriptCalls (Examples.prof [Examples.D] [])) as Hin.
    { rewrite <-Hsame.
      - cbn. set_solver.
      - unfold Examples.two_callees. set_solver.
      - unfold Examples.two_callees. set_solver. }
    cbn in Hin. set_solver.
  - rewrite H1, H2. intros [= Heq].
Qed.
End when_claims.

(** * Properties of [optimize_func] *)

Section optimize_func_facts.
Context `{Collaborators}.

Lemma wrap_int_fits z : in_int z → wrap_int z = z.
Proof.
  unfold in_int, int_min, int_max, wrap_int. intros Hz.
  rewrite Z.mod_small; lia.
Qed.

Lemma int_add_fits a b c :
  in_int (a + b) → in_int (a + b + c) →
  int_add (int_add a b) c = (a + b + c)%Z.
Proof.
  intros Hab Habc. unfold int_add. by rewrite (wrap_int_fits _ Hab), wrap_int_fits.
Qed.

(** The function object as lines 81 to 95 leave it. *)
Lemma optimize_func_reduces (f : ScriptFunc) pf scope_ptr (body : Stmt) ao
    (w : World) :
  guards_pass f pf ao w →
  red_errors (reduction scope_ptr body) = 0 →
  let r := reduction scope_ptr body in
  let new_frame_size :=
    int_add (int_add (scope_Length (red_scope r)) (NumTemps (red_rc r)))
            (NumNewLocals (red_rc r)) in
  let replaced := with_bodies f (ReplaceBody (sf_bodies f) body (red_body r)) in
  let f' :=
    if bool_decide (FrameSize f < new_frame_size)%Z
    then SetFrameSize replaced new_frame_size else replaced in
  ∃ w', optimize_func f pf scope_ptr body ao w = (Normal (f', red_body r), w')
    ∧ trace w' =
        trace w ++ original_lines ao body ++ [EvReduce (sf_id f) body]
        ++ check_lines f r ++ transformed_lines ao (red_body r)
        ++ [EvReplaceBody (sf_id f) body (red_body r);
            EvTraverse (sf_id f) (red_body r);
            EvDecorate (sf_id f) (red_body r)]
    ∧ scope_stack w' = scope_stack w
    ∧ reporter_errors w' = reporter_errors w
    ∧ funcs w' = funcs w.
Proof.
  intros (Herr & Hact & Honly & Hwhen & Hlam) Hred r nfs replaced f'.
  subst f' replaced nfs r. unfold reduction in *.
  unfold optimize_func, call, optimize_func_body.
  unfold original_lines, transformed_lines, check_lines.
  unfold mbind, M_bind, Errors, get. simpl.
  rewrite Herr, Hact, Honly, Hwhen, Hlam. simpl. rewrite Hred. simpl.
  destruct (bool_decide (is_Some (only_func ao))), (dump_xform ao),
    (IsReduced _ _) as [[] [p|]]; simpl; rewrite ?Herr; simpl;
    (eexists; split; [reflexivity|]; simpl; rewrite ?Herr, <-?app_assoc; done).
Qed.

(** Every call returns; when a guard holds it back, or the reducer reports
    an error, the function object and the body are as they were. *)
Lemma optimize_func_returns (f : ScriptFunc) pf scope_ptr (body : Stmt) ao
    (w : World) :
  ∃ f' body' w',
    optimize_func f pf scope_ptr body ao w = (Normal (f', body'), w')
    ∧ ((f' = f ∧ body' = body)
       ∨ (guards_pass f pf ao w ∧ red_errors (reduction scope_ptr body) = 0)).
Proof.
  destruct (reporter_errors w) as [|n] eqn:Herr.
  2:{ exists f, body, w. split; [|by left].
      unfold optimize_func, call, optimize_func_body.
      unfold mbind, M_bind, Errors, get. simpl. by rewrite Herr. }
  destruct (activate ao) eqn:Hact; cycle 1.
  { exists f, body, w. split; [|by left].
    unfold optimize_func, call, optimize_func_body.
    unfold mbind, M_bind, Errors, get. simpl. by rewrite Herr, Hact. }
  destruct (only_func_differs ao f) eqn:Honly.
  { exists f, body, w. split; [|by left].
    unfold optimize_func, call, optimize_func_body.
    unfold mbind, M_bind, Errors, get. simpl. by rewrite Herr, Hact, Honly. }
  destruct (decide (NumWhenStmts pf = 0 ∧ NumLambdas pf = 0)) as [[Hwhen Hlam]|Hsusp].
  - destruct (red_errors (reduction scope_ptr body)) as [|m] eqn:Hred.
    + destruct (optimize_func_reduces f pf scope_ptr body ao w)
        as (w' & Hrun & _); [done..|].
      eexists _, _, w'. split; [exact Hrun|]. by right.
    + unfold reduction in Hred.
      destruct (bool_decide (is_Some (only_func ao))) eqn:Hof;
        (eexists f, body, _; split; [|by left];
         unfold optimize_func, call, optimize_func_body;
         unfold mbind, M_bind, Errors, get; simpl;
         rewrite Herr, Hact, Honly, Hwhen, Hlam, Hof; simpl;
         rewrite Hred; simpl; rewrite ?Herr; simpl; reflexivity).
  - assert (bool_decide (0 < NumWhenStmts pf) || bool_decide (0 < NumLambdas pf)
            = true) as Hskip.
    { apply orb_true_iff. rewrite !bool_decide_eq_true. lia. }
    destruct (bool_decide (is_Some (only_func ao))) eqn:Hof;
      (eexists f, body, _; split; [|by left];
       unfold optimize_func, call, optimize_func_body;
       unfold mbind, M_bind, Errors, get; simpl;
       rewrite Herr, Hact, Honly, Hof; simpl;
       rewrite Hskip; simpl; reflexivity).
Qed.

(** C3. A reduced body that is not in normal form is reported, with the
    function's name and with the offending subtree when [IsReduced] left
    one, and the call goes on: the reduced body replaces the original in
    the function object and in [body], and is then profiled and
    decorated. *)
Theorem optimize_func_reports_and_continues (f : ScriptFunc) pf scope_ptr
    (body : Stmt) ao (w : World) :
  let r := reduction scope_ptr body in
  guards_pass f pf ao w →
  red_errors r = 0 →
  (IsReduced (red_body r) (red_rc r)).1 = false →
  ∃ f' w',
    optimize_func f pf scope_ptr body ao w = (Normal (f', red_body r), w')
    ∧ sf_bodies f' = ReplaceBody (sf_bodies f) body (red_body r)
    ∧ trace w' =
        trace w ++ original_lines ao body
        ++ [EvReduce (sf_id f) body;
            EvIsReduced (sf_id f) (red_body r);
            EvPrintf (inconsistency_line f (IsReduced (red_body r) (red_rc r)).2)]
        ++ transformed_lines ao (red_body r)
        ++ [EvReplaceBody (sf_id f) body (red_body r);
            EvTraverse (sf_id f) (red_body r);
            EvDecorate (sf_id f) (red_body r)].
Proof.
  intros r Hguards Hred Hbad.
  destruct (optimize_func_reduces f pf scope_ptr body ao w Hguards Hred)
    as (w' & Hrun & Htrace & _).
  eexists _, w'. split; [exact Hrun|]. split.
  - by case_bool_decide.
  - rewrite Htrace. unfold check_lines. fold r. by rewrite Hbad.
Qed.

(** C4. The call never lowers the frame size. When it reduces the body
    (the guards let it through and the reducer reports no error), and the
    sums of line 92 fit an [int], the frame size becomes
    [scope length + temporaries + new locals] when that exceeds the size
    before, and stays as it was otherwise; when the call does not reduce
    the body, the function object is unchanged. *)
Theorem optimize_func_frame_size (f : ScriptFunc) pf scope_ptr
    (body : Stmt) ao (w : World) :
  let r := reduction scope_ptr body in
  ∃ f' body' w',
    optimize_func f pf scope_ptr body ao w = (Normal (f', body'), w')
    ∧ (FrameSize f ≤ FrameSize f')%Z
    ∧ (guards_pass f pf ao w → red_errors r = 0 → frame_sum_fits r →
         FrameSize f' =
           if decide (FrameSize f < wanted_frame_size r)%Z
           then wanted_frame_size r else FrameSize f)
    ∧ (¬ (guards_pass f pf ao w ∧ red_errors r = 0) → f' = f).
Proof.
  intros r. subst r.
  destruct (optimize_func_returns f pf scope_ptr body ao w)
    as (f' & body' & w' & Hrun & [[-> ->]|[Hguards Hred]]).
  - exists f, body, w'. split; [done|]. split; [lia|]. split; [|done].
    intros Hguards Hred Hfits.
    destruct (optimize_func_reduces f pf scope_ptr body ao w Hguards Hred)
      as (w'' & Hrun' & _).
    rewrite Hrun in Hrun'. injection Hrun' as Hf _ _.
    apply (f_equal FrameSize) in Hf.
    destruct Hfits as [Hfit1 Hfit2]. unfold wanted_frame_size in *.
    rewrite (int_add_fits _ _ _ Hfit1 Hfit2) in Hf.
    case_bool_decide; case_decide; simpl in Hf; done || lia.
  - destruct (optimize_func_reduces f pf scope_ptr body ao w Hguards Hred)
      as (w'' & Hrun' & _).
    rewrite Hrun in Hrun'. injection Hrun' as -> -> ->.
    eexists _, _, _. split; [exact Hrun|]. split_and!.
    + clear Hrun. case_bool_decide; simpl; lia.
    + intros _ _ [Hfit1 Hfit2]. clear Hrun. unfold wanted_frame_size in *.
      rewrite (int_add_fits _ _ _ Hfit1 Hfit2).
      case_bool_decide; case_decide; simpl; done || lia.
    + intros Hnot. destruct Hnot. done.
Qed.
(** C5. With the error counter non-zero on entry, the call stops before
    the reduction starts and changes nothing: the function object (its
    bodies and its frame size), the body, and the whole state, the records
    and their profiles included, are as before, and nothing is printed or
    called. *)
Theorem optimize_func_upstream_errors (f : ScriptFunc) pf scope_ptr
    (body : Stmt) ao (w : World) :
  reporter_errors w ≠ 0 →
  optimize_func f pf scope_ptr body ao w = (Normal (f, body), w).
Proof.
  intros Herr. unfold optimize_func, call, optimize_func_body.
  unfold mbind, M_bind, Errors, get. simpl.
  rewrite bool_decide_eq_true_2 by lia. done.
Qed.
(** C10. When the reducer reports an error during [Reduce], the call pops
    the scope and returns: the function object (its bodies and its frame
    size) and [body] are as on entry, the body is neither replaced nor
    profiled nor decorated (the only call made is the one to [Reduce]), and
    the records are untouched. *)
Theorem optimize_func_reducer_errors (f : ScriptFunc) pf scope_ptr
    (body : Stmt) ao (w : World) :
  guards_pass f pf ao w →
  red_errors (reduction scope_ptr body) ≠ 0 →
  ∃ w', optimize_func f pf scope_ptr body ao w = (Normal (f, body), w')
    ∧ trace w' = trace w ++ original_lines ao body ++ [EvReduce (sf_id f) body]
    ∧ reporter_errors w' = red_errors (reduction scope_ptr body)
    ∧ scope_stack w' = scope_stack w
    ∧ funcs w' = funcs w.
Proof.
  intros (Herr & Hact & Honly & Hwhen & Hlam) Hred. unfold reduction in *.
  unfold original_lines.
  destruct (red_errors (Reduce (new_Reducer scope_ptr) scope_ptr body))
    as [|m] eqn:Hm; [done|].
  destruct (bool_decide (is_Some (only_func ao))) eqn:Hof;
    (eexists; split;
     [unfold optimize_func, call, optimize_func_body;
      unfold mbind, M_bind, Errors, get; simpl;
      rewrite Herr, Hact, Honly, Hwhen, Hlam, Hof; simpl;
      rewrite Hm; simpl; rewrite ?Herr; simpl; reflexivity|]);
    simpl; rewrite ?Herr, <-?app_assoc; done.
Qed.
End optimize_func_facts.

Section optimize_func_examples.
Import Toy.

Lemma foo_guards_pass : guards_pass foo (Examples.prof [] []) xform (world ∅ None).
Proof. repeat split. Qed.

Lemma foo_sum_fits : frame_sum_fits (reduction 2%Z 0).
Proof. unfold frame_sum_fits, in_int. repeat split; by vm_compute. Qed.

(** C5 (witness): [foo], with three errors reported before the call. *)
Lemma optimize_func_upstream_errors_foo :
  optimize_func foo (Examples.prof [] []) 2%Z 0 xform
    (with_errors 3 (world ∅ None))
  = (Normal (foo, 0), with_errors 3 (world ∅ None)).
Proof.
  apply (optimize_func_upstream_errors foo (Examples.prof [] []) 2%Z 0 xform
           (with_errors 3 (world ∅ None))).
  simpl. lia.
Defined.

(** C3 (witness): [foo], whose reduced body [1] is not in normal form. *)
Lemma optimize_func_reports_and_continues_foo :
  ∃ f' w',
    optimize_func foo (Examples.prof [] []) 2%Z 0 xform (world ∅ None)
    = (Normal (f', 1), w')
    ∧ sf_bodies f' = [1]
    ∧ trace w' =
        [EvReduce 1 0; EvIsReduced 1 1;
         EvPrintf ("Reduction inconsistency for foo: expr" +:+ nl);
         EvReplaceBody 1 0 1; EvTraverse 1 1; EvDecorate 1 1].
Proof.
  exact (optimize_func_reports_and_continues foo (Examples.prof [] []) 2%Z 0
           xform (world ∅ None) foo_guards_pass eq_refl eq_refl).
Defined.

(** C4 (witness): [foo], of frame size 1, whose reduced body asks for
    2 + 2 + 1 slots. *)
Lemma optimize_func_frame_size_foo :
  ∃ f' body' w',
    optimize_func foo (Examples.prof [] []) 2%Z 0 xform (world ∅ None)
    = (Normal (f', body'), w')
    ∧ (1 ≤ FrameSize f')%Z
    ∧ FrameSize f' = 5%Z.
Proof.
  destruct (optimize_func_frame_size foo (Examples.prof [] []) 2%Z 0 xform
              (world ∅ None)) as (f' & body' & w' & Hrun & Hle & Heq & _).
  exists f', body', w'. split; [exact Hrun|]. split; [exact Hle|].
  exact (Heq foo_guards_pass eq_refl foo_sum_fits).
Defined.
Lemma reducer_fails_on_99 : red_errors (reduction 2%Z 99) ≠ 0.
Proof. discriminate. Qed.

(** C10 (witness): [foo] with the body 99, on which the reducer reports an
    error. *)
Lemma optimize_func_reducer_errors_foo :
  ∃ w', optimize_func foo (Examples.prof [] []) 2%Z 99 xform (world ∅ None)
        = (Normal (foo, 99), w')
    ∧ trace w' = [EvReduce 1 99]
    ∧ reporter_errors w' = 1
    ∧ scope_stack w' = []
    ∧ funcs w' = [info foo; info bar].
Proof.
  exact (optimize_func_reducer_errors foo (Examples.prof [] []) 2%Z 99 xform
           (world ∅ None) foo_guards_pass reducer_fails_on_99).
Defined.
End optimize_func_examples.

(** * Properties of [analyze_scripts] *)

Section driver_facts.
Context `{Collaborators}.

Lemma with_funcs_same (w : World) : with_funcs (funcs w) w = w.
Proof. by destruct w. Qed.

(** A loop over [funcs] whose body neither returns nor faults, and keeps
    its hands off [funcs]. *)
Lemma for_funcs_from_simple (body : FuncInfo → M FuncInfo)
    (F : FuncInfo → FuncInfo) (U : FuncInfo → World → World) :
  (∀ f w, body f w = (Normal (F f), U f w)) →
  (∀ f w, funcs (U f w) = funcs w) →
  (∀ f fs w, U f (with_funcs fs w) = with_funcs fs (U f w)) →
  ∀ todo done w, funcs w = done ++ todo →
    for_funcs_from (length done) (length todo) body w
    = (Normal tt,
       with_funcs (done ++ map F todo) (fold_left (λ w f, U f w) todo w)).
Proof.
  intros Hbody Hfuncs Hcomm.
  assert (Hfold : ∀ l fs w,
    fold_left (λ w f, U f w) l (with_funcs fs w)
    = with_funcs fs (fold_left (λ w f, U f w) l w)).
  { induction l as [|f l IH]; intros fs w; simpl; [done|].
    by rewrite Hcomm, IH. }
  induction todo as [|f rest IH]; intros done w Hw.
  - simpl. rewrite app_nil_r in *. by rewrite <-Hw, with_funcs_same.
  - cbn [length for_funcs_from]. unfold mbind, M_bind, get. cbn beta iota.
    rewrite Hw, list_lookup_middle by done. rewrite Hbody.
    unfold modify. rewrite Hfuncs, Hw.
    replace (<[length done := F f]> (done ++ f :: rest))
      with ((done ++ [F f]) ++ rest).
    2:{ rewrite <-(Nat.add_0_r (length done)), insert_app_r.
        by rewrite <-app_assoc. }
    specialize (IH (done ++ [F f])
                   (with_funcs ((done ++ [F f]) ++ rest) (U f w))).
    rewrite length_app in IH. simpl in IH. rewrite Nat.add_1_r in IH.
    rewrite IH by done. rewrite Hfold. simpl.
    by rewrite <-app_assoc.
Qed.

Lemma for_funcs_simple (body : FuncInfo → M FuncInfo)
    (F : FuncInfo → FuncInfo) (U : FuncInfo → World → World) (w : World) :
  (∀ f w, body f w = (Normal (F f), U f w)) →
  (∀ f w, funcs (U f w) = funcs w) →
  (∀ f fs w, U f (with_funcs fs w) = with_funcs fs (U f w)) →
  for_funcs body w
  = (Normal tt,
     with_funcs (map F (funcs w)) (fold_left (λ w f, U f w) (funcs w) w)).
Proof.
  intros Hbody Hfuncs Hcomm. unfold for_funcs, mbind, M_bind, get.
  by apply (for_funcs_from_simple body F U Hbody Hfuncs Hcomm (funcs w) []).
Qed.

Lemma wrap_int_in_int z : in_int (wrap_int z).
Proof.
  unfold in_int, int_min, int_max, wrap_int.
  pose proof (Z.mod_pos_bound (z + 2 ^ 31) (2 ^ 32)). lia.
Qed.

(** [atoi] returns an [int], and the integer the text denotes when that is
    one. *)
Lemma atoi_in_int (s : string) : in_int (atoi s).
Proof.
  unfold atoi. case_bool_decide; [done|]. apply wrap_int_in_int.
Qed.

Lemma atoi_fits (s : string) :
  in_int (decimal_value s) → atoi s = decimal_value s.
Proof. intros Hfits. unfold atoi. by rewrite bool_decide_eq_true_2. Qed.

Lemma config_resolved_eq (w : World) :
  init_config w = (Normal tt, config_resolved w)
  ∧ config_resolved w =
      if did_init w then w
      else with_did_init true (imply_activate (read_only_func
             (read_usage_issues
                (check_env_opt "ZEEK_XFORM" set_activate
                   (check_env_opt "ZEEK_INLINE" set_inliner
                      (check_env_opt "ZEEK_DUMP_XFORM" set_dump_xform
                         (run_init_hook w))))))).
Proof.
  unfold config_resolved, init_config, mbind, M_bind, get, if_, modify.
  by destruct (did_init w).
Qed.

Lemma reduction_events_app (t1 t2 : list Event) :
  reduction_events (t1 ++ t2) = reduction_events t1 ++ reduction_events t2.
Proof. apply filter_app. Qed.

Lemma reduction_events_quiet (t1 t2 : list Event) :
  Forall (λ e, is_reduction_event e = false) t2 →
  reduction_events (t1 ++ t2) = reduction_events t1.
Proof.
  intros Hq. rewrite reduction_events_app.
  replace (reduction_events t2) with (@nil Event); [by rewrite app_nil_r|].
  symmetry. unfold reduction_events.
  induction Hq as [|e t He _ IH]; [done|].
  rewrite filter_cons_False; [done|]. by rewrite He.
Qed.

Lemma untouched_refl (w : World) : untouched w w.
Proof. by repeat split. Qed.

Lemma untouched_trans (w1 w2 w3 : World) :
  untouched w1 w2 → untouched w2 w3 → untouched w1 w3.
Proof.
  intros (? & ? & ? & ? & ?) (? & ? & ? & ? & ?).
  repeat split; congruence.
Qed.

Lemma quiet_compose (g1 g2 : World → World) :
  quiet g1 → quiet g2 → quiet (λ w, g2 (g1 w)).
Proof.
  intros H1 H2 w. destruct (H1 w) as [U1 F1], (H2 (g1 w)) as [U2 F2].
  split; [by apply untouched_trans with (g1 w)|congruence].
Qed.

Lemma quiet_check_env_opt opt sf : quiet (check_env_opt opt sf).
Proof.
  intros w. unfold check_env_opt.
  case_bool_decide; (split; [|done]); (apply untouched_refl || (by repeat split)).
Qed.

Lemma quiet_run_init_hook : quiet run_init_hook.
Proof.
  intros w. unfold run_init_hook.
  destruct (CPP_init_hook w) as [h|] eqn:Hh; (split; [|done]);
    [|apply untouched_refl].
  unfold untouched. cbn [CPP_init_hook global_ids environ reporter_errors trace
                         with_compiled_funcs with_options with_trace].
  split_and!; [done..|].
  apply reduction_events_quiet. by repeat constructor.
Qed.

Lemma quiet_read_usage_issues : quiet read_usage_issues.
Proof.
  intros w. unfold read_usage_issues.
  destruct (environ w !! _); (split; [|done]); (apply untouched_refl || (by repeat split)).
Qed.

Lemma quiet_read_only_func : quiet read_only_func.
Proof.
  intros w. unfold read_only_func.
  case_bool_decide; [|destruct (environ w !! _)]; (split; [|done]);
    (apply untouched_refl || (by repeat split)).
Qed.

Lemma quiet_imply_activate : quiet imply_activate.
Proof.
  intros w. unfold imply_activate.
  destruct (_ || _); (split; [|done]); (apply untouched_refl || (by repeat split)).
Qed.

Lemma quiet_did_init b : quiet (with_did_init b).
Proof. intros w. split; [|done]. by repeat split. Qed.

Lemma config_resolved_untouched (w : World) :
  untouched w (config_resolved w) ∧ funcs (config_resolved w) = funcs w.
Proof.
  rewrite (proj2 (config_resolved_eq w)). destruct (did_init w).
  { split; [apply untouched_refl|done]. }
  revert w. change (quiet (λ w, with_did_init true (imply_activate
    (read_only_func (read_usage_issues
      (check_env_opt "ZEEK_XFORM" set_activate
        (check_env_opt "ZEEK_INLINE" set_inliner
          (check_env_opt "ZEEK_DUMP_XFORM" set_dump_xform
            (run_init_hook w))))))))).
  pose proof quiet_run_init_hook as Q1.
  pose proof (quiet_compose _ _ Q1
    (quiet_check_env_opt "ZEEK_DUMP_XFORM" set_dump_xform)) as Q2.
  pose proof (quiet_compose _ _ Q2
    (quiet_check_env_opt "ZEEK_INLINE" set_inliner)) as Q3.
  pose proof (quiet_compose _ _ Q3
    (quiet_check_env_opt "ZEEK_XFORM" set_activate)) as Q4.
  pose proof (quiet_compose _ _ Q4 quiet_read_usage_issues) as Q5.
  pose proof (quiet_compose _ _ Q5 quiet_read_only_func) as Q6.
  pose proof (quiet_compose _ _ Q6 quiet_imply_activate) as Q7.
  exact (quiet_compose _ _ Q7 (quiet_did_init true)).
Qed.

Lemma check_env_opt_options opt sf (w : World) :
  analysis_options (check_env_opt opt sf w) =
    if bool_decide (is_Some (environ w !! opt))
    then sf true (analysis_options w) else analysis_options w.
Proof. unfold check_env_opt. by case_bool_decide. Qed.

Lemma read_usage_issues_options (w : World) :
  analysis_options (read_usage_issues w) =
    match environ w !! "ZEEK_USAGE_ISSUES" with
    | Some u =>
        set_usage_issues (if bool_decide (1 < atoi u)%Z then 2 else 1)%Z
          (analysis_options w)
    | None => analysis_options w
    end.
Proof. unfold read_usage_issues. by destruct (environ w !! _). Qed.

Lemma read_only_func_options (w : World) :
  analysis_options (read_only_func w) =
    match only_func (analysis_options w), environ w !! "ZEEK_ONLY" with
    | None, Some zo => set_only_func (Some zo) (analysis_options w)
    | _, _ => analysis_options w
    end.
Proof.
  unfold read_only_func. destruct (only_func (analysis_options w)); cbn.
  - done.
  - by destruct (environ w !! _).
Qed.

Lemma imply_activate_options (w : World) :
  analysis_options (imply_activate w) =
    if bool_decide (is_Some (only_func (analysis_options w)))
       || bool_decide (0 < usage_issues (analysis_options w))%Z
    then set_activate true (analysis_options w) else analysis_options w.
Proof. unfold imply_activate. by destruct (_ || _). Qed.

Lemma run_init_hook_options (w : World) :
  analysis_options (run_init_hook w) = options_after_hook w.
Proof.
  unfold run_init_hook, options_after_hook. by destruct (CPP_init_hook w).
Qed.

Lemma options_with_did_init b (w : World) :
  analysis_options (with_did_init b w) = analysis_options w.
Proof. done. Qed.

Lemma quiet_environ (g : World → World) (w : World) :
  quiet g → environ (g w) = environ w.
Proof. intros Hq. by destruct (Hq w) as [(_ & _ & ? & _) _]. Qed.

(** The options as lines 127 to 153 leave them, field by field. *)
Lemma config_resolved_options (w : World) :
  did_init w = false →
  let ao := analysis_options (config_resolved w) in
  let ao0 := options_after_hook w in
  only_func ao =
    match only_func ao0 with
    | Some name => Some name
    | None => environ w !! "ZEEK_ONLY"
    end
  ∧ usage_issues ao =
      match environ w !! "ZEEK_USAGE_ISSUES" with
      | Some u => if bool_decide (1 < atoi u)%Z then 2%Z else 1%Z
      | None => usage_issues ao0
      end
  ∧ activate ao =
      activate ao0 || bool_decide (is_Some (environ w !! "ZEEK_XFORM"))
      || (bool_decide (is_Some (only_func ao))
          || bool_decide (0 < usage_issues ao)%Z).
Proof.
  intros Hdid ao ao0. subst ao ao0.
  rewrite (proj2 (config_resolved_eq w)), Hdid.
  rewrite !options_with_did_init.
  rewrite <-run_init_hook_options.
  rewrite <-(quiet_environ run_init_hook w quiet_run_init_hook).
  generalize (run_init_hook w). clear w Hdid. intros w1.
  set (w2 := check_env_opt "ZEEK_DUMP_XFORM" set_dump_xform w1).
  set (w3 := check_env_opt "ZEEK_INLINE" set_inliner w2).
  set (w4 := check_env_opt "ZEEK_XFORM" set_activate w3).
  set (w5 := read_usage_issues w4).
  set (w6 := read_only_func w5).
  pose proof (quiet_environ _ w1 (quiet_check_env_opt "ZEEK_DUMP_XFORM" set_dump_xform)) as E2.
  pose proof (quiet_environ _ w2 (quiet_check_env_opt "ZEEK_INLINE" set_inliner)) as E3.
  pose proof (quiet_environ _ w3 (quiet_check_env_opt "ZEEK_XFORM" set_activate)) as E4.
  pose proof (quiet_environ _ w4 quiet_read_usage_issues) as E5.
  pose proof (check_env_opt_options "ZEEK_DUMP_XFORM" set_dump_xform w1) as O2.
  pose proof (check_env_opt_options "ZEEK_INLINE" set_inliner w2) as O3.
  pose proof (check_env_opt_options "ZEEK_XFORM" set_activate w3) as O4.
  pose proof (read_usage_issues_options w4) as O5.
  pose proof (read_only_func_options w5) as O6.
  pose proof (imply_activate_options w6) as O7.
  fold w2 in E2, E3, O2, O3. fold w3 in E3, E4, O3, O4.
  fold w4 in E4, E5, O4, O5. fold w5 in E5, O5, O6. fold w6 in O6, O7.
  clearbody w2 w3 w4 w5 w6.
  rewrite E5, E4, E3, E2 in O6. rewrite E4, E3, E2 in O5.
  rewrite E3, E2 in O4. rewrite E2 in O3. clear E2 E3 E4 E5.
  assert (F2 : only_func (analysis_options w2) = only_func (analysis_options w1)
               ∧ usage_issues (analysis_options w2) = usage_issues (analysis_options w1)
               ∧ activate (analysis_options w2) = activate (analysis_options w1)).
  { rewrite O2. clear.
    by destruct (bool_decide (is_Some (environ w1 !! "ZEEK_DUMP_XFORM"))). }
  assert (F3 : only_func (analysis_options w3) = only_func (analysis_options w2)
               ∧ usage_issues (analysis_options w3) = usage_issues (analysis_options w2)
               ∧ activate (analysis_options w3) = activate (analysis_options w2)).
  { rewrite O3. clear.
    by destruct (bool_decide (is_Some (environ w1 !! "ZEEK_INLINE"))). }
  assert (F4 : only_func (analysis_options w4) = only_func (analysis_options w3)
               ∧ usage_issues (analysis_options w4) = usage_issues (analysis_options w3)
               ∧ activate (analysis_options w4)
                 = activate (analysis_options w3)
                   || bool_decide (is_Some (environ w1 !! "ZEEK_XFORM"))).
  { rewrite O4. clear.
    destruct (bool_decide (is_Some (environ w1 !! "ZEEK_XFORM"))); cbn;
      by rewrite ?orb_true_r, ?orb_false_r. }
  assert (F5 : only_func (analysis_options w5) = only_func (analysis_options w4)
               ∧ usage_issues (analysis_options w5)
                 = match environ w1 !! "ZEEK_USAGE_ISSUES" with
                   | Some u => if bool_decide (1 < atoi u)%Z then 2%Z else 1%Z
                   | None => usage_issues (analysis_options w4)
                   end
               ∧ activate (analysis_options w5) = activate (analysis_options w4)).
  { rewrite O5. clear. by destruct (environ w1 !! "ZEEK_USAGE_ISSUES"). }
  assert (F6 : only_func (analysis_options w6)
               = match only_func (analysis_options w5) with
                 | Some name => Some name
                 | None => environ w1 !! "ZEEK_ONLY"
                 end
               ∧ usage_issues (analysis_options w6) = usage_issues (analysis_options w5)
               ∧ activate (analysis_options w6) = activate (analysis_options w5)).
  { rewrite O6. clear.
    destruct (only_func (analysis_options w5)) eqn:Ho; [by rewrite Ho|].
    destruct (environ w1 !! "ZEEK_ONLY"); [done|by rewrite Ho]. }
  assert (F7 : only_func (analysis_options (imply_activate w6))
               = only_func (analysis_options w6)
               ∧ usage_issues (analysis_options (imply_activate w6))
                 = usage_issues (analysis_options w6)
               ∧ activate (analysis_options (imply_activate w6))
                 = activate (analysis_options w6)
                   || (bool_decide (is_Some (only_func (analysis_options w6)))
                       || bool_decide (0 < usage_issues (analysis_options w6))%Z)).
  { rewrite O7. clear.
    destruct (bool_decide (is_Some (only_func (analysis_options w6)))
              || bool_decide (0 < usage_issues (analysis_options w6))%Z); cbn;
      by rewrite ?orb_true_r, ?orb_false_r. }
  destruct F2 as (A2 & B2 & C2), F3 as (A3 & B3 & C3), F4 as (A4 & B4 & C4),
    F5 as (A5 & B5 & C5), F6 as (A6 & B6 & C6), F7 as (A7 & B7 & C7).
  rewrite A7, B7, C7, A6, B6, C6, A5, B5, C5, A4, B4, C4, A3, B3, C3, A2, B2, C2.
  done.
Qed.

Lemma emit_all (e : FuncInfo → Event) (fs : list FuncInfo) (w : World) :
  fold_left (λ w f, with_trace (trace w ++ [e f]) w) fs w
  = with_trace (trace w ++ map e fs) w.
Proof.
  revert w. induction fs as [|f fs IH]; intros w; simpl.
  - rewrite app_nil_r. by destruct w.
  - rewrite IH. simpl. by rewrite <-app_assoc.
Qed.

Lemma profile_loop_run (w : World) :
  for_funcs profile_one w = (Normal tt, profiled_world w).
Proof.
  rewrite (for_funcs_simple profile_one
    (λ f, SetProfile f (Traverse true true (Func f) (Body f)))
    (λ f w, with_trace (trace w ++ [EvTraverse (sf_id (Func f)) (Body f)]) w));
    [|done..].
  by rewrite emit_all.
Qed.

Lemma profiles_of_profile_all (fs : list FuncInfo) :
  profiles_of (profile_all fs) = Some (profiled_funcs fs).
Proof.
  unfold profiles_of. induction fs as [|f fs IH]; [done|].
  cbn. unfold profile_all in IH. rewrite IH. done.
Qed.

Lemma when_analysis_run order (w : World) :
  when_analysis order w =
    (match Taint.compute_when_funcs order (profiled_funcs (funcs w)) with
     | Done X => Normal X
     | NullProfile => Crashed
     | OutOfFuel => Stuck
     end, profiled_world w).
Proof.
  unfold when_analysis, mbind, M_bind. rewrite profile_loop_run.
  unfold get. cbn [funcs profiled_world with_funcs].
  rewrite profiles_of_profile_all.
  by destruct (Taint.compute_when_funcs order _).
Qed.

Lemma substitute_one_run (f : FuncInfo) (w : World) :
  substitute_one f w = (Normal f, rebind w f).
Proof.
  unfold substitute_one, rebind, mbind, M_bind, get. cbn beta iota zeta.
  destruct (compiled_funcs w !! Name (Func f)) as [cf|]; [|done].
  by case_bool_decide.
Qed.

Lemma rebind_with_funcs (f : FuncInfo) fs (w : World) :
  rebind (with_funcs fs w) f = with_funcs fs (rebind w f).
Proof.
  unfold rebind. cbn [compiled_funcs global_ids with_funcs].
  destruct (compiled_funcs w !! Name (Func f)) as [cf|]; [|done].
  by case_bool_decide.
Qed.

Lemma rebind_funcs (f : FuncInfo) (w : World) : funcs (rebind w f) = funcs w.
Proof.
  unfold rebind. destruct (compiled_funcs w !! Name (Func f)) as [cf|]; [|done].
  by case_bool_decide.
Qed.

Lemma fold_rebind_funcs (fs : list FuncInfo) (w : World) :
  funcs (fold_left rebind fs w) = funcs w.
Proof.
  revert w. induction fs as [|f fs IH]; intros w; [done|].
  simpl. by rewrite IH, rebind_funcs.
Qed.

Lemma substitution_loop_run (w : World) :
  for_funcs substitute_one w = (Normal tt, fold_left rebind (funcs w) w).
Proof.
  rewrite (for_funcs_simple substitute_one (λ f, f) (λ f w, rebind w f)).
  - rewrite map_id. f_equal.
    rewrite <-(fold_rebind_funcs (funcs w) w) at 1. apply with_funcs_same.
  - apply substitute_one_run.
  - apply rebind_funcs.
  - intros f fs w0. apply rebind_with_funcs.
Qed.

(** Lines 235 to 246 over a list of records. *)
Lemma fold_rebind_spec (fs : list FuncInfo) (w : World) :
  let w' := fold_left rebind fs w in
  compiled_funcs w' = compiled_funcs w
  ∧ CPP_init_hook w' = CPP_init_hook w
  ∧ reduction_events (trace w') = reduction_events (trace w)
  ∧ ∀ name, global_ids w' !! name =
      match compiled_funcs w !! name with
      | Some cf =>
          if decide (Exists (λ f, Name (Func f) = name) fs
                     ∧ is_Some (global_ids w !! name))
          then Some (NativeVal cf) else global_ids w !! name
      | None => global_ids w !! name
      end.
Proof.
  induction fs as [|f fs IH] using rev_ind.
  - cbn [fold_left]. split_and!; [done..|]. intros name.
    destruct (compiled_funcs w !! name); [|done].
    destruct (decide _) as [[Hex _]|]; [|done]. by apply Exists_nil in Hex.
  - rewrite fold_left_app. cbn [fold_left].
    destruct IH as (Hcf & Hhook & Htrace & Hids).
    set (w' := fold_left rebind fs w) in *.
    assert (Hlast : ∀ name cf, compiled_funcs w !! name = Some cf →
      global_ids w' !! name =
        if decide (Exists (λ f, Name (Func f) = name) fs
                   ∧ is_Some (global_ids w !! name))
        then Some (NativeVal cf) else global_ids w !! name).
    { intros name cf Hname. by rewrite Hids, Hname. }
    unfold rebind. rewrite Hcf.
    destruct (compiled_funcs w !! Name (Func f)) as [cf|] eqn:Hf.
    + case_bool_decide as Hbound.
      * cbn [compiled_funcs CPP_init_hook trace global_ids
             with_global_ids with_trace].
        split_and!; [done..| |].
        { rewrite <-Htrace. apply reduction_events_quiet.
          by repeat constructor. }
        intros name. destruct (decide (name = Name (Func f))) as [->|Hne].
        -- rewrite lookup_insert_eq, Hf. rewrite decide_True; [done|].
           split; [apply Exists_app; right; by constructor|].
           rewrite (Hlast _ _ Hf) in Hbound.
           destruct (decide _) as [[_ ?]|]; done.
        -- rewrite lookup_insert_ne by done. rewrite Hids.
           destruct (compiled_funcs w !! name); [|done].
           apply decide_ext. rewrite Exists_app, Exists_cons, Exists_nil.
           naive_solver.
      * split_and!; [done..|]. intros name. rewrite Hids.
        destruct (compiled_funcs w !! name) as [cf'|] eqn:Hname; [|done].
        destruct (decide (name = Name (Func f))) as [->|Hne].
        -- rewrite (Hlast _ _ Hf) in Hbound.
           rewrite !decide_False; [done| |].
           ++ intros [_ Hs]. apply Hbound.
              destruct (decide _); [by eexists|done].
           ++ intros [_ Hs]. apply Hbound.
              destruct (decide _); [by eexists|done].
        -- apply decide_ext. rewrite Exists_app, Exists_cons, Exists_nil.
           naive_solver.
    + split_and!; [done..|]. intros name. rewrite Hids.
      destruct (compiled_funcs w !! name) as [cf'|] eqn:Hname; [|done].
      apply decide_ext. rewrite Exists_app, Exists_cons, Exists_nil.
      split; [naive_solver|]. intros [[?|[<-|[]]] ?]; [done|congruence].
Qed.

Lemma inliner_step_run (w : World) :
  (ao ← get analysis_options;
   if inliner ao then
     emit EvInliner;;
     fs ← get funcs;
     let r := run_Inliner fs (report_recursive ao) in
     modify (with_funcs r.1);;
     mret (Some r.2)
   else mret None) w
  = (Normal (if inliner (analysis_options w)
             then Some (run_Inliner (funcs w)
                          (report_recursive (analysis_options w))).2
             else None),
     inlined_world w).
Proof.
  unfold inlined_world, after_inliner, mbind, M_bind, get, emit, modify.
  cbn beta iota. destruct (inliner (analysis_options w)); [|done].
  cbn. do 2 f_equal.
Qed.

(** Lines 123 to 253 when neither [activate] nor [inliner] is set. *)
Lemma analyze_scripts_idle order (w : World) :
  activate (analysis_options (config_resolved w)) = false →
  inliner (analysis_options (config_resolved w)) = false →
  analyze_scripts order w = (Normal tt, config_resolved w).
Proof.
  intros Hact Hinl. unfold analyze_scripts, call, analyze_scripts_body.
  unfold mbind at 1, M_bind at 1.
  rewrite (proj1 (config_resolved_eq w)). cbn beta iota.
  unfold mbind at 1, M_bind at 1, get at 1. cbn beta iota.
  unfold mbind at 1, M_bind at 1. rewrite Hact, Hinl. done.
Qed.

(** Lines 123 to 253 when the analyses run and the "when" analysis ends
    with a set. *)
Lemma analyze_scripts_run order (w : World) X :
  let ao := analysis_options (config_resolved w) in
  let w3 := analysed_world w in
  activate ao || inliner ao = true →
  Taint.compute_when_funcs order (profiled_funcs (funcs w)) = Done X →
  analyze_scripts order w =
    (Normal tt,
     if negb (activate ao) then w3
     else if bool_decide (is_Some (CPP_init_hook w))
     then fold_left rebind (funcs w3) w3
     else with_trace
            (trace w3 ++ [EvCompileTo (map (λ f, sf_id (Func f)) (funcs w3))])
            w3).
Proof.
  intros ao w3 Hon Hdone. subst ao w3.
  destruct (config_resolved_untouched w) as [(Hhook & _) Hfuncs].
  unfold analyze_scripts, call, analyze_scripts_body.
  unfold mbind at 1, M_bind at 1.
  rewrite (proj1 (config_resolved_eq w)). cbn beta iota.
  unfold mbind at 1, M_bind at 1, get at 1. cbn beta iota.
  unfold mbind at 1, M_bind at 1.
  apply orb_true_iff in Hon.
  assert (negb (activate (analysis_options (config_resolved w)))
          && negb (inliner (analysis_options (config_resolved w))) = false)
    as ->.
  { destruct Hon as [-> | ->]; [done|]. by rewrite andb_false_r. }
  cbn [if_ skip mret M_ret].
  unfold mbind at 1, M_bind at 1. rewrite when_analysis_run, Hfuncs, Hdone.
  cbn beta iota.
  unfold mbind at 1, M_bind at 1, get at 1. cbn beta iota.
  unfold mbind at 1, M_bind at 1.
  pose proof (inliner_step_run (profiled_world (config_resolved w))) as Hinl.
  unfold mbind at 1, M_bind at 1, get at 1 in Hinl. cbn beta iota in Hinl.
  change (analysis_options (profiled_world (config_resolved w)))
    with (analysis_options (config_resolved w)) in *.
  rewrite Hinl. clear Hinl. cbn beta iota.
  fold (analysed_world w).
  unfold mbind at 1, M_bind at 1, get at 1. cbn beta iota.
  assert (analysis_options (analysed_world w)
          = analysis_options (config_resolved w)) as ->.
  { unfold analysed_world, inlined_world.
    by destruct (inliner (analysis_options (profiled_world (config_resolved w)))). }
  assert (CPP_init_hook (analysed_world w) = CPP_init_hook w) as Hhook'.
  { rewrite <-Hhook. unfold analysed_world, inlined_world.
    by destruct (inliner (analysis_options (profiled_world (config_resolved w)))). }
  unfold mbind at 1, M_bind at 1.
  destruct (activate (analysis_options (config_resolved w))); [|done].
  cbn [negb if_ skip mret M_ret].
  unfold mbind at 1, M_bind at 1, get at 1. cbn beta iota.
  unfold mbind at 1, M_bind at 1. rewrite Hhook'.
  destruct (bool_decide (is_Some (CPP_init_hook w))).
  - cbn [if_]. unfold mbind at 1, M_bind at 1.
    by rewrite substitution_loop_run.
  - cbn [if_ skip mret M_ret].
    unfold mbind at 1, M_bind at 1, get at 1. cbn beta iota.
    unfold mbind at 1, M_bind at 1, emit, modify. cbn beta iota.
    done.
Qed.

Lemma analysed_world_facts (w : World) :
  funcs (analysed_world w)
  = after_inliner (analysis_options (config_resolved w)) (profile_all (funcs w))
  ∧ untouched w (analysed_world w)
  ∧ compiled_funcs (analysed_world w) = compiled_funcs (config_resolved w).
Proof.
  destruct (config_resolved_untouched w) as [Hun Hfuncs].
  assert (Hprof : untouched (config_resolved w)
                    (profiled_world (config_resolved w))).
  { unfold profiled_world. repeat split. cbn [trace with_funcs with_trace].
    apply reduction_events_quiet, Forall_map, Forall_true. done. }
  unfold analysed_world, inlined_world.
  change (analysis_options (profiled_world (config_resolved w)))
    with (analysis_options (config_resolved w)).
  unfold after_inliner.
  destruct (inliner (analysis_options (config_resolved w))).
  - split_and!.
    + cbn [funcs with_funcs profiled_world]. by rewrite Hfuncs.
    + apply untouched_trans with (config_resolved w); [done|].
      apply untouched_trans with (profiled_world (config_resolved w)); [done|].
      repeat split. cbn [trace with_funcs with_trace].
      apply reduction_events_quiet. by repeat constructor.
    + done.
  - split_and!.
    + cbn [funcs with_funcs profiled_world]. by rewrite Hfuncs.
    + by apply untouched_trans with (config_resolved w).
    + done.
Qed.

Lemma profile_all_bodies (fs : list FuncInfo) :
  map Body (profile_all fs) = map Body fs
  ∧ map Func (profile_all fs) = map Func fs.
Proof. unfold profile_all. by rewrite !map_map. Qed.

(** [analyze_scripts] in full: where it stops and with what state. *)
Lemma analyze_scripts_cases order (w : World) :
  let c := config_resolved w in
  let ao := analysis_options c in
  let w3 := analysed_world w in
  analyze_scripts order w =
    if negb (analyses_on ao) then (Normal tt, c)
    else
      match Taint.compute_when_funcs order (profiled_funcs (funcs w)) with
      | Done _ =>
          (Normal tt,
           if negb (activate ao) then w3
           else if bool_decide (is_Some (CPP_init_hook w))
           then fold_left rebind (funcs w3) w3
           else with_trace
                  (trace w3
                   ++ [EvCompileTo (map (λ f, sf_id (Func f)) (funcs w3))]) w3)
      | NullProfile => (Crashed, profiled_world c)
      | OutOfFuel => (Stuck, profiled_world c)
      end.
Proof.
  intros c ao w3. subst c ao w3. unfold analyses_on.
  destruct (activate (analysis_options (config_resolved w))
            || inliner (analysis_options (config_resolved w))) eqn:Hon.
  2:{ apply orb_false_iff in Hon as [Hact Hinl]. cbn [negb].
      by apply analyze_scripts_idle. }
  cbn [negb].
  destruct (Taint.compute_when_funcs order (profiled_funcs (funcs w)))
    as [X| |] eqn:Hrun.
  - by apply (analyze_scripts_run order w X).
  - destruct (config_resolved_untouched w) as [_ Hfuncs].
    unfold analyze_scripts, call, analyze_scripts_body.
    unfold mbind at 1, M_bind at 1.
    rewrite (proj1 (config_resolved_eq w)). cbn beta iota.
    unfold mbind at 1, M_bind at 1, get at 1. cbn beta iota.
    unfold mbind at 1, M_bind at 1.
    apply orb_true_iff in Hon.
    assert (negb (activate (analysis_options (config_resolved w)))
            && negb (inliner (analysis_options (config_resolved w))) = false)
      as ->.
    { destruct Hon as [-> | ->]; [done|]. by rewrite andb_false_r. }
    cbn [if_ skip mret M_ret].
    unfold mbind at 1, M_bind at 1. by rewrite when_analysis_run, Hfuncs, Hrun.
  - destruct (config_resolved_untouched w) as [_ Hfuncs].
    unfold analyze_scripts, call, analyze_scripts_body.
    unfold mbind at 1, M_bind at 1.
    rewrite (proj1 (config_resolved_eq w)). cbn beta iota.
    unfold mbind at 1, M_bind at 1, get at 1. cbn beta iota.
    unfold mbind at 1, M_bind at 1.
    apply orb_true_iff in Hon.
    assert (negb (activate (analysis_options (config_resolved w)))
            && negb (inliner (analysis_options (config_resolved w))) = false)
      as ->.
    { destruct Hon as [-> | ->]; [done|]. by rewrite andb_false_r. }
    cbn [if_ skip mret M_ret].
    unfold mbind at 1, M_bind at 1. by rewrite when_analysis_run, Hfuncs, Hrun.
Qed.

Lemma takes_unregistered_profiled (fs : list FuncInfo) :
  takes_unregistered fs ↔ Taint.takes_without_record (profiled_funcs fs).
Proof. done. Qed.

Lemma profiled_world_trace (w : World) :
  trace (profiled_world (config_resolved w))
  = trace (config_resolved w)
    ++ map (λ f, EvTraverse (sf_id (Func f)) (Body f)) (funcs w).
Proof.
  unfold profiled_world. cbn [trace with_trace with_funcs].
  by rewrite (proj2 (config_resolved_untouched w)).
Qed.

(** When the "when" analysis faults, the call ends right after the
    profiling loop. *)
Lemma analyze_scripts_faults order (w : World) :
  Taint.valid_order order →
  analyses_on (analysis_options (config_resolved w)) = true →
  takes_unregistered (funcs w) →
  analyze_scripts order w = (Crashed, profiled_world (config_resolved w)).
Proof.
  intros Hord Hon Htakes. rewrite analyze_scripts_cases, Hon. cbn [negb].
  apply takes_unregistered_profiled in Htakes.
  by rewrite (proj2 (proj1 (compute_when_funcs_fault order _ Hord)) Htakes).
Qed.

(** C2, as amended. With activation in effect and no hook installed, the
    driver hands every record to the code generator and returns, unless the
    "when" analysis before it faults: there is no separate request for
    generation, the loop that would call [optimize_func] is not reached,
    and no function is reduced. The analysis faults exactly when it takes
    from its work list a function without a record; the call then ends
    right after the profiling loop, and nothing is generated. The pipeline
    itself is what a call of [optimize_func] runs when its guards let it
    through and the reducer reports no error: Reduce, the check of the
    normal form, the replacement of the body, the new profile, the
    decoration, and the frame size raised to what the reduced body asks
    for. *)
Theorem analyze_scripts_generates order (w : World) :
  Taint.valid_order order →
  activate (analysis_options (config_resolved w)) = true →
  CPP_init_hook w = None →
  (¬ takes_unregistered (funcs w) →
     ∃ w', analyze_scripts order w = (Normal tt, w')
       ∧ funcs w' = after_inliner (analysis_options (config_resolved w))
                      (profile_all (funcs w))
       ∧ trace w' = trace (analysed_world w)
                    ++ [EvCompileTo (map (λ f, sf_id (Func f)) (funcs w'))]
       ∧ reduction_events (trace w') = reduction_events (trace w))
  ∧ (takes_unregistered (funcs w) →
       ∃ w', analyze_scripts order w = (Crashed, w')
         ∧ trace w' = trace (config_resolved w)
                      ++ map (λ f, EvTraverse (sf_id (Func f)) (Body f))
                           (funcs w)
         ∧ reduction_events (trace w') = reduction_events (trace w))
  ∧ (∀ (f : ScriptFunc) pf scope_ptr (body : Stmt) ao (w0 : World),
       let r := reduction scope_ptr body in
       guards_pass f pf ao w0 → red_errors r = 0 →
       ∃ f' w0',
         optimize_func f pf scope_ptr body ao w0 = (Normal (f', red_body r), w0')
         ∧ trace w0' =
             trace w0 ++ original_lines ao body ++ [EvReduce (sf_id f) body]
             ++ check_lines f r ++ transformed_lines ao (red_body r)
             ++ [EvReplaceBody (sf_id f) body (red_body r);
                 EvTraverse (sf_id f) (red_body r);
                 EvDecorate (sf_id f) (red_body r)]
         ∧ FrameSize f' =
             Z.max (FrameSize f)
               (int_add (int_add (scope_Length (red_scope r))
                                 (NumTemps (red_rc r)))
                        (NumNewLocals (red_rc r)))).
Proof.
  intros Hord Hact Hhook. split_and!.
  - intros Hno. rewrite takes_unregistered_profiled in Hno.
    destruct (proj2 (compute_when_funcs_fault order _ Hord) Hno) as [X HX].
    destruct (analysed_world_facts w) as (Hfuncs & (_ & _ & _ & _ & Hquiet) & _).
    eexists. split.
    { apply (analyze_scripts_run order w X); [by rewrite Hact|done]. }
    rewrite Hact, Hhook. cbn [negb]. rewrite bool_decide_eq_false_2
      by (intros [? ?]; done).
    cbn [funcs trace with_trace]. split_and!; [done|done|].
    rewrite <-Hquiet. apply reduction_events_quiet. by repeat constructor.
  - intros Hyes. exists (profiled_world (config_resolved w)). split_and!.
    + apply analyze_scripts_faults; [done| |done].
      unfold analyses_on. by rewrite Hact.
    + apply profiled_world_trace.
    + rewrite profiled_world_trace.
      destruct (config_resolved_untouched w) as [(_ & _ & _ & _ & Hquiet) _].
      rewrite <-Hquiet. apply reduction_events_quiet, Forall_map, Forall_true.
      done.
  - intros f pf scope_ptr body ao w0 r Hguards Hred.
    destruct (optimize_func_reduces f pf scope_ptr body ao w0 Hguards Hred)
      as (w0' & Hrun & Htrace & _).
    eexists _, w0'. split; [exact Hrun|]. split; [exact Htrace|].
    clear Hrun Htrace. subst r. case_bool_decide; simpl; lia.
Qed.

(** C6, as amended. With a hook installed, activation in effect and the
    "when" analysis not faulting, the driver rebinds the global identifier,
    if there is one, of every registered function whose name is in
    [compiled_funcs] to the native function; it leaves every other binding
    as it was, creates no identifier, does not touch the records (their
    bodies are as the analyses left them, and as registered when the
    inliner is off), and reduces no function. Without activation the driver
    returns before line 233 and no identifier is rebound, however the call
    ends; and when the analysis faults, which it does exactly when it takes
    from its work list a function without a record, the call ends right
    after the profiling loop and no identifier is rebound either. *)
Theorem analyze_scripts_substitutes order (w : World) h :
  Taint.valid_order order →
  CPP_init_hook w = Some h →
  let ao := analysis_options (config_resolved w) in
  (activate ao = true → ¬ takes_unregistered (funcs w) →
     ∃ w', analyze_scripts order w = (Normal tt, w')
       ∧ funcs w' = after_inliner ao (profile_all (funcs w))
       ∧ (inliner ao = false →
            map Body (funcs w') = map Body (funcs w)
            ∧ map Func (funcs w') = map Func (funcs w))
       ∧ (∀ name cf,
            registered_name (funcs w') name →
            compiled_funcs (config_resolved w) !! name = Some cf →
            is_Some (global_ids w !! name) →
            global_ids w' !! name = Some (NativeVal cf))
       ∧ (∀ name, compiled_funcs (config_resolved w) !! name = None →
            global_ids w' !! name = global_ids w !! name)
       ∧ (∀ name, ¬ registered_name (funcs w') name →
            global_ids w' !! name = global_ids w !! name)
       ∧ (∀ name, global_ids w !! name = None → global_ids w' !! name = None)
       ∧ reduction_events (trace w') = reduction_events (trace w))
  ∧ (activate ao = false →
       global_ids (analyze_scripts order w).2 = global_ids w
       ∧ reduction_events (trace (analyze_scripts order w).2)
         = reduction_events (trace w))
  ∧ (activate ao = true → takes_unregistered (funcs w) →
       ∃ w', analyze_scripts order w = (Crashed, w')
         ∧ global_ids w' = global_ids w
         ∧ trace w' = trace (config_resolved w)
                      ++ map (λ f, EvTraverse (sf_id (Func f)) (Body f))
                           (funcs w)).
Proof.
  intros Hord Hhook ao.
  destruct (analysed_world_facts w)
    as (Hfuncs & (_ & Hids0 & _ & _ & Hquiet) & Hcfs).
  destruct (config_resolved_untouched w) as [(_ & Hidsc & _ & _ & Hquietc) _].
  assert (Hprof : global_ids (profiled_world (config_resolved w)) = global_ids w
    ∧ reduction_events (trace (profiled_world (config_resolved w)))
      = reduction_events (trace w)).
  { split; [exact Hidsc|]. rewrite profiled_world_trace, <-Hquietc.
    apply reduction_events_quiet, Forall_map, Forall_true. done. }
  split_and!.
  - intros Hact Hno. rewrite takes_unregistered_profiled in Hno.
    destruct (proj2 (compute_when_funcs_fault order _ Hord) Hno) as [X HX].
    eexists. split.
    { apply (analyze_scripts_run order w X); [by fold ao; rewrite Hact|done]. }
    fold ao. rewrite Hact, Hhook. cbn [negb].
    rewrite bool_decide_eq_true_2 by by eexists.
    destruct (fold_rebind_spec (funcs (analysed_world w)) (analysed_world w))
      as (_ & _ & Htrace & Hids).
    rewrite fold_rebind_funcs. rewrite Hcfs, Hids0 in Hids.
    split_and!.
    + done.
    + intros Hinl. rewrite Hfuncs. unfold after_inliner. fold ao. rewrite Hinl.
      apply profile_all_bodies.
    + intros name cf Hname Hcf Hbound. rewrite Hids, Hcf.
      by rewrite decide_True.
    + intros name Hcf. by rewrite Hids, Hcf.
    + intros name Hname. rewrite Hids.
      destruct (compiled_funcs (config_resolved w) !! name); [|done].
      rewrite decide_False; [done|]. by intros [? _].
    + intros name Hnone. rewrite Hids.
      destruct (compiled_funcs (config_resolved w) !! name); [|done].
      rewrite decide_False; [done|]. rewrite Hnone. by intros [_ [? ?]].
    + by rewrite Htrace.
  - intros Hact. rewrite analyze_scripts_cases. fold ao. rewrite Hact.
    cbn [negb].
    destruct (negb (analyses_on ao)); [done|].
    destruct (Taint.compute_when_funcs order (profiled_funcs (funcs w)));
      cbn [snd]; done.
  - intros Hact Hyes. exists (profiled_world (config_resolved w)). split_and!.
    + apply analyze_scripts_faults; [done| |done].
      unfold analyses_on. fold ao. by rewrite Hact.
    + apply Hprof.
    + apply profiled_world_trace.
Qed.

(** C7, as amended. When the configuration is resolved: an only-function
    filter, given in the options or by [ZEEK_ONLY], implies activation; a
    usage-issues level above 0 implies activation; a level of 0 with no
    filter leaves activation to the [activate] option and [ZEEK_XFORM].
    The variable [ZEEK_USAGE_ISSUES], once set, whatever its value and the
    value 0 included, makes the level 1, or 2 when the [int] that [atoi]
    returns for it exceeds 1, and so implies activation; that [int] is the
    integer the value denotes whenever it fits an [int]. *)
Theorem config_implies_activation (w : World) :
  did_init w = false →
  let ao := analysis_options (config_resolved w) in
  let ao0 := options_after_hook w in
  (is_Some (only_func ao) → activate ao = true)
  ∧ (is_Some (only_func ao0) ∨ is_Some (environ w !! "ZEEK_ONLY") →
       is_Some (only_func ao))
  ∧ ((0 < usage_issues ao)%Z → activate ao = true)
  ∧ (only_func ao = None → (usage_issues ao ≤ 0)%Z →
       activate ao
       = activate ao0 || bool_decide (is_Some (environ w !! "ZEEK_XFORM")))
  ∧ (environ w !! "ZEEK_USAGE_ISSUES" = None →
       usage_issues ao = usage_issues ao0)
  ∧ (∀ u, environ w !! "ZEEK_USAGE_ISSUES" = Some u →
       usage_issues ao = (if bool_decide (1 < atoi u)%Z then 2 else 1)%Z
       ∧ activate ao = true
       ∧ in_int (atoi u)
       ∧ (in_int (decimal_value u) → atoi u = decimal_value u)
       ∧ (in_int (decimal_value u) →
            usage_issues ao
            = (if bool_decide (1 < decimal_value u)%Z then 2 else 1)%Z)).
Proof.
  intros Hdid ao ao0.
  destruct (config_resolved_options w Hdid) as (Honly & Husage & Hact).
  fold ao ao0 in Honly, Husage, Hact.
  assert (Hpos : (0 < usage_issues ao)%Z → activate ao = true).
  { intros Hpos. rewrite Hact, (bool_decide_eq_true_2 (0 < _)%Z) by done.
    by rewrite !orb_true_r. }
  split_and!.
  - intros Hsome.
    rewrite Hact, (bool_decide_eq_true_2 (is_Some (only_func ao))) by done.
    by rewrite orb_true_r.
  - rewrite Honly. intros [[name ->]|Henv]; [by eexists|].
    by destruct (only_func ao0).
  - exact Hpos.
  - intros Hnone Hzero. rewrite Hact, Hnone.
    rewrite (bool_decide_eq_false_2 (is_Some (@None string))) by (by intros [? ?]).
    rewrite (bool_decide_eq_false_2 (0 < _)%Z) by lia.
    by rewrite orb_false_r.
  - intros Hunset. by rewrite Husage, Hunset.
  - intros u Hset. rewrite Hset in Husage. split_and!.
    + done.
    + apply Hpos. rewrite Husage. clear.
      destruct (bool_decide (1 < atoi u)%Z); lia.
    + apply atoi_in_int.
    + apply atoi_fits.
    + intros Hfits. by rewrite Husage, (atoi_fits u Hfits).
Qed.
End driver_facts.

Section driver_examples.
Import Toy.

(** In the toy world [bar] calls a function without a record, outside any
    "when": the analysis does not take it from the work list. *)
Lemma toy_takes_none : ¬ takes_unregistered [info foo; info bar].
Proof.
  rewrite takes_unregistered_profiled. apply no_when_no_fault.
  by repeat constructor.
Qed.

Lemma toy_callee_without_record :
  ¬ Taint.callees_registered (profiled_funcs [info foo; info bar]).
Proof.
  intros Hreg. pose proof (proj1 (callees_registered_spec _) Hreg) as Hin.
  specialize (Hin 2 (Examples.prof [5] []) 5).
  apply elem_of_dom in Hin as [pf Hpf]; [done| |].
  - unfold profiled_funcs. cbn. set_solver.
  - cbn. set_solver.
Qed.

(** With [baz] registered, the analysis takes function 9, which has no
    record. *)
Lemma waiting_takes_unregistered : takes_unregistered [info foo; info baz].
Proof.
  exists 9. split; [|done]. apply Taint.visited_seed.
  exists 3, (Examples.prof [] [9]). split.
  - unfold profiled_funcs. cbn. set_solver.
  - cbn. set_solver.
Qed.

(** C2 (counterexample). [ZEEK_XFORM] set, no hook, two functions that
    nothing excludes from reduction: the driver profiles them, hands them
    to the code generator and returns; neither is reduced, and both bodies
    are as registered. *)
Lemma no_function_is_reduced :
  let r := analyze_scripts elements (world {["ZEEK_XFORM" := "1"]} None) in
  r.1 = Normal tt
  ∧ trace r.2 = [EvTraverse 1 0; EvTraverse 2 10; EvCompileTo [1; 2]]
  ∧ map Body (funcs r.2) = [0; 10]
  ∧ map (λ f, sf_bodies (Func f)) (funcs r.2) = [[0]; [10]].
Proof. vm_compute. done. Qed.

(** C2 (witness): the same world, in which [bar] calls a function without
    a record outside any "when", and the world in which [baz] waits on a
    function without a record. *)
Lemma analyze_scripts_generates_toy :
  (∃ w', analyze_scripts elements (world {["ZEEK_XFORM" := "1"]} None)
         = (Normal tt, w')
     ∧ reduction_events (trace w') = [])
  ∧ (∃ w', analyze_scripts elements
             (waiting_world {["ZEEK_XFORM" := "1"]} None)
           = (Crashed, w')
       ∧ trace w' = [EvTraverse 1 0; EvTraverse 3 20]).
Proof.
  split.
  - destruct (analyze_scripts_generates elements
                (world {["ZEEK_XFORM" := "1"]} None)
                valid_elements) as (Hgen & _); [reflexivity..|].
    destruct (Hgen toy_takes_none) as (w' & Hrun & _ & _ & Hquiet).
    exists w'. split; [exact Hrun|exact Hquiet].
  - destruct (analyze_scripts_generates elements
                (waiting_world {["ZEEK_XFORM" := "1"]} None)
                valid_elements) as (_ & Hfault & _); [reflexivity..|].
    destruct (Hfault waiting_takes_unregistered) as (w' & Hrun & Htrace & _).
    exists w'. split; [exact Hrun|exact Htrace].
Defined.

(** C6 (counterexample). A hook is installed and [compiled_funcs] holds a
    native [foo], but only the inliner is requested: the driver returns at
    line 231 and [foo] keeps its interpreted binding. *)
Lemma hook_without_activation :
  let w := world {["ZEEK_INLINE" := "1"]} (Some foo_hook) in
  let r := analyze_scripts elements w in
  is_Some (CPP_init_hook w)
  ∧ r.1 = Normal tt
  ∧ compiled_funcs r.2 !! "foo" = Some 7
  ∧ global_ids r.2 !! "foo" = Some (InterpretedVal 1).
Proof. vm_compute. split; [by eexists|done]. Qed.

(** C6 (witness): the hook installed; with [ZEEK_XFORM] set, with only
    [ZEEK_INLINE] set, and with [ZEEK_XFORM] set and [baz], which waits on
    a function without a record, registered. *)
Lemma analyze_scripts_substitutes_toy :
  (∃ w', analyze_scripts elements
           (world {["ZEEK_XFORM" := "1"]} (Some foo_hook))
         = (Normal tt, w')
     ∧ global_ids w' !! "foo" = Some (NativeVal 7)
     ∧ global_ids w' !! "bar" = Some (InterpretedVal 2)
     ∧ map Body (funcs w') = [0; 10]
     ∧ reduction_events (trace w') = [])
  ∧ global_ids (analyze_scripts elements
                  (world {["ZEEK_INLINE" := "1"]} (Some foo_hook))).2
    = global_ids (world ∅ None)
  ∧ (∃ w', analyze_scripts elements
             (waiting_world {["ZEEK_XFORM" := "1"]} (Some foo_hook))
           = (Crashed, w')
       ∧ global_ids w' = global_ids (world ∅ None)).
Proof.
  split_and!.
  - destruct (analyze_scripts_substitutes elements
                (world {["ZEEK_XFORM" := "1"]} (Some foo_hook)) foo_hook
                valid_elements eq_refl) as (Hsub & _).
    destruct (Hsub (eq_refl true) toy_takes_none)
      as (w' & Hrun & Hfuncs & Hbodies & Hfound & Hmissing & _ & _ & Hquiet).
    exists w'. split; [exact Hrun|]. split_and!.
    + apply (Hfound "foo" 7).
      * unfold registered_name. rewrite Hfuncs. by left.
      * reflexivity.
      * by eexists.
    + by rewrite (Hmissing "bar").
    + by apply Hbodies.
    + exact Hquiet.
  - destruct (analyze_scripts_substitutes elements
                (world {["ZEEK_INLINE" := "1"]} (Some foo_hook)) foo_hook
                valid_elements eq_refl) as (_ & Hoff & _).
    exact (proj1 (Hoff (eq_refl false))).
  - destruct (analyze_scripts_substitutes elements
                (waiting_world {["ZEEK_XFORM" := "1"]} (Some foo_hook)) foo_hook
                valid_elements eq_refl) as (_ & _ & Hfault).
    destruct (Hfault (eq_refl true) waiting_takes_unregistered)
      as (w' & Hrun & Hids & _).
    exists w'. split; [exact Hrun|exact Hids].
Defined.

(** C7 (counterexample). [ZEEK_USAGE_ISSUES=0] and nothing else: the value
    given is 0, the level becomes 1, and activation follows; without the
    variable there is none. *)
Lemma usage_issues_zero_activates :
  let ao := analysis_options
              (config_resolved (world {["ZEEK_USAGE_ISSUES" := "0"]} None)) in
  atoi "0" = 0%Z
  ∧ usage_issues ao = 1%Z
  ∧ activate ao = true
  ∧ activate (analysis_options (config_resolved (world ∅ None))) = false.
Proof. vm_compute. done. Qed.

(** C7 (witness): [ZEEK_ONLY=foo] and [ZEEK_USAGE_ISSUES=2]. *)
Lemma config_implies_activation_toy :
  let w := world {["ZEEK_ONLY" := "foo"; "ZEEK_USAGE_ISSUES" := "2"]} None in
  let ao := analysis_options (config_resolved w) in
  only_func ao = Some "foo" ∧ usage_issues ao = 2%Z ∧ activate ao = true.
Proof.
  intros w ao.
  destruct (config_implies_activation w eq_refl)
    as (Honly & _ & _ & _ & _ & Husage).
  split; [reflexivity|]. split; [exact (proj1 (Husage "2" eq_refl))|].
  apply Honly. by eexists.
Defined.

(** A value beyond the range of [int]: with the GNU library [atoi] returns
    the low 32 bits of what [strtol] returns, and the level is 1. *)
Lemma usage_issues_beyond_int :
  atoi "2147483648" = (-2147483648)%Z
  ∧ atoi "4294967296" = 0%Z
  ∧ usage_issues
      (analysis_options
         (config_resolved (world {["ZEEK_USAGE_ISSUES" := "2147483648"]} None)))
    = 1%Z.
Proof. vm_compute. done. Qed.
End driver_examples.

(** * Further properties *)

Section when_more.
Import Taint.

Lemma seed_without_when order (funcs : list profiled) st :
  Forall (λ p, WhenCalls p.2 = ∅) funcs →
  fold_left (seed_step order) funcs st = st.
Proof.
  intros Hall. revert st. induction Hall as [|p l Hp _ IH]; intros st; [done|].
  simpl. rewrite <-(IH st) at 2. f_equal.
  unfold seed_step. destruct st as [W T]. rewrite Hp, size_empty.
  by rewrite bool_decide_eq_false_2 by lia.
Qed.

(** X1. The "when" set is empty exactly when no record has a call in a "when";
    then the loop makes no pass and looks up no profile, whatever the script
    calls are and whether or not the callees have records. *)
Theorem when_funcs_without_when order (funcs : list profiled) :
  (Forall (λ p, WhenCalls p.2 = ∅) funcs →
     compute_when_funcs order funcs = Done ∅)
  ∧ (valid_order order → compute_when_funcs order funcs = Done ∅ →
       Forall (λ p, WhenCalls p.2 = ∅) funcs).
Proof.
  split.
  - intros Hall. unfold compute_when_funcs, seed.
    rewrite seed_without_when by done.
    by destruct (enough_fuel _).
  - intros Hord Hdone.
    destruct (compute_when_funcs_result order funcs Hord)
      as [(X & HX & Hchar & _)|(Hnull & _)]; [|congruence].
    rewrite Hdone in HX. injection HX as <-.
    apply Forall_forall. intros [f pf] Hin. simpl.
    destruct (decide (WhenCalls pf = ∅)) as [|Hne]; [done|].
    assert (f ∈ (∅ : gset FuncId)) as Hf; [|set_solver].
    apply Hchar. left. by exists pf.
Qed.

(** X2. The analysis dereferences a null profile exactly when a function it takes
    from the work list has no record; when it ends with a set, every member
    of the set has a record. A function called in a "when" that has no record
    always makes it fault. *)
Theorem when_funcs_null_profile order (funcs : list profiled) :
  valid_order order →
  let fp := func_profs funcs in
  let taken := visited fp (is_root funcs) (is_when_callee funcs) in
  (compute_when_funcs order funcs = NullProfile ↔
     ∃ f, taken f ∧ fp !! f = None)
  ∧ (∀ X, compute_when_funcs order funcs = Done X → X ⊆ dom fp)
  ∧ (∀ g, is_when_callee funcs g → fp !! g = None →
       compute_when_funcs order funcs = NullProfile).
Proof.
  intros Hord fp taken.
  assert (Hiff : compute_when_funcs order funcs = NullProfile ↔
                 ∃ f, taken f ∧ fp !! f = None).
  { destruct (compute_when_funcs_result order funcs Hord)
      as [(X & HX & Hchar & Hdom)|(Hnull & f & Hf & Hnone)].
    - split; [congruence|]. intros (f & Hf & Hnone).
      apply Hdom, elem_of_dom in Hf as [pf Hpf]. subst fp. congruence.
    - split; [|done]. intros _. by exists f. }
  split_and!.
  - exact Hiff.
  - intros X HX.
    destruct (compute_when_funcs_result order funcs Hord)
      as [(X' & HX' & Hchar & Hdom)|(Hnull & _)]; [|congruence].
    rewrite HX in HX'. injection HX' as <-.
    intros f [(pf & Hin & _)|Hf]%Hchar.
    + apply func_profs_dom. by exists pf.
    + by apply Hdom.
  - intros g Hg Hnone. apply Hiff. exists g. split; [|done].
    by apply visited_seed.
Qed.

(** X4. [func_profs] holds, for each function, the profile of its last record,
    and nothing for a function without a record. *)
Theorem func_profs_last_record (funcs : list profiled) f :
  func_profs funcs !! f = snd <$> last (filter (λ p, p.1 = f) funcs).
Proof.
  induction funcs as [|x l IH] using rev_ind; [done|].
  rewrite func_profs_snoc, filter_app.
  destruct (decide (x.1 = f)) as [<-|Hne].
  - rewrite lookup_insert_eq, filter_cons_True, filter_nil by done.
    by rewrite last_snoc.
  - rewrite lookup_insert_ne by done.
    rewrite filter_cons_False, filter_nil by done. by rewrite app_nil_r.
Qed.

(** X2 (witness): a registry whose only "when" waits on a function
    without a record. *)
Lemma when_funcs_null_profile_dangling :
  (compute_when_funcs elements Registries.dangling = NullProfile ↔
     ∃ f, visited (func_profs Registries.dangling) (is_root Registries.dangling)
            (is_when_callee Registries.dangling) f
          ∧ func_profs Registries.dangling !! f = None)
  ∧ (∀ X, compute_when_funcs elements Registries.dangling = Done X →
       X ⊆ dom (func_profs Registries.dangling))
  ∧ (∀ g, is_when_callee Registries.dangling g →
       func_profs Registries.dangling !! g = None →
       compute_when_funcs elements Registries.dangling = NullProfile).
Proof.
  exact (when_funcs_null_profile elements Registries.dangling valid_elements).
Defined.

End when_more.

Section optimize_func_more.
Context `{Collaborators}.

Lemma with_trace_same (w : World) : with_trace (trace w) w = w.
Proof. by destruct w. Qed.

Lemma reduction_events_printf (t : list Event) line :
  reduction_events (EvPrintf line :: t) = reduction_events t.
Proof. unfold reduction_events. by rewrite filter_cons_False by done. Qed.

Lemma reduction_events_reduce (t : list Event) f (body : Stmt) :
  reduction_events (EvReduce f body :: t) = EvReduce f body :: reduction_events t.
Proof. unfold reduction_events. by rewrite filter_cons_True by done. Qed.

(** Every exit of [optimize_func], with what it leaves behind. *)
Lemma optimize_func_outcome (f : ScriptFunc) pf scope_ptr (body : Stmt) ao
    (w : World) :
  ∃ f' body' w' delta,
    optimize_func f pf scope_ptr body ao w = (Normal (f', body'), w')
    ∧ trace w' = trace w ++ delta
    ∧ same_process_state w w'
    ∧ (checking_reduction w = false → checking_reduction w' = false)
    ∧ reporter_errors w ≤ reporter_errors w'
    ∧ (sf_id f' = sf_id f ∧ Name f' = Name f ∧ GetScope f' = GetScope f)
    ∧ (reduction_events delta = [] ↔ ¬ guards_pass f pf ao w)
    ∧ (guards_pass f pf ao w →
         ∃ rest, delta = original_lines ao body ++ EvReduce (sf_id f) body :: rest)
    ∧ (¬ guards_pass f pf ao w →
         f' = f ∧ body' = body ∧ reporter_errors w' = reporter_errors w
         ∧ Forall (λ e, ∃ line, e = EvPrintf line) delta).
Proof.
  destruct (reporter_errors w) as [|n] eqn:Herr.
  2:{ exists f, body, w, []. split.
      { run_optimize_func. by rewrite Herr. }
      rewrite app_nil_r, Herr.
      assert (¬ guards_pass f pf ao w) by (intros (He & _); congruence).
      split_and!; try done. }
  destruct (activate ao) eqn:Hact; cycle 1.
  { exists f, body, w, []. split.
    { run_optimize_func. by rewrite Herr, Hact. }
    rewrite app_nil_r, Herr.
    assert (¬ guards_pass f pf ao w) by (intros (_ & Ha & _); congruence).
    split_and!; try done. }
  destruct (only_func_differs ao f) eqn:Honly.
  { exists f, body, w, []. split.
    { run_optimize_func. by rewrite Herr, Hact, Honly. }
    rewrite app_nil_r, Herr.
    assert (¬ guards_pass f pf ao w) by (intros (_ & _ & Ho & _); congruence).
    split_and!; try done. }
  destruct (decide (NumWhenStmts pf = 0 ∧ NumLambdas pf = 0))
    as [[Hwhen Hlam]|Hsusp].
  - assert (Hguards : guards_pass f pf ao w) by by repeat split.
    unfold original_lines.
    destruct (red_errors (Reduce (new_Reducer scope_ptr) scope_ptr body))
      as [|m] eqn:Hred.
    + destruct (bool_decide (is_Some (only_func ao))) eqn:Hof,
        (dump_xform ao) eqn:Hdump,
        (IsReduced (red_body (Reduce (new_Reducer scope_ptr) scope_ptr body))
           (red_rc (Reduce (new_Reducer scope_ptr) scope_ptr body)))
        as [[] [p|]] eqn:Hir;
      (eexists _, _, _, _; split;
       [run_optimize_func; rewrite Herr, Hact, Honly, Hwhen, Hlam, ?Hof; simpl;
        rewrite Hred; simpl; rewrite ?Herr, ?Hir, ?Hof, ?Hdump; simpl;
        reflexivity|]);
      simpl; rewrite ?Herr, <-?app_assoc; simpl;
      (split; [reflexivity|]);
      (split; [by repeat split|]);
      (split; [done|]); (split; [lia|]);
      (split; [by destruct (bool_decide (_ < _)%Z)|]);
      (split; [rewrite ?reduction_events_printf, reduction_events_reduce;
               done|]);
      (split; [intros _; by eexists|done]).
    + destruct (bool_decide (is_Some (only_func ao))) eqn:Hof;
      (eexists f, body, _, _; split;
       [run_optimize_func; rewrite Herr, Hact, Honly, Hwhen, Hlam, ?Hof; simpl;
        rewrite Hred; simpl; rewrite ?Herr; simpl; reflexivity|]);
      simpl; rewrite ?Herr, <-?app_assoc; simpl;
      (split; [reflexivity|]);
      (split; [by repeat split|]);
      (split; [done|]); (split; [lia|]);
      (split; [done|]);
      (split; [rewrite ?reduction_events_printf, reduction_events_reduce;
               done|]);
      (split; [intros _; by eexists|done]).
  - assert (Hguards : ¬ guards_pass f pf ao w).
    { intros (_ & _ & _ & ? & ?). by apply Hsusp. }
    assert (bool_decide (0 < NumWhenStmts pf) || bool_decide (0 < NumLambdas pf)
            = true) as Hskip.
    { apply orb_true_iff. rewrite !bool_decide_eq_true. lia. }
    destruct (bool_decide (is_Some (only_func ao))) eqn:Hof;
      (eexists f, body, _, _; split;
       [run_optimize_func; rewrite Herr, Hact, Honly, ?Hof; simpl;
        rewrite Hskip; simpl; reflexivity|]);
      simpl; rewrite ?Herr, <-?app_assoc; simpl.
    + split; [reflexivity|]. split; [by repeat split|].
      split_and!; try done. repeat constructor; by eexists.
    + split; [symmetry; apply app_nil_r|]. split; [by repeat split|].
      split_and!; try done.
Qed.

(** X5. Whatever its arguments and the state, a call of [optimize_func] returns,
    and leaves the scope stack, the options, the hook, the environment, the
    table of compiled functions and the global identifiers as it found
    them; it does not leave [checking_reduction] set, only adds
    to what was printed and called, and returns the function under the same
    identity, name and scope. *)
Theorem optimize_func_keeps_state (f : ScriptFunc) pf scope_ptr (body : Stmt) ao
    (w : World) :
  ∃ f' body' w',
    optimize_func f pf scope_ptr body ao w = (Normal (f', body'), w')
    ∧ same_process_state w w'
    ∧ (checking_reduction w = false → checking_reduction w' = false)
    ∧ (∃ delta, trace w' = trace w ++ delta)
    ∧ sf_id f' = sf_id f ∧ Name f' = Name f ∧ GetScope f' = GetScope f.
Proof.
  destruct (optimize_func_outcome f pf scope_ptr body ao w)
    as (f' & body' & w' & delta & Hrun & Htrace & Hstate & Hchk & Herrs & Hid & _).
  exists f', body', w'. split_and!; try done; [by exists delta|apply Hid..].
Qed.

(** X6. The reducer is called exactly when the four guards of lines 32 to 50
    let the call through, and then on the body given, with only the
    "Original" line before it. When a guard holds the call back, the
    function, the body and the error count are as they were, and all the
    call does is print. *)
Theorem optimize_func_reduces_iff_guards (f : ScriptFunc) pf scope_ptr
    (body : Stmt) ao (w : World) :
  ∃ f' body' w' delta,
    optimize_func f pf scope_ptr body ao w = (Normal (f', body'), w')
    ∧ trace w' = trace w ++ delta
    ∧ (reduction_events delta ≠ [] ↔ guards_pass f pf ao w)
    ∧ (guards_pass f pf ao w →
         ∃ rest, delta = original_lines ao body ++ EvReduce (sf_id f) body :: rest)
    ∧ (¬ guards_pass f pf ao w →
         f' = f ∧ body' = body ∧ reporter_errors w' = reporter_errors w
         ∧ Forall (λ e, ∃ line, e = EvPrintf line) delta).
Proof.
  destruct (optimize_func_outcome f pf scope_ptr body ao w)
    as (f' & body' & w' & delta & Hrun & Htrace & _ & _ & _ & _
        & Hiff & Hyes & Hno).
  exists f', body', w', delta. split_and!; try done.
  split.
  - intros Hne. destruct (decide (reporter_errors w = 0 ∧ activate ao = true
      ∧ only_func_differs ao f = false ∧ NumWhenStmts pf = 0
      ∧ NumLambdas pf = 0)) as [|Hn]; [done|].
    destruct Hne. by apply Hiff.
  - intros Hg Hnil. by apply Hiff in Hnil.
Qed.

(** X7. A function with a "when" statement or a lambda is never reduced: the
    call returns with the function, the body and the state as they were,
    having printed, under an only-function filter that names the function,
    the "Original" line and then the "Skipping" line, and nothing
    otherwise. *)
Theorem optimize_func_skips_when_and_lambdas (f : ScriptFunc) pf scope_ptr
    (body : Stmt) ao (w : World) :
  reporter_errors w = 0 → activate ao = true → only_func_differs ao f = false →
  0 < NumWhenStmts pf ∨ 0 < NumLambdas pf →
  optimize_func f pf scope_ptr body ao w
  = (Normal (f, body),
     with_trace (trace w ++ original_lines ao body ++ skipping_lines ao) w).
Proof.
  intros Herr Hact Honly Hsusp.
  assert (bool_decide (0 < NumWhenStmts pf) || bool_decide (0 < NumLambdas pf)
          = true) as Hskip.
  { apply orb_true_iff. by rewrite !bool_decide_eq_true. }
  unfold original_lines, skipping_lines.
  destruct (bool_decide (is_Some (only_func ao))) eqn:Hof;
    run_optimize_func; rewrite Herr, Hact, Honly, ?Hof; simpl;
    rewrite Hskip; simpl.
  - by rewrite <-app_assoc.
  - by rewrite app_nil_r, with_trace_same.
Qed.

End optimize_func_more.

Section analyze_func_more.
Context `{Collaborators}.

Lemma analyze_func_run (f : ScriptFunc) (w : World) :
  analyze_func f w
  = (Normal tt,
     if only_func_differs (analysis_options w) f then w
     else with_funcs (funcs w ++ [new_record f]) w).
Proof.
  unfold analyze_func, call, analyze_func_body, mbind, M_bind, get.
  cbn beta iota. by destruct (only_func_differs (analysis_options w) f).
Qed.

(** X8. A sequence of calls of [analyze_func] appends to [funcs] one record for
    each function that passes the only-function filter of the options, in
    the order of the calls and with repetitions kept; each record holds the
    function, its scope and its current body, and no profile. Nothing else
    of the state changes, and a function the filter excludes leaves no
    trace at all. *)
Theorem analyze_each_appends (fs : list ScriptFunc) (w : World) :
  analyze_each fs w
  = (Normal tt,
     with_funcs
       (funcs w ++ map new_record
          (filter (λ f, only_func_differs (analysis_options w) f = false) fs))
       w).
Proof.
  revert w. induction fs as [|f fs IH]; intros w.
  - cbn. by rewrite app_nil_r, with_funcs_same.
  - cbn [analyze_each]. unfold mbind, M_bind. rewrite analyze_func_run.
    cbn beta iota. rewrite IH.
    destruct (only_func_differs (analysis_options w) f) eqn:Hd.
    + by rewrite filter_cons_False by (by rewrite Hd).
    + rewrite filter_cons_True by done. cbn. by rewrite <-app_assoc.
Qed.
End analyze_func_more.

Section driver_more.
Context `{Collaborators}.

Lemma hook_runs_app (t1 t2 : list Event) :
  hook_runs (t1 ++ t2) = hook_runs t1 + hook_runs t2.
Proof. unfold hook_runs. by rewrite filter_app, length_app. Qed.

Lemma hook_runs_quiet (t : list Event) :
  Forall (λ e, is_hook_event e = false) t → hook_runs t = 0.
Proof.
  unfold hook_runs. induction 1 as [|e t He _ IH]; [done|].
  rewrite filter_cons_False; [done|]. by rewrite He.
Qed.

Lemma same_config_refl (w : World) : same_config w w.
Proof. by repeat split. Qed.

Lemma same_config_trans (w1 w2 w3 : World) :
  same_config w1 w2 → same_config w2 w3 → same_config w1 w3.
Proof.
  intros (? & ? & ? & ?) (? & ? & ? & ?). repeat split; congruence.
Qed.

Lemma same_config_emit (w : World) (t : list Event) :
  Forall (λ e, is_hook_event e = false) t →
  same_config w (with_trace (trace w ++ t) w).
Proof.
  intros Ht. repeat split. cbn [trace with_trace].
  rewrite hook_runs_app, (hook_runs_quiet t Ht). lia.
Qed.

Lemma same_config_with_funcs (w : World) fs : same_config w (with_funcs fs w).
Proof. by repeat split. Qed.

Lemma same_config_profiled (w : World) : same_config w (profiled_world w).
Proof.
  unfold profiled_world.
  eapply same_config_trans; [|apply same_config_with_funcs].
  apply same_config_emit, Forall_map, Forall_true. done.
Qed.

Lemma same_config_inlined (w : World) : same_config w (inlined_world w).
Proof.
  unfold inlined_world. destruct (inliner (analysis_options w));
    [|apply same_config_refl].
  eapply same_config_trans; [|apply same_config_with_funcs].
  apply same_config_emit. by repeat constructor.
Qed.

Lemma same_config_rebind (w : World) f : same_config w (rebind w f).
Proof.
  unfold rebind. destruct (compiled_funcs w !! Name (Func f)) as [cf|];
    [|apply same_config_refl].
  case_bool_decide; [|apply same_config_refl].
  eapply same_config_trans;
    [apply (same_config_emit w [EvSetVal (Name (Func f)) cf])|];
    by repeat constructor.
Qed.

Lemma same_config_fold_rebind (fs : list FuncInfo) (w : World) :
  same_config w (fold_left rebind fs w).
Proof.
  revert w. induction fs as [|f fs IH]; intros w; [apply same_config_refl|].
  cbn [fold_left]. eapply same_config_trans; [apply same_config_rebind|apply IH].
Qed.

Lemma analyze_scripts_same_config order (w : World) :
  same_config (config_resolved w) (analyze_scripts order w).2.
Proof.
  rewrite analyze_scripts_cases.
  assert (Han : same_config (config_resolved w) (analysed_world w)).
  { unfold analysed_world.
    eapply same_config_trans; [apply same_config_profiled|].
    apply same_config_inlined. }
  destruct (negb (analyses_on _)); [apply same_config_refl|].
  destruct (Taint.compute_when_funcs order _); cbn [snd];
    [|apply same_config_profiled..].
  destruct (negb (activate _)); [done|].
  destruct (bool_decide _).
  - eapply same_config_trans; [exact Han|apply same_config_fold_rebind].
  - eapply same_config_trans; [exact Han|].
    apply same_config_emit. by repeat constructor.
Qed.

Lemma trace_check_env_opt opt sf (w : World) :
  trace (check_env_opt opt sf w) = trace w.
Proof. unfold check_env_opt. by case_bool_decide. Qed.

Lemma trace_read_usage_issues (w : World) : trace (read_usage_issues w) = trace w.
Proof. unfold read_usage_issues. by destruct (environ w !! _). Qed.

Lemma trace_read_only_func (w : World) : trace (read_only_func w) = trace w.
Proof.
  unfold read_only_func. case_bool_decide; [done|]. by destruct (environ w !! _).
Qed.

Lemma trace_imply_activate (w : World) : trace (imply_activate w) = trace w.
Proof. unfold imply_activate. by destruct (_ || _). Qed.

Lemma trace_run_init_hook (w : World) :
  trace (run_init_hook w)
  = trace w ++ match CPP_init_hook w with Some _ => [EvHook] | None => [] end.
Proof.
  unfold run_init_hook. destruct (CPP_init_hook w); [done|].
  by rewrite app_nil_r.
Qed.

Lemma config_resolved_trace (w : World) :
  trace (config_resolved w)
  = trace w ++ (if did_init w then []
                else match CPP_init_hook w with
                     | Some _ => [EvHook]
                     | None => []
                     end).
Proof.
  rewrite (proj2 (config_resolved_eq w)). destruct (did_init w).
  { by rewrite app_nil_r. }
  change (trace (with_did_init true ?x)) with (trace x).
  by rewrite trace_imply_activate, trace_read_only_func, trace_read_usage_issues,
    !trace_check_env_opt, trace_run_init_hook.
Qed.

Lemma config_resolved_did_init (w : World) : did_init (config_resolved w) = true.
Proof.
  rewrite (proj2 (config_resolved_eq w)). by destruct (did_init w) eqn:Hd.
Qed.

Lemma config_resolved_again (w : World) :
  did_init w = true → config_resolved w = w.
Proof. intros Hd. by rewrite (proj2 (config_resolved_eq w)), Hd. Qed.


(** The options as lines 129 to 150 leave them, one step after the other. *)
Lemma config_resolved_options_steps (w : World) :
  did_init w = false →
  let env := environ w in
  let ao1 := options_after_hook w in
  let ao2 := if bool_decide (is_Some (env !! "ZEEK_DUMP_XFORM"))
             then set_dump_xform true ao1 else ao1 in
  let ao3 := if bool_decide (is_Some (env !! "ZEEK_INLINE"))
             then set_inliner true ao2 else ao2 in
  let ao4 := if bool_decide (is_Some (env !! "ZEEK_XFORM"))
             then set_activate true ao3 else ao3 in
  let ao5 := match env !! "ZEEK_USAGE_ISSUES" with
             | Some u =>
                 set_usage_issues (if bool_decide (1 < atoi u)%Z then 2 else 1)%Z
                   ao4
             | None => ao4
             end in
  let ao6 := match only_func ao5, env !! "ZEEK_ONLY" with
             | None, Some zo => set_only_func (Some zo) ao5
             | _, _ => ao5
             end in
  analysis_options (config_resolved w)
  = if bool_decide (is_Some (only_func ao6))
       || bool_decide (0 < usage_issues ao6)%Z
    then set_activate true ao6 else ao6.
Proof.
  intros Hdid. cbv zeta.
  rewrite (proj2 (config_resolved_eq w)), Hdid.
  rewrite options_with_did_init.
  rewrite <-run_init_hook_options.
  rewrite <-(quiet_environ run_init_hook w quiet_run_init_hook).
  generalize (run_init_hook w). clear w Hdid. intros w1.
  set (w2 := check_env_opt "ZEEK_DUMP_XFORM" set_dump_xform w1).
  set (w3 := check_env_opt "ZEEK_INLINE" set_inliner w2).
  set (w4 := check_env_opt "ZEEK_XFORM" set_activate w3).
  set (w5 := read_usage_issues w4).
  set (w6 := read_only_func w5).
  pose proof (quiet_environ _ w1 (quiet_check_env_opt "ZEEK_DUMP_XFORM" set_dump_xform)) as E2.
  pose proof (quiet_environ _ w2 (quiet_check_env_opt "ZEEK_INLINE" set_inliner)) as E3.
  pose proof (quiet_environ _ w3 (quiet_check_env_opt "ZEEK_XFORM" set_activate)) as E4.
  pose proof (quiet_environ _ w4 quiet_read_usage_issues) as E5.
  pose proof (check_env_opt_options "ZEEK_DUMP_XFORM" set_dump_xform w1) as O2.
  pose proof (check_env_opt_options "ZEEK_INLINE" set_inliner w2) as O3.
  pose proof (check_env_opt_options "ZEEK_XFORM" set_activate w3) as O4.
  pose proof (read_usage_issues_options w4) as O5.
  pose proof (read_only_func_options w5) as O6.
  pose proof (imply_activate_options w6) as O7.
  fold w2 in E2, E3, O2, O3. fold w3 in E3, E4, O3, O4.
  fold w4 in E4, E5, O4, O5. fold w5 in E5, O5, O6. fold w6 in O6, O7.
  clearbody w2 w3 w4 w5 w6.
  rewrite E5, E4, E3, E2 in O6. rewrite E4, E3, E2 in O5.
  rewrite E3, E2 in O4. rewrite E2 in O3. clear E2 E3 E4 E5.
  rewrite O7, O6, O5, O4, O3, O2. reflexivity.
Qed.

Lemma config_resolved_flags (w : World) :
  did_init w = false →
  let ao := analysis_options (config_resolved w) in
  let ao0 := options_after_hook w in
  dump_xform ao
  = dump_xform ao0 || bool_decide (is_Some (environ w !! "ZEEK_DUMP_XFORM"))
  ∧ inliner ao
    = inliner ao0 || bool_decide (is_Some (environ w !! "ZEEK_INLINE"))
  ∧ report_recursive ao = report_recursive ao0.
Proof.
  intros Hdid. cbv zeta. rewrite (config_resolved_options_steps w Hdid).
  generalize (options_after_hook w). intros [onl act dx inl rr ui].
  destruct (bool_decide (is_Some (environ w !! "ZEEK_DUMP_XFORM"))),
    (bool_decide (is_Some (environ w !! "ZEEK_INLINE"))),
    (bool_decide (is_Some (environ w !! "ZEEK_XFORM"))),
    (environ w !! "ZEEK_USAGE_ISSUES") as [u|],
    onl as [name|], (environ w !! "ZEEK_ONLY") as [zo|];
    cbn; rewrite ?orb_true_r, ?orb_false_r;
    repeat match goal with
           | |- context [bool_decide ?P] => destruct (bool_decide P); cbn
           end;
    rewrite ?orb_true_r, ?orb_false_r; done.
Qed.


(** X10. The configuration is resolved once. Whatever the outcome of a call of
    [analyze_scripts], [did_init] is set afterwards and the options are those
    the resolution left; the hook was called by it at most once, and only if
    [did_init] was not yet set. A later call, whatever the environment and
    the hook have become in between, calls no hook, reads no variable and
    leaves the options and the table of compiled functions as they are. *)
Theorem analyze_scripts_resolves_once order1 order2 (w : World) :
  let w1 := (analyze_scripts order1 w).2 in
  did_init w1 = true
  ∧ analysis_options w1 = analysis_options (config_resolved w)
  ∧ hook_runs (trace w1)
    = hook_runs (trace w)
      + (if did_init w then 0
         else match CPP_init_hook w with Some _ => 1 | None => 0 end)
  ∧ ∀ env hook,
      let w2 :=
        (analyze_scripts order2 (with_environ env (with_hook hook w1))).2 in
      did_init w2 = true
      ∧ analysis_options w2 = analysis_options w1
      ∧ compiled_funcs w2 = compiled_funcs w1
      ∧ hook_runs (trace w2) = hook_runs (trace w1).
Proof.
  intros w1. subst w1.
  destruct (analyze_scripts_same_config order1 w) as (Hopt & Hdid & Hcf & Hhook).
  rewrite config_resolved_did_init in Hdid.
  split_and!; [done|done| |].
  - rewrite Hhook, config_resolved_trace, hook_runs_app. f_equal.
    destruct (did_init w); [done|]. by destruct (CPP_init_hook w).
  - intros env hook.
    set (w1' := with_environ env (with_hook hook (analyze_scripts order1 w).2)).
    cbv zeta.
    destruct (analyze_scripts_same_config order2 w1')
      as (Hopt2 & Hdid2 & Hcf2 & Hhook2).
    rewrite (config_resolved_again w1') in Hopt2, Hdid2, Hcf2, Hhook2 by done.
    rewrite Hopt2, Hdid2, Hcf2, Hhook2. done.
Qed.

(** X11. With nothing asked for, [analyze_scripts] does nothing: when, after the
    hook, neither [activate] nor [inliner] is set, there is no only-function
    filter and no usage-issues level, and none of [ZEEK_XFORM],
    [ZEEK_INLINE], [ZEEK_ONLY] and [ZEEK_USAGE_ISSUES] is in the environment,
    the call returns after resolving the configuration. No record is
    profiled, no profile is looked up (so a registry with callees that have
    no record does not fault), nothing but the hook is called and no
    identifier is rebound. [ZEEK_DUMP_XFORM] alone changes nothing of
    this. *)
Theorem analyze_scripts_disabled order (w : World) :
  did_init w = false →
  let ao0 := options_after_hook w in
  activate ao0 = false → inliner ao0 = false → only_func ao0 = None →
  (usage_issues ao0 ≤ 0)%Z →
  environ w !! "ZEEK_XFORM" = None → environ w !! "ZEEK_INLINE" = None →
  environ w !! "ZEEK_ONLY" = None → environ w !! "ZEEK_USAGE_ISSUES" = None →
  ∃ w', analyze_scripts order w = (Normal tt, w')
    ∧ funcs w' = funcs w
    ∧ global_ids w' = global_ids w
    ∧ trace w' = trace w ++ match CPP_init_hook w with
                            | Some _ => [EvHook]
                            | None => []
                            end
    ∧ did_init w' = true.
Proof.
  intros Hdid ao0 Hact Hinl Honly Husage Hx Hi Ho Hu.
  destruct (config_resolved_options w Hdid) as (Honly' & Husage' & Hact').
  destruct (config_resolved_flags w Hdid) as (_ & Hinl' & _).
  fold ao0 in Honly', Husage', Hact', Hinl'.
  rewrite Honly, Ho in Honly'. rewrite Hu in Husage'.
  rewrite Hact, Hx, Honly', Husage' in Hact'. rewrite Hinl, Hi in Hinl'.
  rewrite (bool_decide_eq_false_2 (0 < _)%Z) in Hact' by lia.
  exists (config_resolved w). split; [by apply analyze_scripts_idle|].
  destruct (config_resolved_untouched w) as [(_ & Hids & _) Hfuncs].
  split_and!; [done|done| |apply config_resolved_did_init].
  by rewrite config_resolved_trace, Hdid.
Qed.

(** X12. The environment only switches options on. [ZEEK_DUMP_XFORM] and
    [ZEEK_INLINE], when set, to any value, set [dump_xform] and [inliner],
    and an option that the caller or the hook had set stays set;
    [report_recursive] is not touched; an only-function filter given by the
    caller or the hook is kept, and [ZEEK_ONLY] is used only when there is
    none. *)
Theorem config_environment_only_enables (w : World) :
  did_init w = false →
  let ao := analysis_options (config_resolved w) in
  let ao0 := options_after_hook w in
  dump_xform ao
  = dump_xform ao0 || bool_decide (is_Some (environ w !! "ZEEK_DUMP_XFORM"))
  ∧ inliner ao
    = inliner ao0 || bool_decide (is_Some (environ w !! "ZEEK_INLINE"))
  ∧ report_recursive ao = report_recursive ao0
  ∧ only_func ao = match only_func ao0 with
                   | Some name => Some name
                   | None => environ w !! "ZEEK_ONLY"
                   end
  ∧ (activate ao0 = true → activate ao = true).
Proof.
  intros Hdid ao ao0.
  destruct (config_resolved_options w Hdid) as (Honly & _ & Hact).
  destruct (config_resolved_flags w Hdid) as (Hdump & Hinl & Hrr).
  split_and!; [done..|].
  intros Hon. fold ao ao0 in Hact. by rewrite Hact, Hon.
Qed.


Lemma compute_when_funcs_any_order order1 order2 (ps : list Taint.profiled) :
  Taint.valid_order order1 → Taint.valid_order order2 →
  Taint.compute_when_funcs order1 ps = Taint.compute_when_funcs order2 ps.
Proof.
  intros Hord1 Hord2.
  destruct (compute_when_funcs_result order1 ps Hord1)
    as [(X1 & -> & Hchar1 & Hdom1)|(-> & f1 & Hf1 & Hnone1)];
  destruct (compute_when_funcs_result order2 ps Hord2)
    as [(X2 & -> & Hchar2 & Hdom2)|(-> & f2 & Hf2 & Hnone2)].
  - f_equal. apply set_eq. intros f. by rewrite Hchar1, Hchar2.
  - apply Hdom1, elem_of_dom in Hf2 as [pf Hpf]. congruence.
  - apply Hdom2, elem_of_dom in Hf1 as [pf Hpf]. congruence.
  - done.
Qed.

(** X15. The order in which the sets are iterated has no effect on a call of
    [analyze_scripts]: whether it returns or faults, and the state it
    leaves, are the same under any two orders. *)
Theorem analyze_scripts_any_order order1 order2 (w : World) :
  Taint.valid_order order1 → Taint.valid_order order2 →
  analyze_scripts order1 w = analyze_scripts order2 w.
Proof.
  intros Hord1 Hord2. rewrite !analyze_scripts_cases.
  by rewrite (compute_when_funcs_any_order order1 order2 _ Hord1 Hord2).
Qed.

(** X14. A call of [analyze_scripts] faults, by dereferencing a null profile,
    exactly when the analyses are asked for ([activate] or [inliner] after
    the resolution) and a function that the loop takes from its work list
    has no record. It then stops right after profiling: no inliner, no
    substitution and no generation have run. In every other case the call
    returns. *)
Theorem analyze_scripts_null_profile order (w : World) :
  Taint.valid_order order →
  let c := config_resolved w in
  let r := analyze_scripts order w in
  (r.1 = Crashed ↔
     analyses_on (analysis_options c) = true ∧ takes_unregistered (funcs w))
  ∧ (r.1 = Crashed → r.2 = profiled_world c)
  ∧ (r.1 ≠ Crashed → r.1 = Normal tt).
Proof.
  intros Hord c r. subst c r. rewrite analyze_scripts_cases.
  destruct (analyses_on (analysis_options (config_resolved w))); cbn [negb].
  2:{ split_and!; [|done..]. split; [done|]. by intros [? _]. }
  unfold takes_unregistered, taken_from_work_list.
  destruct (compute_when_funcs_result order (profiled_funcs (funcs w)) Hord)
    as [(X & -> & Hchar & Hdom)|(-> & f & Hf & Hnone)]; cbn [fst snd].
  - split_and!; [|done..]. split; [done|].
    intros [_ (f & Hf & Hnone)].
    apply Hdom, elem_of_dom in Hf as [pf Hpf]. congruence.
  - split_and!; [|done..]. split; [|done]. intros _. split; [done|].
    by exists f.
Qed.

(** X13. With the inliner asked for and no activation, and the "when"
    analysis taking from its work list no function without a record,
    [analyze_scripts] profiles every record, runs the "when" analysis, hands
    the records to the inliner with the [report_recursive] option, and
    returns: nothing is generated, no identifier is rebound, and the table
    of compiled functions is as the resolution left it. *)
Theorem analyze_scripts_inliner_only order (w : World) :
  Taint.valid_order order →
  let ao := analysis_options (config_resolved w) in
  activate ao = false → inliner ao = true →
  ¬ takes_unregistered (funcs w) →
  ∃ w', analyze_scripts order w = (Normal tt, w')
    ∧ funcs w'
      = (run_Inliner (profile_all (funcs w)) (report_recursive ao)).1
    ∧ trace w'
      = trace (config_resolved w)
        ++ map (λ f, EvTraverse (sf_id (Func f)) (Body f)) (funcs w)
        ++ [EvInliner]
    ∧ global_ids w' = global_ids w
    ∧ compiled_funcs w' = compiled_funcs (config_resolved w).
Proof.
  intros Hord ao Hact Hinl Hreg. rewrite takes_unregistered_profiled in Hreg.
  destruct (proj2 (compute_when_funcs_fault order _ Hord) Hreg) as [X HX].
  exists (analysed_world w). split.
  { rewrite analyze_scripts_cases. unfold analyses_on. fold ao.
    by rewrite Hact, Hinl, HX. }
  destruct (analysed_world_facts w) as (Hfuncs & (_ & Hids & _) & Hcfs).
  destruct (config_resolved_untouched w) as [_ Hfuncs0].
  split_and!; [|
    |done..].
  - rewrite Hfuncs. unfold after_inliner. fold ao. by rewrite Hinl.
  - unfold analysed_world, inlined_world.
    change (analysis_options (profiled_world (config_resolved w))) with ao.
    rewrite Hinl. unfold profiled_world. cbn [trace with_trace with_funcs].
    by rewrite Hfuncs0, <-app_assoc.
Qed.

Lemma profile_all_again (fs : list FuncInfo) :
  profile_all (profile_all fs) = profile_all fs
  ∧ profiled_funcs (profile_all fs) = profiled_funcs fs.
Proof. unfold profile_all, profiled_funcs. by rewrite !map_map. Qed.

Lemma registered_name_profile_all (fs : list FuncInfo) name :
  registered_name (profile_all fs) name ↔ registered_name fs name.
Proof.
  unfold registered_name, profile_all. rewrite Exists_fmap. done.
Qed.

(** X16. Substitution is idempotent. After a call of [analyze_scripts] that
    substituted (a hook installed, activation in effect, the inliner off,
    and the "when" analysis taking from its work list no function without a
    record), a second call rebinds the same identifiers to the same native
    functions: the global identifiers and the records are the same after it
    as before it, and the hook is not called again. *)
Theorem substitution_is_idempotent order1 order2 (w : World) h :
  Taint.valid_order order1 → Taint.valid_order order2 →
  activate (analysis_options (config_resolved w)) = true →
  inliner (analysis_options (config_resolved w)) = false →
  CPP_init_hook w = Some h →
  ¬ takes_unregistered (funcs w) →
  let r1 := analyze_scripts order1 w in
  let r2 := analyze_scripts order2 r1.2 in
  r1.1 = Normal tt ∧ r2.1 = Normal tt
  ∧ global_ids r2.2 = global_ids r1.2
  ∧ funcs r2.2 = funcs r1.2
  ∧ hook_runs (trace r2.2) = hook_runs (trace r1.2).
Proof.
  intros Hord1 Hord2 Hact Hinl Hhook Hreg. cbv zeta.
  rewrite takes_unregistered_profiled in Hreg.
  destruct (proj2 (compute_when_funcs_fault order1 _ Hord1) Hreg) as [X1 HX1].
  destruct (proj2 (compute_when_funcs_fault order2 _ Hord2) Hreg) as [X2 HX2].
  (* the first call *)
  assert (Hr1 : analyze_scripts order1 w
                = (Normal tt,
                   fold_left rebind (funcs (analysed_world w)) (analysed_world w))).
  { rewrite analyze_scripts_cases. unfold analyses_on.
    rewrite Hact, HX1, Hhook. cbn [orb negb].
    by rewrite bool_decide_eq_true_2 by by eexists. }
  destruct (analyze_scripts_same_config order1 w) as (Hopt1 & Hdid1 & _).
  rewrite config_resolved_did_init in Hdid1.
  rewrite Hr1 in Hopt1, Hdid1 |- *. cbn [fst snd] in Hopt1, Hdid1 |- *.
  destruct (analysed_world_facts w) as (Hfuncs3 & (Hhook3 & Hids3 & _) & Hcfs3).
  unfold after_inliner in Hfuncs3. rewrite Hinl in Hfuncs3.
  destruct (fold_rebind_spec (funcs (analysed_world w)) (analysed_world w))
    as (Hcfs1 & Hhook1 & _ & Hids1).
  pose proof (fold_rebind_funcs (funcs (analysed_world w)) (analysed_world w))
    as Hfuncs1.
  cbv zeta in Hcfs1, Hhook1, Hids1.
  rewrite Hfuncs3 in Hopt1, Hdid1, Hcfs1, Hhook1, Hfuncs1, Hids1 |- *.
  rewrite Hhook3, Hhook in Hhook1.
  clear Hr1 HX1 Hfuncs3 Hhook3 Hcfs3.
  remember (fold_left rebind (profile_all (funcs w)) (analysed_world w))
    as w1 eqn:Hw1. clear Hw1.
  (* the second call *)
  assert (Hr2 : analyze_scripts order2 w1
                = (Normal tt,
                   fold_left rebind (funcs (analysed_world w1)) (analysed_world w1))).
  { rewrite analyze_scripts_cases.
    rewrite (config_resolved_again w1 Hdid1), Hopt1. unfold analyses_on.
    rewrite Hact, Hfuncs1, (proj2 (profile_all_again _)), HX2. cbn [orb negb].
    rewrite Hhook1. by rewrite bool_decide_eq_true_2 by by eexists. }
  destruct (analyze_scripts_same_config order2 w1) as (_ & _ & _ & Hruns).
  rewrite (config_resolved_again w1 Hdid1) in Hruns.
  rewrite Hr2 in Hruns |- *. cbn [fst snd] in Hruns |- *.
  destruct (analysed_world_facts w1) as (Hfuncs3' & (_ & Hids3' & _) & Hcfs3').
  rewrite (config_resolved_again w1 Hdid1) in Hfuncs3', Hcfs3'.
  unfold after_inliner in Hfuncs3'. rewrite Hopt1, Hinl in Hfuncs3'.
  rewrite Hfuncs1, (proj1 (profile_all_again _)) in Hfuncs3'.
  destruct (fold_rebind_spec (funcs (analysed_world w1)) (analysed_world w1))
    as (_ & _ & _ & Hids2).
  pose proof (fold_rebind_funcs (funcs (analysed_world w1)) (analysed_world w1))
    as Hfuncs2.
  cbv zeta in Hids2. rewrite Hfuncs3' in Hruns, Hfuncs2, Hids2 |- *.
  clear Hr2 HX2.
  remember (fold_left rebind (profile_all (funcs w)) (analysed_world w1))
    as w2 eqn:Hw2. clear Hw2.
  split_and!; [done|done| |congruence|done].
  apply map_eq. intros name. rewrite Hids2, Hcfs3', Hcfs1, Hids3', Hids1.
  destruct (compiled_funcs (analysed_world w) !! name) as [cf|]; [|done].
  destruct (decide (Exists (λ f, Name (Func f) = name) (profile_all (funcs w))
                    ∧ is_Some (global_ids (analysed_world w) !! name)))
    as [[Hex Hsome]|Hno].
  - by destruct (decide _).
  - by rewrite decide_False.
Qed.

(** X9. [ZEEK_ONLY] filters the registration only from the first call of
    [analyze_scripts] on. Before it, with no filter in the options,
    [analyze_func] registers a function whatever its name; after it, the
    name read from [ZEEK_ONLY] is the filter, and [analyze_func] registers
    a function exactly when it has that name. *)
Theorem zeek_only_filters_after_first_run order (w : World) (f : ScriptFunc)
    name :
  did_init w = false →
  only_func (analysis_options w) = None →
  only_func (options_after_hook w) = None →
  environ w !! "ZEEK_ONLY" = Some name →
  analyze_func f w = (Normal tt, with_funcs (funcs w ++ [new_record f]) w)
  ∧ let w1 := (analyze_scripts order w).2 in
    analyze_func f w1
    = (Normal tt,
       if decide (Name f = name)
       then with_funcs (funcs w1 ++ [new_record f]) w1 else w1).
Proof.
  intros Hdid Hnone Hnone' Henv. split.
  - rewrite analyze_func_run. unfold only_func_differs. by rewrite Hnone.
  - cbv zeta. rewrite analyze_func_run.
    destruct (analyze_scripts_same_config order w) as (Hopt & _).
    destruct (config_resolved_options w Hdid) as (Honly & _).
    rewrite Hnone', Henv in Honly.
    unfold only_func_differs. rewrite Hopt, Honly.
    destruct (decide (Name f = name)) as [->|Hne].
    + by rewrite bool_decide_eq_false_2 by (intros Hn; by apply Hn).
    + by rewrite bool_decide_eq_true_2 by (intros Hn; by apply Hne).
Qed.

End driver_more.

Section when_roots.
Import Taint.

Lemma with_calls_of_snoc f calls (l : list profiled) x :
  with_calls_of f calls (l ++ [x])
  = with_calls_of f calls l
    ++ [if decide (x.1 = f) then (x.1, with_script_calls (calls x.2) x.2) else x].
Proof. unfold with_calls_of. by rewrite map_app. Qed.

Lemma with_calls_of_lookup f calls (funcs : list profiled) g :
  (g ≠ f → func_profs (with_calls_of f calls funcs) !! g = func_profs funcs !! g)
  ∧ (is_Some (func_profs (with_calls_of f calls funcs) !! g)
     ↔ is_Some (func_profs funcs !! g)).
Proof.
  induction funcs as [|x l [IH1 IH2]] using rev_ind; [done|].
  rewrite with_calls_of_snoc, !func_profs_snoc.
  destruct (decide (x.1 = f)) as [Hx|Hx]; cbn [fst snd].
  - split.
    + intros Hg. rewrite !lookup_insert_ne by congruence. by apply IH1.
    + destruct (decide (x.1 = g)) as [<-|Hne].
      * rewrite !lookup_insert_eq. split; by eexists.
      * by rewrite !lookup_insert_ne.
  - split.
    + intros Hg. destruct (decide (x.1 = g)) as [<-|Hne].
      * by rewrite !lookup_insert_eq.
      * rewrite !lookup_insert_ne by done. by apply IH1.
    + destruct (decide (x.1 = g)) as [<-|Hne].
      * rewrite !lookup_insert_eq. split; by eexists.
      * by rewrite !lookup_insert_ne.
Qed.

Lemma with_calls_of_elem f calls (funcs : list profiled) g pf :
  (g, pf) ∈ with_calls_of f calls funcs →
  ∃ pf', (g, pf') ∈ funcs ∧ WhenCalls pf' = WhenCalls pf.
Proof.
  unfold with_calls_of. rewrite list_elem_of_In, in_map_iff.
  intros ([g' pf'] & Heq & Hin%list_elem_of_In).
  cbn [fst snd] in Heq. destruct (decide (g' = f)); injection Heq as <- <-;
    by exists pf'.
Qed.

Lemma elem_with_calls_of f calls (funcs : list profiled) g pf :
  (g, pf) ∈ funcs →
  ∃ pf', (g, pf') ∈ with_calls_of f calls funcs ∧ WhenCalls pf' = WhenCalls pf.
Proof.
  intros Hin. unfold with_calls_of.
  destruct (decide (g = f)) as [Hg|Hg].
  - exists (with_script_calls (calls pf) pf). split; [|done].
    apply list_elem_of_In, in_map_iff. exists (g, pf). cbn [fst snd].
    rewrite decide_True by done. by rewrite <-list_elem_of_In.
  - exists pf. split; [|done].
    apply list_elem_of_In, in_map_iff. exists (g, pf). cbn [fst snd].
    rewrite decide_False by done. by rewrite <-list_elem_of_In.
Qed.

Lemma with_calls_of_root f calls (funcs : list profiled) g :
  is_root (with_calls_of f calls funcs) g ↔ is_root funcs g.
Proof.
  split.
  - intros (pf & Hin & Hne).
    destruct (with_calls_of_elem _ _ _ _ _ Hin) as (pf' & Hin' & Heq).
    exists pf'. split; [done|congruence].
  - intros (pf & Hin & Hne).
    destruct (elem_with_calls_of f calls _ _ _ Hin) as (pf' & Hin' & Heq).
    exists pf'. split; [done|congruence].
Qed.

Lemma with_calls_of_when_callee f calls (funcs : list profiled) g :
  is_when_callee (with_calls_of f calls funcs) g ↔ is_when_callee funcs g.
Proof.
  split.
  - intros (h & pf & Hin & Hg).
    destruct (with_calls_of_elem _ _ _ _ _ Hin) as (pf' & Hin' & Heq).
    exists h, pf'. split; [done|congruence].
  - intros (h & pf & Hin & Hg).
    destruct (elem_with_calls_of f calls _ _ _ Hin) as (pf' & Hin' & Heq).
    exists h, pf'. split; [done|congruence].
Qed.

(** Two registries that agree on roots, on the functions called in a
    "when", and on the calls of every function but [f], where [f] is a root
    that is not called in a "when": the loop takes the same functions from
    its work list in both. *)
Lemma visited_skips_root fp fp' (I I' S S' : FuncId → Prop) f g :
  (∀ h k, h ≠ f → calls fp h k → calls fp' h k) →
  (∀ h, I h ↔ I' h) → (∀ h, S h ↔ S' h) →
  I f → ¬ S f →
  visited fp I S g → visited fp' I' S' g.
Proof.
  intros Hcalls HI HS Hroot Hnot.
  induction 1 as [g Hg|h g Hh IH Hcall Hg].
  - apply visited_seed. by apply HS.
  - apply visited_call with h; [done| |by rewrite <-HI].
    apply Hcalls; [|done]. intros ->.
    by destruct (visited_inv _ _ _ _ Hh).
Qed.

(** X3. The script calls of a function that has a call in a "when" and is not
    itself called in a "when" are never looked at: such a function is put
    into [when_funcs] before the loop, so the loop never puts it on the work
    list. Whatever these calls are replaced with, the analysis ends the same
    way and with the same set; in particular its callees are not in the set
    on its account, even when it is itself reached along script calls from a
    function called in a "when". *)
Theorem when_funcs_ignores_calls_of_roots order (funcs : list profiled) f calls :
  valid_order order →
  is_root funcs f → ¬ is_when_callee funcs f →
  compute_when_funcs order (with_calls_of f calls funcs)
  = compute_when_funcs order funcs.
Proof.
  intros Hord Hroot Hnot.
  assert (Hvis : ∀ g,
    visited (func_profs (with_calls_of f calls funcs)) (is_root (with_calls_of f calls funcs)) (is_when_callee (with_calls_of f calls funcs)) g ↔
    visited (func_profs funcs) (is_root funcs) (is_when_callee funcs) g).
  { intros g. split.
    - apply (visited_skips_root _ _ _ _ _ _ f).
      + intros h k Hh (pf & Hpf & Hk). exists pf. split; [|done].
        by rewrite <-(proj1 (with_calls_of_lookup f calls funcs h) Hh).
      + apply with_calls_of_root.
      + apply with_calls_of_when_callee.
      + by apply with_calls_of_root.
      + intros Hc. apply Hnot. by apply (with_calls_of_when_callee f calls).
    - apply (visited_skips_root _ _ _ _ _ _ f).
      + intros h k Hh (pf & Hpf & Hk). exists pf. split; [|done].
        by rewrite (proj1 (with_calls_of_lookup f calls funcs h) Hh).
      + intros h. symmetry. apply with_calls_of_root.
      + intros h. symmetry. apply with_calls_of_when_callee.
      + done.
      + done. }
  assert (Hnone : ∀ g, func_profs (with_calls_of f calls funcs) !! g = None ↔ func_profs funcs !! g = None).
  { intros g. rewrite <-!not_elem_of_dom, !elem_of_dom.
    by rewrite (proj2 (with_calls_of_lookup f calls funcs g)). }
  destruct (compute_when_funcs_result order (with_calls_of f calls funcs) Hord)
    as [(X1 & -> & Hchar1 & Hdom1)|(-> & f1 & Hf1 & Hnone1)];
  destruct (compute_when_funcs_result order funcs Hord)
    as [(X2 & -> & Hchar2 & Hdom2)|(-> & f2 & Hf2 & Hnone2)].
  - f_equal. apply set_eq. intros g.
    by rewrite Hchar1, Hchar2, Hvis, with_calls_of_root.
  - apply Hvis, Hdom1, elem_of_dom in Hf2 as [pf Hpf].
    apply Hnone in Hnone2. congruence.
  - apply Hvis, Hdom2, elem_of_dom in Hf1 as [pf Hpf].
    apply Hnone in Hnone1. congruence.
  - done.
Qed.

End when_roots.

(** * Further runs on the concrete registries *)

Section more_examples.
Import Taint Toy ToyCalls.

(** X1 (witness): a registry without a "when", one of whose callees has no
    record, under the reverse iteration order. *)
Lemma when_funcs_without_when_plain :
  compute_when_funcs Examples.backwards Registries.plain = Done ∅.
Proof.
  apply (proj1 (when_funcs_without_when Examples.backwards Registries.plain)).
  by repeat constructor.
Defined.

Lemma pruned_root : is_root Registries.pruned Examples.A.
Proof.
  exists (Examples.prof [Examples.B] [Examples.D]). split; [by left|].
  intros Hempty. assert (Examples.D ∈ (∅ : gset FuncId)) as Hin; [|set_solver].
  rewrite <-Hempty. cbn. set_solver.
Qed.

Lemma pruned_not_when_callee : ¬ is_when_callee Registries.pruned Examples.A.
Proof.
  intros (h & pf & Hin & HA). unfold Registries.pruned in Hin.
  repeat (apply elem_of_cons in Hin as [[= -> ->]|Hin]);
    [cbn in HA; set_solver..|by apply elem_of_nil in Hin].
Qed.

(** X3 (witness). In [pruned], [C] is called in a "when" and calls [A], which calls [B];
    [A] has a "when" of its own, so [B] is not in the set, as if [A] called
    nothing. *)
Lemma when_funcs_ignores_calls_of_roots_pruned :
  compute_when_funcs elements (with_calls_of Examples.A (λ _, ∅) Registries.pruned)
  = compute_when_funcs elements Registries.pruned
  ∧ compute_when_funcs elements Registries.pruned
    = Done {[Examples.A; Examples.C; Examples.D]}.
Proof.
  split.
  - exact (when_funcs_ignores_calls_of_roots elements Registries.pruned Examples.A
             (λ _, ∅) valid_elements pruned_root pruned_not_when_callee).
  - vm_compute. reflexivity.
Defined.

(** X7 (witness): [foo] with one "when" statement, under a filter on [foo]. *)
Lemma optimize_func_skips_when_and_lambdas_foo :
  optimize_func foo waits 2%Z 0 only_foo (world ∅ None)
  = (Normal (foo, 0),
     with_trace
       (trace (world ∅ None) ++ original_lines only_foo 0
        ++ skipping_lines only_foo) (world ∅ None)).
Proof.
  exact (optimize_func_skips_when_and_lambdas foo waits 2%Z 0 only_foo
           (world ∅ None) eq_refl eq_refl eq_refl (or_introl (le_n 1))).
Defined.

(** X11 (witness): only [ZEEK_DUMP_XFORM] is set. *)
Lemma analyze_scripts_disabled_toy :
  ∃ w', analyze_scripts elements (world {["ZEEK_DUMP_XFORM" := "1"]} None)
        = (Normal tt, w')
    ∧ funcs w' = [info foo; info bar]
    ∧ global_ids w' = global_ids (world ∅ None)
    ∧ trace w' = []
    ∧ did_init w' = true.
Proof.
  apply (analyze_scripts_disabled elements
           (world {["ZEEK_DUMP_XFORM" := "1"]} None)); reflexivity.
Defined.

(** X12 (witness): the caller filters on [foo] and activates, [ZEEK_INLINE]
    is set to the empty string and [ZEEK_ONLY] to [bar]. *)
Lemma config_environment_only_enables_toy :
  let w := world_with only_foo {["ZEEK_INLINE" := ""; "ZEEK_ONLY" := "bar"]}
             None in
  let ao := analysis_options (config_resolved w) in
  dump_xform ao = false ∧ inliner ao = true ∧ report_recursive ao = false
  ∧ only_func ao = Some "foo"
  ∧ (true = true → activate ao = true).
Proof.
  exact (config_environment_only_enables
           (world_with only_foo {["ZEEK_INLINE" := ""; "ZEEK_ONLY" := "bar"]}
              None) eq_refl).
Defined.

(** X15 (witness): the two iteration orders on the toy world, and on the
    world in which two functions are called in a "when", so that the sets
    the loops iterate over have two elements. *)
Lemma analyze_scripts_any_order_toy :
  analyze_scripts elements (world {["ZEEK_XFORM" := "1"]} None)
  = analyze_scripts Examples.backwards (world {["ZEEK_XFORM" := "1"]} None)
  ∧ analyze_scripts elements (busy_world {["ZEEK_XFORM" := "1"]} None)
    = analyze_scripts Examples.backwards
        (busy_world {["ZEEK_XFORM" := "1"]} None).
Proof.
  split.
  - apply (analyze_scripts_any_order elements Examples.backwards).
    + exact valid_elements.
    + exact valid_backwards.
  - apply (analyze_scripts_any_order elements Examples.backwards).
    + exact valid_elements.
    + exact valid_backwards.
Defined.

(** X14 (witness): the toy world with [ZEEK_XFORM] set, and the world in
    which [baz] waits on a function without a record, where the call
    faults. *)
Lemma analyze_scripts_null_profile_toy :
  (let w := world {["ZEEK_XFORM" := "1"]} None in
   let r := analyze_scripts elements w in
   (r.1 = Crashed ↔
      analyses_on (analysis_options (config_resolved w)) = true
      ∧ takes_unregistered (funcs w))
   ∧ (r.1 = Crashed → r.2 = profiled_world (config_resolved w))
   ∧ (r.1 ≠ Crashed → r.1 = Normal tt))
  ∧ (analyze_scripts elements (waiting_world {["ZEEK_XFORM" := "1"]} None)).1
    = Crashed.
Proof.
  split.
  - exact (analyze_scripts_null_profile elements
             (world {["ZEEK_XFORM" := "1"]} None) valid_elements).
  - apply (proj2 (proj1 (analyze_scripts_null_profile elements
                           (waiting_world {["ZEEK_XFORM" := "1"]} None)
                           valid_elements))).
    split; [reflexivity|exact waiting_takes_unregistered].
Defined.

(** X13 (witness): only [ZEEK_INLINE] is set. *)
Lemma analyze_scripts_inliner_only_toy :
  ∃ w', analyze_scripts elements (world {["ZEEK_INLINE" := "1"]} None)
        = (Normal tt, w')
    ∧ funcs w' = profile_all [info foo; info bar]
    ∧ trace w' = [EvTraverse 1 0; EvTraverse 2 10; EvInliner]
    ∧ global_ids w' = global_ids (world ∅ None)
    ∧ compiled_funcs w' = ∅.
Proof.
  exact (analyze_scripts_inliner_only elements
           (world {["ZEEK_INLINE" := "1"]} None) valid_elements
           eq_refl eq_refl toy_takes_none).
Defined.

(** X16 (witness): the hook installed and [ZEEK_XFORM] set, the second call
    under the reverse iteration order. *)
Lemma substitution_is_idempotent_toy :
  let r1 := analyze_scripts elements
              (world {["ZEEK_XFORM" := "1"]} (Some foo_hook)) in
  let r2 := analyze_scripts Examples.backwards r1.2 in
  r1.1 = Normal tt ∧ r2.1 = Normal tt
  ∧ global_ids r2.2 = global_ids r1.2
  ∧ funcs r2.2 = funcs r1.2
  ∧ hook_runs (trace r2.2) = hook_runs (trace r1.2).
Proof.
  exact (substitution_is_idempotent elements Examples.backwards
           (world {["ZEEK_XFORM" := "1"]} (Some foo_hook)) foo_hook
           valid_elements valid_backwards eq_refl eq_refl eq_refl
           toy_takes_none).
Defined.

(** X9 (witness): [ZEEK_ONLY] names [bar], and [foo] is registered before
    the first call and not after it. *)
Lemma zeek_only_filters_after_first_run_toy :
  let w := world {["ZEEK_ONLY" := "bar"]} None in
  analyze_func foo w = (Normal tt, with_funcs (funcs w ++ [new_record foo]) w)
  ∧ let w1 := (analyze_scripts elements w).2 in
    analyze_func foo w1
    = (Normal tt,
       if decide (Name foo = "bar")
       then with_funcs (funcs w1 ++ [new_record foo]) w1 else w1).
Proof.
  exact (zeek_only_filters_after_first_run elements
           (world {["ZEEK_ONLY" := "bar"]} None) foo "bar"
           eq_refl eq_refl eq_refl eq_refl).
Defined.

End more_examples.
